(** * World Engine editor: document model, serializer, tree index,
      selection and mode state machines

    A shallow embedding of [Resources/world-engine/editor-app.js]:
    - [Js]: the JavaScript values the validator inspects, with the
      language operations the source uses on them ([typeof], [in],
      member access, [trim], [===] against a string);
    - [Validator]: [validateVector3] ... [validateWorldDocument];
    - [Serializer]: [serializeWorld] / [deserializeWorld] over the JSON
      data a wire text denotes;
    - [TreeIndex]: [findNodeById], [updateNodeById], [flattenNodeIds]
      over objects that carry their reference;
    - [Selection]: the [SelectionManager] class;
    - [Mode]: the [ModeManager] class, with the hooks it fires recorded
      in a log;
    - [Hash]: [hashString], the hash of an exported document;
    - [Editor]: what the panels compute from their input, and what the
      editor stores after an edit of the inspector. *)

From Stdlib Require Import Floats ZArith Ascii String.
From stdpp Require Import gmap strings list pretty.

Local Open Scope string_scope.
Local Open Scope list_scope.

(** ** JavaScript values *)

Module Js.

(** Numbers are IEEE 754 doubles, as in the language. An object is the
    list of its own properties in enumeration order (the language's
    reordering of integer-like keys is left out: no key the source
    reads or writes is one); a property may be present and hold
    [undefined]. Functions, symbols and objects with accessors or a
    prototype of their own are outside the model. *)
Unset Elimination Schemes.
Inductive value : Type :=
| VUndefined
| VNull
| VBool (b : bool)
| VNumber (n : float)
| VString (s : string)
| VArray (items : list value)
| VObject (props : list (string * value)).
Set Elimination Schemes.

Abbreviation props := (list (string * value)).

(** What a call can do: return, or throw. *)
Inductive outcome (E A : Type) : Type :=
| Returns (a : A)
| Throws (e : E).
Arguments Returns {E A} a.
Arguments Throws {E A} e.

Definition obind {E A B} (m : outcome E A) (k : A -> outcome E B) : outcome E B :=
  match m with
  | Returns a => k a
  | Throws e => Throws e
  end.

(** [key in o] and [o[key]] on the own properties of an object. *)
Fixpoint own (key : string) (o : props) : option value :=
  match o with
  | [] => None
  | (k, v) :: rest => if String.eqb k key then Some v else own key rest
  end.

Definition get (key : string) (o : props) : value :=
  default VUndefined (own key o).

(** [own] in continuation style: [present] receives the property value
    itself, so a recursive function may descend into it. *)
Definition withOwn {B : Type} (key : string) (absent : B) (present : value -> B) : props -> B :=
  fix scan (o : props) : B :=
    match o with
    | [] => absent
    | (k, v) :: rest => if String.eqb k key then present v else scan rest
    end.

(** [{ ...o, key: v }]: an existing property keeps its place and takes
    the new value, a new one is added last. *)
Fixpoint spreadWith (key : string) (v : value) (o : props) : props :=
  match o with
  | [] => [(key, v)]
  | (k, x) :: rest =>
      if String.eqb k key then (k, v) :: rest else (k, x) :: spreadWith key v rest
  end.

(** [typeof value === 'object' && value !== null && !Array.isArray(value)] *)
Definition isObject (v : value) : bool :=
  match v with VObject _ => true | _ => false end.

(** [typeof value === 'number' && Number.isFinite(value)] *)
Definition isFiniteNumber (v : value) : bool :=
  match v with VNumber n => PrimFloat.is_finite n | _ => false end.

(** Truthiness, as [&&], [!] and [if] see a value. *)
Definition truthy (v : value) : bool :=
  match v with
  | VUndefined | VNull => false
  | VBool b => b
  | VNumber n => negb (PrimFloat.is_zero n || PrimFloat.is_nan n)
  | VString s => negb (String.eqb s "")
  | VArray _ | VObject _ => true
  end.

(** Strings are sequences of code units below 256. The white space and
    line terminators [String.prototype.trim] strips in that range: TAB,
    LF, VT, FF, CR, SP and NBSP. *)
Definition isWhiteSpace (c : ascii) : bool :=
  let n := nat_of_ascii c in
  ((9 <=? n)%nat && (n <=? 13)%nat) || (n =? 32)%nat || (n =? 160)%nat.

Fixpoint trimStart (s : string) : string :=
  match s with
  | EmptyString => EmptyString
  | String c rest => if isWhiteSpace c then trimStart rest else s
  end.

Definition trim (s : string) : string :=
  String.rev (trimStart (String.rev (trimStart s))).

(** [typeof v === 'string' && v.trim()] is truthy: the shape every id,
    uri, type and assetId must have. *)
Definition nonEmptyString (v : value) : option string :=
  match v with
  | VString s => if String.eqb (trim s) "" then None else Some s
  | _ => None
  end.

(** [v.key] for a key no primitive or array carries ([id], [version]):
    reading it off [null] or [undefined] throws a TypeError. *)
Inductive typeError : Type := TypeError.

Definition member (v : value) (key : string) : outcome typeError value :=
  match v with
  | VUndefined | VNull => Throws TypeError
  | VObject o => Returns (get key o)
  | _ => Returns VUndefined
  end.

(** [v === s] for a string [s]. *)
Definition strictEqualsString (v : value) (s : string) : bool :=
  match v with VString t => String.eqb t s | _ => false end.

End Js.

(** ** The Validator *)

Module Validator.
Import Js.

(** A path is what the template strings of the source build:
    [nodes[0].children[1].transform.position.x] is
    [[Name "nodes"; Index 0; Field "children"; Index 1; Field "transform";
      Field "position"; Field "x"]]. *)
Inductive segment : Type :=
| Name (name : string)
| Field (name : string)
| Index (i : nat).

Abbreviation path := (list segment).

Definition extend (p : path) (s : segment) : path := p ++ [s].
Infix "/>" := extend (at level 40, left associativity).

(** One constructor per message template of the source. *)
Inductive problem : Type :=
| NotVector3            (* must be an object with x, y, and z numbers *)
| NotQuaternion         (* must be an object with x, y, z, and w numbers *)
| NotFiniteNumber       (* must be a finite number *)
| NotObject             (* must be an object *)
| NotNonEmptyString     (* must be a non-empty string *)
| NotObjectWhenPresent  (* must be an object when present *)
| MissingAsset (assetId : string) (* references missing asset '<assetId>' *)
| NotUnique (id : string)         (* '<id>' must be unique *)
| NotStringWhenPresent  (* must be a string when present *)
| NotStringArray        (* must be an array of strings when present *)
| NotArrayWhenPresent   (* must be an array when present *)
| NotArray              (* must be an array *)
| WorldNotObject.       (* World must be an object *)

Record error : Type := Error { location : path; what : problem }.

Definition renderSegment (s : segment) : string :=
  match s with
  | Name n => n
  | Field n => "." +:+ n
  | Index i => "[" +:+ pretty i +:+ "]"
  end.

Definition renderPath (p : path) : string :=
  foldr (fun s acc => renderSegment s +:+ acc) "" p.

Definition renderProblem (w : problem) : string :=
  match w with
  | NotVector3 => " must be an object with x, y, and z numbers"
  | NotQuaternion => " must be an object with x, y, z, and w numbers"
  | NotFiniteNumber => " must be a finite number"
  | NotObject => " must be an object"
  | NotNonEmptyString => " must be a non-empty string"
  | NotObjectWhenPresent => " must be an object when present"
  | MissingAsset a => " references missing asset '" +:+ a +:+ "'"
  | NotUnique i => " '" +:+ i +:+ "' must be unique"
  | NotStringWhenPresent => " must be a string when present"
  | NotStringArray => " must be an array of strings when present"
  | NotArrayWhenPresent => " must be an array when present"
  | NotArray => " must be an array"
  | WorldNotObject => "World must be an object"
  end.

(** The string the source pushes. *)
Definition message (e : error) : string :=
  renderPath (location e) +:+ renderProblem (what e).

Definition validateAxes (axes : list string) (o : props) (p : path) : list error :=
  flat_map (fun key =>
    if isFiniteNumber (get key o) then [] else [Error (p /> Field key) NotFiniteNumber]) axes.

Definition validateVector3 (value : value) (p : path) : list error :=
  match value with
  | VObject o => validateAxes ["x"; "y"; "z"] o p
  | _ => [Error p NotVector3]
  end.

Definition validateQuaternion (value : value) (p : path) : list error :=
  match value with
  | VObject o => validateAxes ["x"; "y"; "z"; "w"] o p
  | _ => [Error p NotQuaternion]
  end.

(** [if (key in o) errors = errors.concat(check(o[key], ...))] *)
Definition whenPresent (key : string) (o : props) (check : value -> list error) : list error :=
  match own key o with
  | Some v => check v
  | None => []
  end.

Definition validateTransform (value : value) (p : path) : list error :=
  match value with
  | VObject o =>
      whenPresent "position" o (fun v => validateVector3 v (p /> Field "position"))
      ++ whenPresent "rotation" o (fun v => validateQuaternion v (p /> Field "rotation"))
      ++ whenPresent "scale" o (fun v => validateVector3 v (p /> Field "scale"))
  | _ => [Error p NotObject]
  end.

Definition requireNonEmptyString (key : string) (o : props) (p : path) : list error :=
  match nonEmptyString (get key o) with
  | Some _ => []
  | None => [Error (p /> Field key) NotNonEmptyString]
  end.

Definition requireObjectWhenPresent (key : string) (o : props) (p : path) : list error :=
  whenPresent key o (fun v =>
    if isObject v then [] else [Error (p /> Field key) NotObjectWhenPresent]).

Definition validateComponent (component : value) (p : path) : list error :=
  match component with
  | VObject o =>
      requireNonEmptyString "type" o p ++ requireObjectWhenPresent "data" o p
  | _ => [Error p NotObject]
  end.

(** [assets.find((asset) => asset.id === assetId)]: the callback reads
    [asset.id] off every entry up to the first match, whatever the entry
    is. *)
Fixpoint findAssetById (assets : list value) (assetId : string)
  : outcome typeError (option value) :=
  match assets with
  | [] => Returns None
  | asset :: rest =>
      obind (member asset "id") (fun id =>
        if strictEqualsString id assetId then Returns (Some asset)
        else findAssetById rest assetId)
  end.

(** [assets] is [context.assets]; [None] is [undefined], which the
    default parameter [assets = []] replaces. *)
Definition validateNodeAssetReference (assetRef : value) (p : path)
    (assets : option (list value)) : outcome typeError (list error) :=
  match assetRef with
  | VObject o =>
      obind
        (match nonEmptyString (get "assetId" o) with
         | None => Returns [Error (p /> Field "assetId") NotNonEmptyString]
         | Some assetId =>
             obind (findAssetById (default [] assets) assetId) (fun found =>
               Returns (match found with
                        | Some _ => []
                        | None => [Error (p /> Field "assetId") (MissingAsset assetId)]
                        end))
         end)
        (fun idErrors => Returns (idErrors ++ requireObjectWhenPresent "options" o p))
  | _ => Returns [Error p NotObject]
  end.

(** The id check shared by nodes and assets: a [seenIds] set is read
    and, for a fresh well-formed id, extended. *)
Definition checkId (o : props) (p : path) (seenIds : gset string)
  : list error * gset string :=
  match nonEmptyString (get "id" o) with
  | None => ([Error (p /> Field "id") NotNonEmptyString], seenIds)
  | Some id =>
      if decide (id ∈ seenIds) then ([Error (p /> Field "id") (NotUnique id)], seenIds)
      else ([], {[id]} ∪ seenIds)
  end.

Definition isString (v : value) : bool :=
  match v with VString _ => true | _ => false end.

Definition validateTags (tags : value) (p : path) : list error :=
  match tags with
  | VArray items =>
      if forallb isString items then [] else [Error p NotStringArray]
  | _ => [Error p NotStringArray]
  end.

(** [items.forEach((item, index) => errors.push(...check(item, index)))]
    for a check that may read and extend the traversal state and may
    throw. *)
Definition forEachIndexed {St : Type}
    (check : value -> nat -> St -> outcome typeError (list error * St))
  : list value -> nat -> St -> outcome typeError (list error * St) :=
  fix loop (items : list value) (index : nat) (s : St) :=
    match items with
    | [] => Returns ([], s)
    | item :: rest =>
        obind (check item index s) (fun '(errors, s1) =>
          obind (loop rest (S index) s1) (fun '(more, s2) =>
            Returns (errors ++ more, s2)))
    end.

Definition validateComponents (components : value) (p : path) : list error :=
  match components with
  | VArray items =>
      concat (imap (fun index component =>
        validateComponent component (p /> Index index)) items)
  | _ => [Error p NotArrayWhenPresent]
  end.

(** [context] is [{ assets, seenIds }]; [seenIds] is the one mutable
    set shared by the whole descent, threaded here as state. *)
Fixpoint validateSceneNode (node : value) (p : path)
    (assets : option (list value)) (seenIds : gset string) {struct node}
  : outcome typeError (list error * gset string) :=
  match node with
  | VObject o =>
      let '(idErrors, seenIds) := checkId o p seenIds in
      let nameErrors := whenPresent "name" o (fun v =>
        if isString v then [] else [Error (p /> Field "name") NotStringWhenPresent]) in
      let tagsErrors := whenPresent "tags" o (fun v => validateTags v (p /> Field "tags")) in
      let transformErrors :=
        whenPresent "transform" o (fun v => validateTransform v (p /> Field "transform")) in
      let componentErrors :=
        whenPresent "components" o (fun v => validateComponents v (p /> Field "components")) in
      obind
        (match own "asset" o with
         | Some v => validateNodeAssetReference v (p /> Field "asset") assets
         | None => Returns []
         end)
        (fun assetErrors =>
           let errors :=
             idErrors ++ nameErrors ++ tagsErrors ++ transformErrors
             ++ componentErrors ++ assetErrors in
           withOwn "children" (Returns (errors, seenIds))
             (fun children =>
                match children with
                | VArray items =>
                    obind
                      (forEachIndexed (fun child index seen =>
                         validateSceneNode child (p /> Field "children" /> Index index)
                           assets seen) items 0 seenIds)
                      (fun '(childErrors, seen) => Returns (errors ++ childErrors, seen))
                | _ =>
                    Returns (errors ++ [Error (p /> Field "children") NotArrayWhenPresent],
                             seenIds)
                end) o)
  | _ => Returns ([Error p NotObject], seenIds)
  end.

Record assetsResult : Type :=
  AssetsResult { assetErrors : list error; assetList : option (list value) }.

Definition validateAsset (asset : value) (p : path) (seenIds : gset string)
  : list error * gset string :=
  match asset with
  | VObject o =>
      let '(idErrors, seenIds) := checkId o p seenIds in
      let typeErrors :=
        if truthy (get "type" o) && negb (isString (get "type" o))
        then [Error (p /> Field "type") NotStringWhenPresent] else [] in
      (idErrors ++ requireNonEmptyString "uri" o p ++ typeErrors, seenIds)
  | _ => ([Error p NotObject], seenIds)
  end.

Fixpoint validateAssetEntries (assets : list value) (p : path) (index : nat)
    (seenIds : gset string) : list error :=
  match assets with
  | [] => []
  | asset :: rest =>
      let '(errors, seenIds) := validateAsset asset (p /> Index index) seenIds in
      errors ++ validateAssetEntries rest p (S index) seenIds
  end.

Definition validateAssets (assets : value) (p : path) : assetsResult :=
  match assets with
  | VUndefined => AssetsResult [] None
  | VArray items => AssetsResult (validateAssetEntries items p 0 ∅) (Some items)
  | _ => AssetsResult [Error p NotArrayWhenPresent] None
  end.

Record validation : Type := Validation { valid : bool; errors : list error }.

(** The strings of the [errors] array. *)
Definition messages (v : validation) : list string := map message (errors v).

Definition isEmpty {A} (l : list A) : bool :=
  match l with [] => true | _ => false end.

Definition validateWorldDocument (world : value) : outcome typeError validation :=
  match world with
  | VObject o =>
      let r := validateAssets (get "assets" o) [Name "assets"] in
      obind
        (match get "nodes" o with
         | VArray nodes =>
             obind
               (forEachIndexed (fun node index seen =>
                  validateSceneNode node [Name "nodes"; Index index] (assetList r) seen)
                  nodes 0 ∅)
               (fun '(nodeErrors, _) => Returns nodeErrors)
         | _ => Returns [Error [Name "nodes"] NotArray]
         end)
        (fun nodeErrors =>
           let errors := assetErrors r ++ nodeErrors in
           Returns (Validation (isEmpty errors) errors))
  | _ => Returns (Validation false [Error [] WorldNotObject])
  end.

End Validator.

(** ** The Serializer *)

Module Serializer.
Import Js Validator.

Definition CURRENT_WORLD_SCHEMA_VERSION : float := 1%float.

(** The data a JSON text spells. A wire text is modelled by that data:
    [Text j] is a text that spells [j], [NotJson] any text that is not
    JSON. An object lists its members in the order of the text and may
    repeat a key. *)
Unset Elimination Schemes.
Inductive json : Type :=
| JNull
| JBool (b : bool)
| JNumber (n : float)
| JString (s : string)
| JArray (items : list json)
| JObject (members : list (string * json)).
Set Elimination Schemes.

Inductive text : Type :=
| Text (j : json)
| NotJson.

(** A finite number is written in the shortest form that reads back as
    the same double; [-0] is written [0]. *)
Definition numberText (n : float) : json :=
  if PrimFloat.is_finite n
  then JNumber (if PrimFloat.is_zero n then PrimFloat.zero else n)
  else JNull.

(** [JSON.stringify]: [None] is the result [undefined]. A property
    holding [undefined] is left out, an array element holding it is
    written [null], and so is a number that is not finite. *)
Fixpoint JSON_stringify (v : value) : option json :=
  match v with
  | VUndefined => None
  | VNull => Some JNull
  | VBool b => Some (JBool b)
  | VNumber n => Some (numberText n)
  | VString s => Some (JString s)
  | VArray items =>
      Some (JArray (map (fun item => default JNull (JSON_stringify item)) items))
  | VObject o =>
      Some (JObject (flat_map (fun kv =>
        match JSON_stringify (snd kv) with
        | Some j => [(fst kv, j)]
        | None => []
        end) o))
  end.

(** [JSON.parse] on well-formed text: members define properties in
    text order, a repeated key overwriting the value defined before. *)
Fixpoint fromJson (j : json) : value :=
  match j with
  | JNull => VNull
  | JBool b => VBool b
  | JNumber n => VNumber n
  | JString s => VString s
  | JArray items => VArray (map fromJson items)
  | JObject members =>
      VObject (foldl (fun o kv => spreadWith (fst kv) (fromJson (snd kv)) o) [] members)
  end.

(** What the two entry points throw: a native TypeError, the
    SyntaxError of [JSON.parse] (the spec's ParseError), and the two
    [Error]s the source constructs (the spec's UnsupportedVersionError
    and ValidationError), with the values their messages embed. *)
Inductive exn : Type :=
| Native (e : typeError)
| SyntaxError
| FutureSchemaVersion (version : value)
| InvalidWorld (errors : list error).

Definition native {A} (m : outcome typeError A) : outcome exn A :=
  match m with
  | Returns a => Returns a
  | Throws e => Throws (Native e)
  end.

Definition JSON_parse (serialized : text) : outcome exn value :=
  match serialized with
  | Text j => Returns (fromJson j)
  | NotJson => Throws SyntaxError
  end.

(** [if (!validation.valid) throw new Error(...)] *)
Definition requireValid (world : value) : outcome exn unit :=
  obind (native (validateWorldDocument world)) (fun validation =>
    if valid validation then Returns tt
    else Throws (InvalidWorld (errors validation))).

(** [{ ...world, version: CURRENT_WORLD_SCHEMA_VERSION }]; a world that
    passed validation is an object, and nothing else reaches the
    spread. *)
Definition stampVersion (world : value) : value :=
  match world with
  | VObject o => VObject (spreadWith "version" (VNumber CURRENT_WORLD_SCHEMA_VERSION) o)
  | _ => VObject [("version", VNumber CURRENT_WORLD_SCHEMA_VERSION)]
  end.

Definition serializeWorld (world : value) : outcome exn text :=
  obind (requireValid world) (fun _ =>
    Returns (match JSON_stringify (stampVersion world) with
             | Some j => Text j
             | None => NotJson
             end)).

Section Deserialize.

(** ECMAScript's ToNumber on a string, and on an array or an object
    (through ToPrimitive, which may throw): built into the language and
    taken as a parameter. *)
Variable toNumber : value -> outcome typeError float.

(** [v > n] for a number [n]. *)
Definition greaterThan (v : value) (n : float) : outcome typeError bool :=
  match v with
  | VNumber x => Returns (PrimFloat.ltb n x)
  | VUndefined => Returns false
  | VNull => Returns (PrimFloat.ltb n PrimFloat.zero)
  | VBool b => Returns (PrimFloat.ltb n (if b then PrimFloat.one else PrimFloat.zero))
  | _ => obind (toNumber v) (fun x => Returns (PrimFloat.ltb n x))
  end.

(** [if (parsed.version === undefined) parsed.version = 0]: reading
    [version] off [null] throws; assigning to a primitive throws in
    module (strict) code; an array takes the property, which nothing
    reads afterwards. *)
Definition defaultVersion (parsed : value) : outcome typeError value :=
  obind (member parsed "version") (fun version =>
    match version with
    | VUndefined =>
        match parsed with
        | VObject o => Returns (VObject (spreadWith "version" (VNumber PrimFloat.zero) o))
        | VArray _ => Returns parsed
        | _ => Throws TypeError
        end
    | _ => Returns parsed
    end).

Definition versionOf (parsed : value) : value :=
  match parsed with
  | VObject o => get "version" o
  | VArray _ => VNumber PrimFloat.zero
  | _ => VUndefined
  end.

Definition deserializeWorld (serialized : text) : outcome exn value :=
  obind (JSON_parse serialized) (fun parsed =>
  obind (native (defaultVersion parsed)) (fun parsed =>
  obind (native (greaterThan (versionOf parsed) CURRENT_WORLD_SCHEMA_VERSION)) (fun future =>
    if (future : bool) then Throws (FutureSchemaVersion (versionOf parsed))
    else
      obind (requireValid parsed) (fun _ => Returns (stampVersion parsed))))).

End Deserialize.

End Serializer.

(** ** The Tree Index *)

Module TreeIndex.

(** [updateNodeById] tells objects apart by reference ([!==]), so
    nodes and arrays carry theirs. A node is its reference, its [id],
    its other own properties and its [children]: [None] when the
    property is absent (or falsy), else the array it holds. *)
Definition ref : Type := nat.

Unset Elimination Schemes.
Inductive node : Type :=
| Node (self : ref) (id : string) (others : Js.props) (children : option (ref * list node)).
Set Elimination Schemes.

(** An array of nodes: its reference and its elements. *)
Abbreviation nodes := (ref * list node)%type.

Definition self (n : node) : ref := let 'Node r _ _ _ := n in r.
Definition id (n : node) : string := let 'Node _ i _ _ := n in i.
Definition others (n : node) : Js.props := let 'Node _ _ o _ := n in o.
Definition children (n : node) : option nodes := let 'Node _ _ _ c := n in c.

(** [a !== b] on two nodes, and on two values of [children]. *)
Definition differentNode (a b : node) : bool := negb (self a =? self b)%nat.

Definition differentChildren (a b : option nodes) : bool :=
  match a, b with
  | None, None => false
  | Some x, Some y => negb (fst x =? fst y)%nat
  | _, _ => true
  end.

(** [result ?? n]. An object is determined by its reference: a result
    that carries the reference of [n] is [n]. *)
Definition orNode (result : option node) (n : node) : node :=
  match result with
  | Some n' => if differentNode n' n then n' else n
  | None => n
  end.

(** The objects [updateNodeById] creates (the array [map] returns and
    the object of [{ ...nextNode, children }]) take the next unused
    reference. *)
Definition alloc (A : Type) : Type := ref -> A * ref.

Definition fresh : alloc ref := fun next => (next, S next).

(** [nodes.map(callback)], the callback also reporting whether it set
    [changed]; the flags of all elements are or-ed into the one
    [changed] variable of the call. *)
Definition mapNodes (callback : node -> alloc (node * bool))
  : list node -> alloc (list node * bool) :=
  fix loop (items : list node) : alloc (list node * bool) :=
    match items with
    | [] => fun next => (([], false), next)
    | item :: rest => fun next =>
        let '((item', c1), next) := callback item next in
        let '((rest', c2), next) := loop rest next in
        ((item' :: rest', c1 || c2), next)
    end.

(** The body of [updateNodeById] around the callback:
    [return { nodes: changed ? mapped : nodes, changed }]. *)
Definition mapOrKeep (callback : node -> alloc (node * bool)) (input : nodes)
  : alloc (nodes * bool) :=
  fun next =>
    let '(mapped, next) := fresh next in
    let '((items, changed), next) := mapNodes callback (snd input) next in
    ((if changed then (mapped, items) else input, changed), next).

Section Update.

(** The target id, and the updater: [None] is a result of [undefined]
    or [null], which [?? node] replaces by the node. *)
Variable target : string.
Variable updater : node -> option node.

(** The callback of [nodes.map] in [updateNodeById]. *)
Fixpoint visit (n : node) : alloc (node * bool) :=
  fun next =>
    let nextNode := if String.eqb (id n) target then orNode (updater n) n else n in
    let changed := String.eqb (id n) target && differentNode nextNode n in
    let '((kids, childChanged), next) :=
      match n with
      | Node _ _ _ (Some input) =>
          let '((output, c), next) := mapOrKeep visit input next in
          ((Some output, c), next)
      | Node _ _ _ None => ((None, false), next)
      end in
    if differentChildren (children n) kids || differentNode nextNode n
    then
      let '(r, next) := fresh next in
      ((Node r (id nextNode) (others nextNode) kids, changed || childChanged), next)
    else ((nextNode, changed || childChanged), next).

Definition updateNodeById (input : nodes) : alloc (nodes * bool) :=
  mapOrKeep visit input.

End Update.

(** [flattenNodeIds]: the ids in pre-order, depth first. *)
Fixpoint nodeIds (n : node) : list string :=
  match n with
  | Node _ i _ (Some (_, items)) => i :: flat_map nodeIds items
  | Node _ i _ None => [i]
  end.

Definition flattenNodeIds (input : nodes) : list string :=
  flat_map nodeIds (snd input).

(** [findNodeById]: the first match in pre-order. [if (child)] holds
    for every node found, a node being an object. *)
Fixpoint findIn (target : string) (n : node) : option node :=
  if String.eqb (id n) target then Some n
  else
    match n with
    | Node _ _ _ (Some (_, items)) =>
        (fix first (items : list node) : option node :=
           match items with
           | [] => None
           | item :: rest =>
               match findIn target item with
               | Some found => Some found
               | None => first rest
               end
           end) items
    | Node _ _ _ None => None
    end.

Fixpoint findNodeById (items : list node) (target : string) : option node :=
  match items with
  | [] => None
  | item :: rest =>
      match findIn target item with
      | Some found => Some found
      | None => findNodeById rest target
      end
  end.

End TreeIndex.

(** ** The Selection State Machine *)

Module Selection.

(** An id is a string, or [undefined] ([None]): reading an array out
    of range yields it, and [focused] holds it when nothing is. *)
Abbreviation ident := (option string).

(** [if (id)]: [undefined] and the empty string are falsy. *)
Definition truthy (i : ident) : bool :=
  match i with
  | Some s => negb (String.eqb s "")
  | None => false
  end.

(** A [Set] keeps its members in insertion order. *)
Definition has (selection : list ident) (i : ident) : bool :=
  bool_decide (i ∈ selection).

Definition add (selection : list ident) (i : ident) : list ident :=
  if has selection i then selection else selection ++ [i].

(** [new Set(ids)] *)
Definition newSet (ids : list ident) : list ident := foldl add [] ids.

Record manager : Type := Manager { selection : list ident; focused : ident }.

(** [array[i]] for an integer [i]: [undefined] out of range. *)
Definition at_ (array : list ident) (i : Z) : ident :=
  if (i <? 0)%Z then None else mjoin (array !! Z.to_nat i).

(** [array.indexOf(x)]: the first index holding [x], or [-1]. *)
Fixpoint indexOf (array : list ident) (x : ident) : Z :=
  match array with
  | [] => (-1)%Z
  | y :: rest =>
      if bool_decide (y = x) then 0%Z
      else let i := indexOf rest x in if (i =? -1)%Z then (-1)%Z else (i + 1)%Z
  end.

Definition getSelection (m : manager) : list ident := selection m.

Definition setSelection (ids : list ident) (focusLast : bool) (m : manager) : manager :=
  let next := ids in
  let selection := newSet next in
  if focusLast then Manager selection (at_ next (Z.of_nat (length next) - 1))
  else if truthy (focused m) && negb (has selection (focused m))
       then Manager selection (at_ next 0)
       else Manager selection (focused m).

(** [direction] is an integer; [%] is the remainder that takes the sign
    of the dividend. *)
Definition focusNext (order : list ident) (direction : Z) (m : manager) : manager :=
  match order with
  | [] => Manager [] None
  | _ =>
      let len := Z.of_nat (length order) in
      let currentIndex := if truthy (focused m) then indexOf order (focused m) else (-1)%Z in
      let nextIndex :=
        if (currentIndex =? -1)%Z then 0%Z
        else Z.rem (currentIndex + direction + len) len in
      let nextId := at_ order nextIndex in
      Manager (newSet [nextId]) nextId
  end.

(** [selection.delete(id)] *)
Definition delete (selection : list ident) (i : ident) : list ident :=
  filter (fun j => j <> i) selection.

(** The first member in insertion order, [undefined] for an empty set:
    [[...selection][0]], [selection.values().next().value] and
    [const [first] = selection]. *)
Definition first (selection : list ident) : ident := at_ selection 0.

(** [new SelectionManager(initialSelection)] *)
Definition newManager (initialSelection : list ident) : manager :=
  let selection := newSet initialSelection in
  Manager selection (first selection).

Definition getFocused (m : manager) : ident := focused m.

Definition isSelected (m : manager) (i : ident) : bool := has (selection m) i.

Definition isFocused (m : manager) (i : ident) : bool := bool_decide (focused m = i).

(** [select(id, { additive, focus })]: the two options are given as
    the truthiness they have after their defaults ([false], [true]). *)
Definition select (i : ident) (additive focus : bool) (m : manager) : manager :=
  let selection := if additive then selection m else [] in
  let selection :=
    if additive && has selection i then delete selection i else add selection i in
  if focus then Manager selection i
  else if truthy (focused m) && negb (has selection (focused m))
       then Manager selection (first selection)
       else Manager selection (focused m).

Definition focus (i : ident) (m : manager) : manager :=
  if truthy i && has (selection m) i then Manager (selection m) i
  else if truthy i then Manager (newSet [i]) i
  else Manager (selection m) (first (selection m)).

Definition ensureFocused (m : manager) : manager :=
  if truthy (focused m) && has (selection m) (focused m) then m
  else Manager (selection m) (first (selection m)).

End Selection.

(** ** The Mode State Machine *)

Module Mode.

(** A mode context, as far as the machine looks at it: which of the
    optional hooks it has. [tag] tells the contexts of a factory apart. *)
Record context : Type :=
  Context { tag : nat; hasActivate : bool; hasDeactivate : bool; hasDispose : bool }.

(** What the machine calls, in the order it calls it. *)
Inductive event : Type :=
| Created (mode : string)            (* options.createContext(mode) *)
| Activated (c : context)            (* context.activate() *)
| Deactivated (c : context)          (* context.deactivate() *)
| Disposed (c : context)             (* context.dispose() *)
| AutoSaved                          (* options.autoSave() *)
| Asked (current target : string)    (* options.confirmSwitch(current, target) *)
| Notified (listener : nat) (mode : string).  (* listener(mode) *)

(** [hasUnsavedChanges]: [None] when not configured, else what the
    call yields: [None] for [undefined] or [null] (which [??] skips),
    else the truthiness of the value. [autoSave]: whether one is
    configured. [confirmSwitch]: the truthiness of what it resolves to. *)
Record options : Type := Options {
  createContext : string -> context;
  hasUnsavedChanges : option (option bool);
  autoSave : bool;
  confirmSwitch : option (string -> string -> bool)
}.

Record manager : Type := Manager {
  opts : options;
  mode : string;
  contexts : list (string * context);
  listeners : list nat;
  dirty : bool;
  log : list event
}.

Definition emit (events : list event) (m : manager) : manager :=
  Manager (opts m) (mode m) (contexts m) (listeners m) (dirty m) (log m ++ events).

(** [contexts.get(mode)] *)
Fixpoint mapGet (entries : list (string * context)) (key : string) : option context :=
  match entries with
  | [] => None
  | (k, c) :: rest => if String.eqb k key then Some c else mapGet rest key
  end.

Definition getContext (m : manager) (mode : string) : option context :=
  mapGet (contexts m) mode.

Definition isDirty (m : manager) : bool :=
  match hasUnsavedChanges (opts m) with
  | Some (Some answer) => answer
  | _ => dirty m
  end.

Definition clearDirty (m : manager) : manager :=
  Manager (opts m) (mode m) (contexts m) (listeners m) false (log m).

Definition markDirty (m : manager) : manager :=
  Manager (opts m) (mode m) (contexts m) (listeners m) true (log m).

Definition createOrGetContext (mode0 : string) (m : manager) : context * manager :=
  match getContext m mode0 with
  | Some existing => (existing, m)
  | None =>
      let c := createContext (opts m) mode0 in
      (c, emit [Created mode0]
            (Manager (opts m) (mode m) (contexts m ++ [(mode0, c)]) (listeners m)
               (dirty m) (log m)))
  end.

(** The machine waits for each policy before it goes on: one switch
    is in flight. *)
Definition handleUnsavedChanges (target : string) (m : manager) : bool * manager :=
  if negb (isDirty m) then (true, m)
  else if autoSave (opts m) then (true, clearDirty (emit [AutoSaved] m))
  else
    match confirmSwitch (opts m) with
    | Some confirm =>
        let ok := confirm (mode m) target in
        let m := emit [Asked (mode m) target] m in
        (ok, if ok then clearDirty m else m)
    | None => (true, m)
    end.

Definition callIf (has : bool) (e : event) : list event := if has then [e] else [].

Definition switchMode (target : string) (m : manager) : bool * manager :=
  if String.eqb target (mode m) then (true, m)
  else
    let previous := getContext m (mode m) in
    let '(next, m) := createOrGetContext target m in
    let '(canSwitch, m) := handleUnsavedChanges target m in
    if negb canSwitch then (false, m)
    else
      let m := emit (match previous with
                     | Some c => callIf (hasDeactivate c) (Deactivated c)
                     | None => []
                     end) m in
      let m := emit (callIf (hasActivate next) (Activated next)) m in
      let m := Manager (opts m) target (contexts m) (listeners m) (dirty m) (log m) in
      (true, emit (map (fun listener => Notified listener target) (listeners m)) m).

(** [new ModeManager(options, initialMode)] *)
Definition newManager (options : options) (initialMode : string) : manager :=
  let m := Manager options initialMode [] [] false [] in
  let '(context, m) := createOrGetContext initialMode m in
  emit (callIf (hasActivate context) (Activated context)) m.

Definition getMode (m : manager) : string := mode m.

(** [subscribe(listener)]: the set of listeners takes a listener once;
    the listener is called at once with the current mode. *)
Definition subscribe (listener : nat) (m : manager) : manager :=
  let listeners :=
    if bool_decide (listener ∈ listeners m) then listeners m
    else listeners m ++ [listener] in
  emit [Notified listener (mode m)]
    (Manager (opts m) (mode m) (contexts m) listeners (dirty m) (log m)).

(** The function [subscribe] returns: [() => this.listeners.delete(listener)]. *)
Definition unsubscribe (listener : nat) (m : manager) : bool * manager :=
  (bool_decide (listener ∈ listeners m),
   Manager (opts m) (mode m) (contexts m)
     (filter (fun l => l <> listener) (listeners m)) (dirty m) (log m)).

Definition destroy (m : manager) : manager :=
  let '(_, m) := createOrGetContext "edit" m in
  let '(_, m) := createOrGetContext "play" m in
  let m := emit (flat_map (fun entry => callIf (hasDispose (snd entry)) (Disposed (snd entry)))
                   (contexts m)) m in
  Manager (opts m) (mode m) [] [] (dirty m) (log m).

End Mode.

(** ** The export hash *)

Module Hash.

(** [ToInt32]: the integer modulo 2^32, in the signed 32-bit range. *)
Definition toInt32 (z : Z) : Z := ((z + 2 ^ 31) mod 2 ^ 32 - 2 ^ 31)%Z.

(** [a << count] on a 32-bit integer [a]. *)
Definition shiftLeft (a count : Z) : Z := toInt32 (Z.shiftl a count).

(** [input.charCodeAt(i)] *)
Definition charCode (c : ascii) : Z := Z.of_nat (nat_of_ascii c).

(** One round of the loop:
    [hash = (hash << 5) - hash + input.charCodeAt(i); hash |= 0].
    The subtraction and the addition are exact on doubles (every
    operand is below 2^32 in magnitude). *)
Definition round (hash : Z) (c : ascii) : Z :=
  toInt32 (shiftLeft hash 5 - hash + charCode c).

Fixpoint rounds (hash : Z) (input : string) : Z :=
  match input with
  | EmptyString => hash
  | String c rest => rounds (round hash c) rest
  end.

Definition hexDigit (d : Z) : ascii :=
  if (d <? 10)%Z then ascii_of_nat (48 + Z.to_nat d) else ascii_of_nat (87 + Z.to_nat d).

(** [n.toString(16)] for an integer [n >= 0]: digits are produced from
    the last one, at most one per bit of [n]. *)
Fixpoint hexDigits (fuel : nat) (n : Z) (acc : string) : string :=
  match fuel with
  | O => acc
  | S fuel =>
      let acc := String (hexDigit (n mod 16)) acc in
      if (n <? 16)%Z then acc else hexDigits fuel (n / 16) acc
  end.

Definition toString16 (n : Z) : string :=
  hexDigits (S (Z.to_nat (Z.log2 n))) n "".

Definition hashString (input : string) : string :=
  toString16 (Z.abs (rounds 0 input)).

End Hash.

(** ** The editor panels *)

Module Editor.
Import Js.

(** [text.split(separator)] for a separator of one character: the
    first piece and the pieces after it. *)
Fixpoint pieces (separator : ascii) (text : string) : string * list string :=
  match text with
  | EmptyString => (EmptyString, [])
  | String c rest =>
      let '(piece, more) := pieces separator rest in
      if Ascii.eqb c separator then (EmptyString, piece :: more)
      else (String c piece, more)
  end.

Definition split (separator : ascii) (text : string) : list string :=
  let '(piece, more) := pieces separator text in piece :: more.

(** [items.join(separator)] on strings. *)
Fixpoint join (separator : string) (items : list string) : string :=
  match items with
  | [] => ""
  | [item] => item
  | item :: rest => item +:+ separator +:+ join separator rest
  end.

(** The tags field of the inspector. What it shows:
    [(node.tags ?? []).join(', ')], for the tags of a node ([None] when
    the node has none). *)
Definition tagsText (tags : option (list string)) : string :=
  join ", " (default [] tags).

(** What it stores when the text changes:
    [text.split(',').map((tag) => tag.trim()).filter(Boolean)]. *)
Definition tagsOfText (text : string) : list string :=
  filter (fun tag => tag <> "") (map trim (split "," text)).

(** [nextWorld.nodes[0]?.id] in [handleImport]. *)
Definition firstRootId (world : value) : outcome typeError value :=
  obind (member world "nodes") (fun nodes =>
    let first :=
      match nodes with
      | VUndefined | VNull => Throws TypeError
      | VArray items => Returns (default VUndefined (head items))
      | VObject o => Returns (get "0" o)
      | VString EmptyString | VNumber _ | VBool _ => Returns VUndefined
      | VString (String c _) => Returns (VString (String c EmptyString))
      end in
    obind first (fun first =>
      match first with
      | VUndefined | VNull => Returns VUndefined
      | _ => member first "id"
      end)).

(** [{ ...v }] in an object literal: the own enumerable properties of
    [v], none for [undefined], [null], a number or a boolean, the
    indexed elements of an array or a string. *)
Definition spread (v : value) : props :=
  match v with
  | VObject o => o
  | VArray items => imap (fun index item => (pretty index, item)) items
  | VString s =>
      imap (fun index c => (pretty index, VString (String c EmptyString)))
        (list_ascii_of_string s)
  | _ => []
  end.

(** [v?.key] for a key no primitive or array carries. *)
Definition optionalMember (v : value) (key : string) : value :=
  match v with
  | VObject o => get key o
  | _ => VUndefined
  end.

(** [a ?? b] *)
Definition orElse (a b : value) : value :=
  match a with
  | VUndefined | VNull => b
  | _ => a
  end.

(** The updater of a vector field of the inspector, for the field
    [field] of the transform with the default [fallback]:
    [(current) => ({ ...current, transform: { ...current.transform,
       [field]: { ...(current.transform?.[field] ?? fallback), [axis]: value } } })]. *)
Definition setAxis (field : string) (fallback : value) (axis : string) (value : float)
    (current : props) : props :=
  let transform := get "transform" current in
  let vector := orElse (optionalMember transform field) fallback in
  spreadWith "transform"
    (VObject (spreadWith field
                (VObject (spreadWith axis (VNumber value) (spread vector)))
                (spread transform)))
    current.

Definition vector3 (x y z : float) : value :=
  VObject [("x", VNumber x); ("y", VNumber y); ("z", VNumber z)].

Definition quaternion (x y z w : float) : value :=
  VObject [("x", VNumber x); ("y", VNumber y); ("z", VNumber z); ("w", VNumber w)].

(** The three vector fields: position, rotation, scale. *)
Definition setPosition : string -> float -> props -> props :=
  setAxis "position" (vector3 0 0 0).

Definition setRotation : string -> float -> props -> props :=
  setAxis "rotation" (quaternion 0 0 0 1).

Definition setScale : string -> float -> props -> props :=
  setAxis "scale" (vector3 1 1 1).

(** [Number(event.target.value) || 0], for the number [n] the text of
    the input converts to. *)
Definition axisValue (n : float) : float :=
  if truthy (VNumber n) then n else PrimFloat.zero.

(** [updateNodeById(nodes, id, updater)] on plain values, for an
    updater that builds a new object at every call, as each updater of
    the inspector does ([(current) => ({ ...current, ... })]). With
    such an updater [nextNode !== node] holds at every node that has
    the id, and [node.children !== children] holds exactly when the
    call on the children reported a change, the array that [map]
    returned then standing in for them. *)
Section UpdateNode.

Variable id : string.
Variable updater : props -> props.

(** [nodes.map(callback)], the callback also reporting whether it set
    [changed]. *)
Definition mapItems (callback : value -> outcome typeError (value * bool))
  : list value -> outcome typeError (list value * bool) :=
  fix loop (items : list value) : outcome typeError (list value * bool) :=
    match items with
    | [] => Returns ([], false)
    | item :: rest =>
        obind (callback item) (fun '(item', c1) =>
          obind (loop rest) (fun '(rest', c2) =>
            Returns (item' :: rest', c1 || c2)))
    end.

(** [if (node.children !== children || nextNode !== node)
       nextNode = { ...nextNode, children }], for a node [o] that is an
    object: [hit] is [node.id === id], [moved] is
    [node.children !== children]. *)
Definition rebuilt (o : props) (hit moved : bool) (children : value) : value * bool :=
  let nextNode := if hit then updater o else o in
  (if moved || hit then VObject (spreadWith "children" children nextNode) else VObject o,
   hit || moved).

(** The callback of [nodes.map]. Reading [id] off [null] or
    [undefined] throws; a primitive or an array has neither [id] nor
    [children]; [children] that is truthy and no array has no [map] to
    call. *)
Fixpoint visit (node : value) : outcome typeError (value * bool) :=
  match node with
  | VUndefined | VNull => Throws TypeError
  | VObject o =>
      let hit := strictEqualsString (get "id" o) id in
      withOwn "children" (Returns (rebuilt o hit false VUndefined))
        (fun children =>
           match children with
           | VArray items =>
               obind (mapItems visit items) (fun '(mapped, childChanged) =>
                 Returns (rebuilt o hit childChanged
                            (if childChanged then VArray mapped else children)))
           | _ =>
               if truthy children then Throws TypeError
               else Returns (rebuilt o hit false children)
           end) o
  | _ => Returns (node, false)
  end.

(** [return { nodes: changed ? mapped : nodes, changed }] *)
Definition updateNodeById (nodes : value) : outcome typeError (value * bool) :=
  match nodes with
  | VArray items =>
      obind (mapItems visit items) (fun '(mapped, changed) =>
        Returns (if changed then VArray mapped else nodes, changed))
  | _ => Throws TypeError
  end.

(** [updateNode(id, updater)] of the editor, as far as the document
    goes: [const { nodes, changed } = updateNodeById(current.nodes, id,
    updater); if (!changed) return current; return { ...current, nodes }]. *)
Definition updateNode (current : props) : outcome typeError props :=
  obind (updateNodeById (get "nodes" current)) (fun '(nodes, changed) =>
    Returns (if changed then spreadWith "nodes" nodes current else current)).

End UpdateNode.

(** [handleKeyboardFocus(direction)] of the hierarchy panel, as far as
    the selection goes. [orderedIds] is [flattenNodeIds(nodes)]; the
    panel's [onFocusRequest] is the editor's [handleFocusRequest], which
    calls [selection.focus(id)]. *)
Definition handleKeyboardFocus (nodes : TreeIndex.nodes) (direction : Z)
    (selection : Selection.manager) : Selection.manager :=
  let orderedIds := map Some (TreeIndex.flattenNodeIds nodes) in
  let selection := Selection.focusNext orderedIds direction selection in
  let focused := Selection.getFocused selection in
  if Selection.truthy focused then Selection.focus focused selection else selection.

End Editor.

(** * Vocabulary of the statements *)

(** ** Terms for strings *)

Module StringTerms.
Import Js.

(** The character occurs in the string. *)
Fixpoint contains (c : ascii) (s : string) : bool :=
  match s with
  | EmptyString => false
  | String a rest => Ascii.eqb a c || contains c rest
  end.

(** The string does not begin with white space. *)
Definition startsClean (s : string) : bool :=
  match s with
  | EmptyString => true
  | String c _ => negb (isWhiteSpace c)
  end.

End StringTerms.

(** ** Terms for the Validator: the traversal as a list, readable
    asset lists, sample documents *)

Module ValidatorTerms.
Import Js Validator.

(** [check item index] for every item, results appended: the pure
    counterpart of [forEachIndexed]. *)
Definition flatMapIndexed {A : Type} (f : value -> nat -> list A)
  : list value -> nat -> list A :=
  fix loop (items : list value) (index : nat) : list A :=
    match items with
    | [] => []
    | item :: rest => f item index ++ loop rest (S index)
    end.

(** The values [validateSceneNode] is called on during the descent
    from one node, each with its path: pre-order, depth first, children
    left to right. *)
Fixpoint reached (node : value) (p : path) : list (path * value) :=
  (p, node) ::
  match node with
  | VObject o =>
      withOwn "children" []
        (fun children =>
           match children with
           | VArray items =>
               flatMapIndexed (fun child index =>
                 reached child (p /> Field "children" /> Index index)) items 0
           | _ => []
           end) o
  | _ => []
  end.

(** The roots left to right, each followed by its descendants. *)
Definition reachedForest (roots : list value) : list (path * value) :=
  flatMapIndexed (fun node index => reached node [Name "nodes"; Index index]) roots 0.

(** The checks one call of [validateSceneNode] makes itself, its
    descent into the children aside. *)
Definition ownErrors (assets : option (list value)) (p : path) (node : value)
    (seenIds : gset string) : outcome typeError (list error * gset string) :=
  match node with
  | VObject o =>
      let '(idErrors, seenIds) := checkId o p seenIds in
      obind
        (match own "asset" o with
         | Some v => validateNodeAssetReference v (p /> Field "asset") assets
         | None => Returns []
         end)
        (fun assetErrors =>
           Returns
             (idErrors
              ++ whenPresent "name" o (fun v =>
                   if isString v then []
                   else [Error (p /> Field "name") NotStringWhenPresent])
              ++ whenPresent "tags" o (fun v => validateTags v (p /> Field "tags"))
              ++ whenPresent "transform" o (fun v =>
                   validateTransform v (p /> Field "transform"))
              ++ whenPresent "components" o (fun v =>
                   validateComponents v (p /> Field "components"))
              ++ assetErrors
              ++ match own "children" o with
                 | Some (VArray _) | None => []
                 | Some _ => [Error (p /> Field "children") NotArrayWhenPresent]
                 end,
              seenIds))
  | _ => Returns ([Error p NotObject], seenIds)
  end.

(** The reached values checked one after the other, the set of seen
    ids handed on. *)
Fixpoint scan (assets : option (list value)) (l : list (path * value))
    (seenIds : gset string) : outcome typeError (list error * gset string) :=
  match l with
  | [] => Returns ([], seenIds)
  | (p, node) :: rest =>
      obind (ownErrors assets p node seenIds) (fun '(errors, seen1) =>
        obind (scan assets rest seen1) (fun '(more, seen2) =>
          Returns (errors ++ more, seen2)))
  end.

(** An entry of the [assets] array that a property can be read off:
    anything but [null] and [undefined]. *)
Definition notNullish (v : value) : bool :=
  match v with VUndefined | VNull => false | _ => true end.

(** [context.assets] holds no [null] and no [undefined]. *)
Definition readable (assets : option (list value)) : bool :=
  forallb notNullish (default [] assets).

(** Some entry [e] of the array has [e.id === assetId]. *)
Definition knownAsset (assets : list value) (assetId : string) : bool :=
  existsb (fun e => match e with
                    | VObject o => strictEqualsString (get "id" o) assetId
                    | _ => false
                    end) assets.

(** The id a reached value contributes to the set of seen ids. *)
Definition idOf (node : value) : option string :=
  match node with
  | VObject o => nonEmptyString (get "id" o)
  | _ => None
  end.

Definition idsOf (l : list (path * value)) : list string :=
  omap (fun entry => idOf (snd entry)) l.

(** Classes of characters in a rendered path. *)
Definition isLetter (c : ascii) : bool :=
  let n := nat_of_ascii c in
  ((97 <=? n)%nat && (n <=? 122)%nat) || ((65 <=? n)%nat && (n <=? 90)%nat).

Definition isDigit (c : ascii) : bool :=
  let n := nat_of_ascii c in (48 <=? n)%nat && (n <=? 57)%nat.

Definition notSpace (c : ascii) : bool := negb (nat_of_ascii c =? 32)%nat.

Fixpoint allChars (P : ascii -> bool) (s : string) : bool :=
  match s with
  | EmptyString => true
  | String c rest => P c && allChars P rest
  end.

(** The string is empty or starts with a character outside the class. *)
Definition stopsAt (P : ascii -> bool) (s : string) : bool :=
  match s with
  | EmptyString => true
  | String c _ => negb (P c)
  end.

(** A property name as the validator writes it into a path. *)
Definition wordOk (n : string) : bool := allChars isLetter n.

Definition tailOk (seg : segment) : bool :=
  match seg with
  | Name _ => false
  | Field n => wordOk n
  | Index _ => true
  end.

(** The paths of the validator: a name, then fields and indices. *)
Definition pathOk (p : path) : bool :=
  match p with
  | Name n :: rest => wordOk n && forallb tailOk rest
  | _ => false
  end.

(** Every error of the list is located on a path of the validator. *)
Abbreviation located := (Forall (fun e => pathOk (location e) = true)).

Ltac located_with extension Hp :=
  repeat first
    [ apply Forall_nil_2
    | apply Forall_cons_2;
      [ cbn [location]; repeat (apply extension; [ | reflexivity ]); exact Hp | ]
    | apply Forall_app_2
    | match goal with
      | |- located (if ?b then _ else _) => destruct b
      | |- located (match ?x with _ => _ end) => destruct x
      end ].

Definition isUniqueness (e : error) : bool :=
  match what e with NotUnique _ => true | _ => false end.

(** No error of the list is a uniqueness error. *)
Abbreviation otherErrors := (Forall (fun e => isUniqueness e = false)).

Ltac other_errors :=
  repeat first
    [ apply Forall_nil_2
    | apply Forall_cons_2; [ reflexivity | ]
    | apply Forall_app_2
    | match goal with
      | |- otherErrors (if ?b then _ else _) => destruct b
      | |- otherErrors (match ?x with _ => _ end) => destruct x
      end ].

(** [assetList], as [validateWorldDocument] hands it to the nodes. *)
Definition worldAssets (w : props) : option (list value) :=
  assetList (validateAssets (get "assets" w) [Name "assets"]).

(** [{ nodes: [{ id: "a", children: [{ id: "x" }] },
               { id: "b", children: [{ id: "x" }] }] }]:
    the id ["x"] twice, in unrelated branches. *)
Definition cousins : props :=
  [("nodes", VArray
     [VObject [("id", VString "a"); ("children", VArray [VObject [("id", VString "x")]])];
      VObject [("id", VString "b"); ("children", VArray [VObject [("id", VString "x")]])]])].

(** [{ assets: [null], nodes: [{ id: "n", asset: { assetId: "a" } }] }] *)
Definition nullAssetWorld : value :=
  VObject [("assets", VArray [VNull]);
           ("nodes", VArray [VObject [("id", VString "n");
                                      ("asset", VObject [("assetId", VString "a")])]])].

(** [{ assets: [null], nodes: [{ id: "x" },
                                  { id: "x", asset: { assetId: "a" } }] }]:
    the id ["x"] twice, and an asset list that cannot be searched. *)
Definition twinsNullAssetWorld : value :=
  VObject [("assets", VArray [VNull]);
           ("nodes", VArray [VObject [("id", VString "x")];
                             VObject [("id", VString "x");
                                      ("asset", VObject [("assetId", VString "a")])]])].

(** The same nodes beside an empty asset list. *)
Definition twinsWorld : value :=
  VObject [("assets", VArray []);
           ("nodes", VArray [VObject [("id", VString "x")];
                             VObject [("id", VString "x");
                                      ("asset", VObject [("assetId", VString "a")])]])].

(** [{ assets: [{ id: "hero-tree", uri: "" }, null],
       nodes: [{ id: "n", asset: { assetId: "missing" } }] }] *)
Definition partialAssetsWorld : value :=
  VObject [("assets", VArray [VObject [("id", VString "hero-tree"); ("uri", VString "")];
                              VNull]);
           ("nodes", VArray [VObject [("id", VString "n");
                                      ("asset", VObject [("assetId", VString "missing")])]])].

(** [{ assets: [{ id: "hero-tree" }, 7],
       nodes: [{ id: "n", asset: { assetId: "missing" } }] }] *)
Definition brokenAssets : props :=
  [("assets", VArray [VObject [("id", VString "hero-tree")]; VNumber 7%float]);
   ("nodes", VArray [VObject [("id", VString "n");
                              ("asset", VObject [("assetId", VString "missing")])]])].

(** A well-formed asset reference to an entry of the asset list. *)
Definition resolves (assets : option (list value)) (assetRef : value) : Prop :=
  exists ref assetId,
    assetRef = VObject ref /\
    nonEmptyString (get "assetId" ref) = Some assetId /\
    knownAsset (default [] assets) assetId = true.

(** A well-formed entry of the asset list: a record with an id and a
    uri. *)
Definition assetEntry (asset : value) : Prop :=
  exists o id uri,
    asset = VObject o /\
    nonEmptyString (get "id" o) = Some id /\
    nonEmptyString (get "uri" o) = Some uri.

(** The properties [validateSceneNode] reads off a node. *)
Definition nodeFields : list string :=
  ["id"; "name"; "tags"; "transform"; "components"; "asset"; "children"].

End ValidatorTerms.

(** ** Terms for the Serializer: plain JSON data, what a value reads
    back as, the round trip, sample texts *)

Module SerializerTerms.
Import Js Validator Serializer.

Definition isNegativeZero (n : float) : bool :=
  match PrimFloat.classify n with NZero => true | _ => false end.

(** Plain JSON data: no [undefined], every number finite and not [-0],
    and (as in every object of the language) no key twice. *)
Fixpoint jsonData (v : value) : bool :=
  match v with
  | VUndefined => false
  | VNull | VBool _ | VString _ => true
  | VNumber n => PrimFloat.is_finite n && negb (isNegativeZero n)
  | VArray items => forallb jsonData items
  | VObject o =>
      bool_decide (NoDup (map fst o)) && forallb (fun kv => jsonData (snd kv)) o
  end.

Definition define (o : props) (kv : string * json) : props :=
  spreadWith (fst kv) (fromJson (snd kv)) o.

(** What [deserializeWorld] compares with the current version: the
    [version] of the parsed object, or 0 when it has none. *)
Definition parsedVersion (o : props) : value :=
  match get "version" o with
  | VUndefined => VNumber PrimFloat.zero
  | version => version
  end.

(** [deserializeWorld(serializeWorld(doc))] *)
Definition roundTrip (toNumber : value -> outcome typeError float) (doc : value)
  : outcome exn value :=
  obind (serializeWorld doc) (deserializeWorld toNumber).

(** A stand-in for ToNumber in closed examples, where every version is
    a number and the conversion is never called. *)
Definition notANumber (v : value) : outcome typeError float := Returns PrimFloat.nan.

(** [{ "version": 999, "assets": [null],
       "nodes": [{ "id": "n", "asset": { "assetId": "a" } }] }]:
    a body on which the validator itself would throw. *)
Definition futureText : list (string * json) :=
  [("version", JNumber 999%float);
   ("assets", JArray [JNull]);
   ("nodes", JArray [JObject [("id", JString "n");
                              ("asset", JObject [("assetId", JString "a")])]])].

Definition xyz (x y z : float) : value :=
  VObject [("x", VNumber x); ("y", VNumber y); ("z", VNumber z)].

(** [DEFAULT_WORLD], the built-in document. [intensity] is the double
    nearest to 1.2. *)
Definition DEFAULT_WORLD : value :=
  VObject
    [("version", VNumber 1%float);
     ("metadata", VObject
        [("title", VString "Demo Park");
         ("author", VString "World Engine");
         ("description", VString "Sample scene showcasing the authoring pipeline.")]);
     ("assets", VArray
        [VObject [("id", VString "hero-tree"); ("uri", VString "/assets/tree.gltf");
                  ("type", VString "gltf"); ("meta", VObject [("variant", VString "pine")])];
         VObject [("id", VString "campfire-audio"); ("uri", VString "/assets/campfire.ogg");
                  ("type", VString "audio")]]);
     ("nodes", VArray
        [VObject
           [("id", VString "root"); ("name", VString "World root");
            ("tags", VArray [VString "scene"]);
            ("children", VArray
               [VObject
                  [("id", VString "camp"); ("name", VString "Camp clearing");
                   ("transform", VObject [("position", xyz 2%float 0%float (-3)%float)]);
                   ("components", VArray
                      [VObject [("type", VString "light");
                                ("data", VObject
                                   [("intensity", VNumber 0x1.3333333333333p+0%float)])]]);
                   ("children", VArray
                      [VObject [("id", VString "fire"); ("name", VString "Campfire");
                                ("asset", VObject [("assetId", VString "campfire-audio")]);
                                ("components", VArray
                                   [VObject [("type", VString "emitter");
                                             ("data", VObject
                                                [("rate", VNumber 32%float)])]])]])];
                VObject
                  [("id", VString "trees"); ("name", VString "Tree cluster");
                   ("tags", VArray [VString "foliage"]);
                   ("children", VArray
                      [VObject [("id", VString "tree-1"); ("name", VString "Tree A");
                                ("asset", VObject [("assetId", VString "hero-tree")]);
                                ("transform",
                                 VObject [("position", xyz (-4)%float 0%float 2%float)])];
                       VObject [("id", VString "tree-2"); ("name", VString "Tree B");
                                ("asset", VObject [("assetId", VString "hero-tree")]);
                                ("transform",
                                 VObject [("position", xyz (-6)%float 0%float 4%float)])]])]])]])].

(** No object has a key twice, at any depth: so it is in every object
    of the language. *)
Fixpoint distinctKeys (v : value) : bool :=
  match v with
  | VArray items => forallb distinctKeys items
  | VObject o =>
      bool_decide (NoDup (map fst o)) && forallb (fun kv => distinctKeys (snd kv)) o
  | _ => true
  end.

(** What a value reads back as after it was written as JSON: a
    property that holds [undefined] is gone, an array element that
    holds it is [null], a number that is not finite is [null], [-0] is
    [0]. *)
Fixpoint readBack (v : value) : value :=
  match v with
  | VUndefined | VNull => VNull
  | VBool b => VBool b
  | VNumber n =>
      if PrimFloat.is_finite n
      then VNumber (if PrimFloat.is_zero n then PrimFloat.zero else n)
      else VNull
  | VString s => VString s
  | VArray items => VArray (map readBack items)
  | VObject o =>
      VObject (flat_map (fun kv =>
        match snd kv with
        | VUndefined => []
        | _ => [(fst kv, readBack (snd kv))]
        end) o)
  end.

(** The properties of an object read back. *)
Definition readBackProps (o : props) : props :=
  flat_map (fun kv =>
    match snd kv with
    | VUndefined => []
    | _ => [(fst kv, readBack (snd kv))]
    end) o.

(** An asset list whose entries are objects with distinct keys. *)
Definition records (assets : list value) : Prop :=
  Forall (fun e => isObject e = true /\ distinctKeys e = true) assets.

(** A reached entry, read back. *)
Definition readBackEntry (entry : path * value) : path * value :=
  (fst entry, readBack (snd entry)).

(** A valid document that is not plain JSON data: a number that is
    not one in its metadata, an asset type left [undefined]. *)
Definition looseWorld : value :=
  VObject
    [("metadata", VObject [("seed", VNumber PrimFloat.nan)]);
     ("assets", VArray [VObject [("id", VString "a"); ("uri", VString "/a.gltf");
                                 ("type", VUndefined)]]);
     ("nodes", VArray [VObject [("id", VString "n");
                                ("asset", VObject [("assetId", VString "a")])]])].

End SerializerTerms.

(** ** Terms for the Tree Index: positions, references in use, the
    nodes in pre-order, a sample forest *)

Module TreeIndexTerms.
Import TreeIndex.

(** The node at a position of the forest: [[i; j]] is the [j]-th child
    of the [i]-th root. *)
Fixpoint subtreeAt (items : list node) (position : list nat) : option node :=
  match position with
  | [] => None
  | i :: deeper =>
      match items !! i with
      | Some n =>
          match deeper, children n with
          | [], _ => Some n
          | _, Some (_, kids) => subtreeAt kids deeper
          | _, None => None
          end
      | None => None
      end
  end.

(** Every [children] array inside the node has a reference below
    [bound]: the references not yet handed out start at [bound] or later. *)
Fixpoint arraysBelow (bound : ref) (n : node) : bool :=
  match n with
  | Node _ _ _ (Some (a, items)) => (a <? bound)%nat && forallb (arraysBelow bound) items
  | Node _ _ _ None => true
  end.

(** What the updater makes of a node: the node itself unless its id
    is the target. *)
Definition nextNode (target : string) (updater : node -> option node) (n : node) : node :=
  if String.eqb (id n) target then orNode (updater n) n else n.

(** The result of a call, as the source names its two fields. *)
Definition nodesOf (r : (nodes * bool) * ref) : nodes := fst (fst r).
Definition changedOf (r : (nodes * bool) * ref) : bool := snd (fst r).

(** The node forest of the built-in default world, each node with its
    id and name, the objects numbered in the order the literal creates
    them. *)
Definition demoForest : nodes :=
  (8, [Node 7 "root" [("name", Js.VString "World root")]
         (Some (6, [Node 1 "camp" [("name", Js.VString "Camp clearing")]
                      (Some (0, [Node 0 "fire" [("name", Js.VString "Campfire")] None]));
                    Node 5 "trees" [("name", Js.VString "Tree cluster")]
                      (Some (4, [Node 2 "tree-1" [("name", Js.VString "Tree A")] None;
                                 Node 3 "tree-2" [("name", Js.VString "Tree B")] None]))]))]).

(** An updater that renames, and tries to give the node children. *)
Definition rename (n : node) : option node :=
  Some (Node 100 (id n) [("name", Js.VString "Oak")] (Some (101, [n]))).

(** The nodes of a subtree in pre-order, depth first. *)
Fixpoint preorder (n : node) : list node :=
  match n with
  | Node _ _ _ (Some (_, items)) => n :: flat_map preorder items
  | Node _ _ _ None => [n]
  end.

(** The nodes of a forest in pre-order. *)
Definition allNodes (items : list node) : list node := flat_map preorder items.

Definition hasId (target : string) (n : node) : bool := String.eqb (id n) target.

(** A node of the result stands for a node of the input: it has the id
    and the other properties of what the updater made of it. *)
Definition imageOf (target : string) (updater : node -> option node) (n n' : node) : Prop :=
  id n' = id (nextNode target updater n) /\ others n' = others (nextNode target updater n).

(** The node has the target id and the updater returned another object
    for it. *)
Definition replaced (target : string) (updater : node -> option node) (n : node) : bool :=
  String.eqb (id n) target && differentNode (nextNode target updater n) n.

(** An updater that sets the name, as the inspector's name field does:
    [{ ...current, name: 'Oak' }], in a new object. *)
Definition nameOak (n : node) : option node :=
  Some (Node 200 (id n) (Js.spreadWith "name" (Js.VString "Oak") (others n)) (children n)).

End TreeIndexTerms.

(** ** Terms for the Mode State Machine: what the log tells, sample
    options *)

Module ModeTerms.
Import Mode.

(** A call of a hook of a context, or of a subscriber. *)
Definition firesHookOrListener (e : event) : bool :=
  match e with
  | Activated _ | Deactivated _ | Disposed _ | Notified _ _ => true
  | Created _ | AutoSaved | Asked _ _ => false
  end.

Definition plainContext (mode : string) : context := Context 0 true true true.

Definition confirmNever : options :=
  Options plainContext None false (Some (fun _ _ => false)).

(** The modes the context factory was called for, in call order. *)
Definition createdModes (events : list event) : list string :=
  omap (fun e => match e with Created k => Some k | _ => None end) events.

(** The modes a listener was called with, in call order. *)
Definition heardBy (listener : nat) (events : list event) : list string :=
  omap (fun e => match e with
                 | Notified l k => if (l =? listener)%nat then Some k else None
                 | _ => None
                 end) events.

(** A run of [switchMode] calls, each awaited before the next. *)
Definition switches (targets : list string) (m : manager) : manager :=
  foldl (fun m target => snd (switchMode target m)) m targets.

(** Every context came from one call of the factory, and no mode has
    two. *)
Definition createdOnce (m : manager) : Prop :=
  createdModes (log m) = map fst (contexts m) /\ NoDup (map fst (contexts m)).

(** A context with all three hooks, tagged by its mode. *)
Definition taggedContext (mode : string) : context :=
  Context (String.length mode) true true true.

(** Autosave and a confirm policy that refuses. *)
Definition autoSaving : options :=
  Options taggedContext None true (Some (fun _ _ => false)).

End ModeTerms.

(** ** Terms for the export hash: the polynomial, hexadecimal
    numerals *)

Module HashTerms.
Import Hash.

Local Open Scope Z_scope.

(** Horner's rule with multiplier 31 over the character codes, in
    unbounded integers. *)
Fixpoint polynomial (acc : Z) (input : string) : Z :=
  match input with
  | EmptyString => acc
  | String c rest => polynomial (31 * acc + charCode c) rest
  end.

(** [0-9a-f] *)
Definition isHexDigit (c : ascii) : bool :=
  let n := nat_of_ascii c in
  ((48 <=? n)%nat && (n <=? 57)%nat) || ((97 <=? n)%nat && (n <=? 102)%nat).

Definition digitValue (c : ascii) : Z :=
  let n := Z.of_nat (nat_of_ascii c) in
  if n <=? 57 then n - 48 else n - 87.

(** The number a string of hexadecimal digits spells, after [acc]. *)
Fixpoint hexValue (acc : Z) (digits : string) : Z :=
  match digits with
  | EmptyString => acc
  | String c rest => hexValue (16 * acc + digitValue c) rest
  end.

Fixpoint allHex (s : string) : bool :=
  match s with
  | EmptyString => true
  | String c rest => isHexDigit c && allHex rest
  end.

End HashTerms.

(** ** Terms for the editor panels: clean tags, the vector fields, what
    an edit stores *)

Module EditorTerms.
Import Js Validator Serializer Editor StringTerms ValidatorTerms SerializerTerms.

(** A tag as the inspector stores it: not empty, nothing to trim, no
    comma. *)
Definition cleanTag (tag : string) : Prop :=
  tag <> "" /\ trim tag = tag /\ contains "," tag = false.

(** The three vector fields of the inspector: the field, its default,
    its axes. *)
Definition vectorField (field : string) (fallback : value) (axes : list string) : Prop :=
  (field = "position" /\ fallback = vector3 0 0 0 /\ axes = ["x"; "y"; "z"]) \/
  (field = "rotation" /\ fallback = quaternion 0 0 0 1 /\ axes = ["x"; "y"; "z"; "w"]) \/
  (field = "scale" /\ fallback = vector3 1 1 1 /\ axes = ["x"; "y"; "z"]).

(** What validates a vector of the transform. *)
Definition validateField (field : string) (v : value) (p : path) : list error :=
  if String.eqb field "rotation" then validateQuaternion v p else validateVector3 v p.

(** A node that has the id and no [children] property. *)
Definition bareTarget (id : string) (v : value) : bool :=
  match v with
  | VObject o =>
      strictEqualsString (get "id" o) id
      && match own "children" o with None => true | Some _ => false end
  | _ => false
  end.

(** The error each such node of a traversal gets once it is stored. *)
Definition leafErrors (id : string) (l : list (path * value)) : list error :=
  flat_map (fun entry =>
    if bareTarget id (snd entry)
    then [Error (fst entry /> Field "children") NotArrayWhenPresent] else []) l.

(** The node stored for a node of the document, at the same path: the
    updater's result where the node has the id, the node elsewhere,
    [children] aside; a node without [children] is stored with
    [children: undefined] where it has the id and without [children]
    elsewhere. *)
Definition storedAs (id : string) (updater : props -> props) (e e' : path * value) : Prop :=
  fst e' = fst e /\
  exists o o',
    snd e = VObject o /\ snd e' = VObject o' /\
    let hit := strictEqualsString (get "id" o) id in
    (forall key, key <> "children" -> own key o' = own key (if hit then updater o else o)) /\
    (own "children" o = None -> own "children" o' = if hit then Some VUndefined else None).

(** What holds of a node that validates, at any path: the update
    returns; a node that is reported unchanged is the node itself; the
    stored node validates up to the errors of its bare targets; and the
    stored traversal is the traversal, node by node. *)
Definition storesWell (id : string) (updater : props -> props)
    (assets : option (list value)) (node : value) : Prop :=
  forall p seen seen1,
    scan assets (reached node p) seen = Returns ([], seen1) ->
    exists node' changed,
      visit id updater node = Returns (node', changed) /\
      (changed = false -> node' = node) /\
      scan assets (reached node' p) seen = Returns (leafErrors id (reached node p), seen1) /\
      Forall2 (storedAs id updater) (reached node p) (reached node' p).

(** The properties of the built-in document. *)
Definition defaultWorld : props :=
  match DEFAULT_WORLD with
  | VObject w => w
  | _ => []
  end.

End EditorTerms.

(** * Properties *)

(** ** JavaScript objects *)

Module JsFacts.
Import Js.

(** The nested induction principle: a property of every element of an
    array, and of every property value of an object, is available. *)
Lemma value_induction (P : value -> Prop) :
  P VUndefined -> P VNull -> (forall b, P (VBool b)) ->
  (forall n, P (VNumber n)) -> (forall s, P (VString s)) ->
  (forall items, Forall P items -> P (VArray items)) ->
  (forall o, Forall (fun kv => P (snd kv)) o -> P (VObject o)) ->
  forall v, P v.
Proof.
  intros Hu Hn Hb Hnum Hs Ha Ho.
  fix IH 1. intros [ | | b | n | s | items | o ].
  - exact Hu.
  - exact Hn.
  - apply Hb.
  - apply Hnum.
  - apply Hs.
  - apply Ha. induction items as [ | x xs IHxs ]; constructor; [ apply IH | exact IHxs ].
  - apply Ho. induction o as [ | [k x] xs IHxs ]; constructor; [ apply IH | exact IHxs ].
Qed.

Lemma withOwn_own {B} key (absent : B) present o :
  withOwn key absent present o =
  match own key o with Some v => present v | None => absent end.
Proof.
  induction o as [ | [k v] rest IH ]; simpl; [ reflexivity | ].
  destruct (String.eqb k key); [ reflexivity | exact IH ].
Qed.

Lemma own_spreadWith_same key v o : own key (spreadWith key v o) = Some v.
Proof.
  induction o as [ | [k x] rest IH ]; simpl.
  - rewrite String.eqb_refl. reflexivity.
  - destruct (String.eqb k key) eqn:Hk; simpl; rewrite Hk; [ reflexivity | exact IH ].
Qed.

Lemma own_spreadWith_other key v o k' :
  k' <> key -> own k' (spreadWith key v o) = own k' o.
Proof.
  intros Hne. induction o as [ | [k x] rest IH ]; simpl.
  - destruct (String.eqb_spec key k'); [ congruence | reflexivity ].
  - destruct (String.eqb_spec k key) as [ -> | Hk ]; simpl.
    + destruct (String.eqb_spec key k'); [ congruence | reflexivity ].
    + destruct (String.eqb k k'); [ reflexivity | exact IH ].
Qed.

Lemma get_spreadWith_other key v o k' :
  k' <> key -> get k' (spreadWith key v o) = get k' o.
Proof. intros Hne. unfold get. rewrite own_spreadWith_other by exact Hne. reflexivity. Qed.

Lemma spreadWith_twice key v w o :
  spreadWith key v (spreadWith key w o) = spreadWith key v o.
Proof.
  induction o as [ | [k x] rest IH ]; simpl.
  - rewrite String.eqb_refl. reflexivity.
  - destruct (String.eqb k key) eqn:Hk; simpl; rewrite Hk; [ reflexivity | ].
    rewrite IH. reflexivity.
Qed.

Lemma spreadWith_fresh key v o :
  key ∉ map fst o -> spreadWith key v o = o ++ [(key, v)].
Proof.
  induction o as [ | [k x] rest IH ]; simpl; intros Hnot; [ reflexivity | ].
  apply not_elem_of_cons in Hnot as [Hk Hrest].
  destruct (String.eqb_spec k key); [ congruence | ].
  rewrite IH by exact Hrest. reflexivity.
Qed.

Lemma keys_spreadWith key v o :
  map fst (spreadWith key v o) =
  if bool_decide (key ∈ map fst o) then map fst o else map fst o ++ [key].
Proof.
  induction o as [ | [k x] rest IH ]; simpl; [ reflexivity | ].
  destruct (String.eqb_spec k key) as [ -> | Hk ]; simpl.
  - rewrite bool_decide_eq_true_2 by apply list_elem_of_here. reflexivity.
  - rewrite IH. destruct (bool_decide (key ∈ map fst rest)) eqn:Hin.
    + apply bool_decide_eq_true_1 in Hin.
      rewrite bool_decide_eq_true_2 by (apply list_elem_of_further; exact Hin). reflexivity.
    + apply bool_decide_eq_false_1 in Hin.
      rewrite bool_decide_eq_false_2; [ reflexivity | ].
      rewrite not_elem_of_cons. split; [ congruence | exact Hin ].
Qed.

End JsFacts.

(** ** Strings *)

Module StringFacts.
Import Js StringTerms.

Lemma append_cons c (s t : string) : String c s +:+ t = String c (s +:+ t).
Proof. reflexivity. Qed.

Lemma append_nil_l (t : string) : "" +:+ t = t.
Proof. reflexivity. Qed.

Lemma append_nil_r (s : string) : s +:+ "" = s.
Proof. induction s as [ | c s IH ]; [ reflexivity | rewrite append_cons, IH; reflexivity ]. Qed.

Lemma append_assoc (s1 s2 s3 : string) : (s1 +:+ s2) +:+ s3 = s1 +:+ (s2 +:+ s3).
Proof.
  induction s1 as [ | c s1 IH ]; [ reflexivity | ].
  rewrite !append_cons, IH. reflexivity.
Qed.

Lemma append_snoc (s : string) c (t : string) : (s +:+ String c "") +:+ t = s +:+ String c t.
Proof. rewrite append_assoc. reflexivity. Qed.

Lemma length_append (s t : string) :
  String.length (s +:+ t) = String.length s + String.length t.
Proof.
  induction s as [ | c s IH ]; [ reflexivity | ].
  rewrite append_cons. cbn [String.length]. rewrite IH. reflexivity.
Qed.

Lemma contains_append c (s t : string) :
  contains c (s +:+ t) = contains c s || contains c t.
Proof.
  induction s as [ | a s IH ]; [ reflexivity | ].
  rewrite append_cons. cbn [contains]. rewrite IH, orb_assoc. reflexivity.
Qed.

Lemma rev_app_append (s1 : string) : forall s2, String.rev_app s1 s2 = String.rev s1 +:+ s2.
Proof.
  unfold String.rev. induction s1 as [ | a s1 IH ]; intros s2; [ reflexivity | ].
  cbn [String.rev_app]. rewrite (IH (String a s2)), (IH (String a "")), append_snoc.
  reflexivity.
Qed.

Lemma rev_cons a (s : string) : String.rev (String a s) = String.rev s +:+ String a "".
Proof. unfold String.rev at 1. cbn [String.rev_app]. apply rev_app_append. Qed.

Lemma rev_append (s1 s2 : string) : String.rev (s1 +:+ s2) = String.rev s2 +:+ String.rev s1.
Proof.
  induction s1 as [ | a s1 IH ].
  - rewrite append_nil_l. change (String.rev "") with "". rewrite append_nil_r. reflexivity.
  - rewrite append_cons, !rev_cons, IH, append_assoc. reflexivity.
Qed.

Lemma rev_involutive (s : string) : String.rev (String.rev s) = s.
Proof.
  induction s as [ | a s IH ]; [ reflexivity | ].
  rewrite rev_cons, rev_append, IH. reflexivity.
Qed.

Lemma rev_empty (s : string) : String.rev s = "" -> s = "".
Proof. intros H. rewrite <- (rev_involutive s), H. reflexivity. Qed.

Lemma contains_rev c (s : string) : contains c (String.rev s) = contains c s.
Proof.
  induction s as [ | a s IH ]; [ reflexivity | ].
  rewrite rev_cons, contains_append, IH. cbn [contains]. rewrite orb_false_r. apply orb_comm.
Qed.

(** [trimStart] drops a prefix of white space and stops at the first
    character that is none. *)
Lemma trimStart_spec s :
  exists spaces, s = spaces +:+ trimStart s /\ startsClean (trimStart s) = true.
Proof.
  induction s as [ | c s (spaces & Heq & Hclean) ]; [ exists ""; split; reflexivity | ].
  cbn [trimStart]. destruct (isWhiteSpace c) eqn:Hc.
  - exists (String c spaces). rewrite append_cons, <- Heq. split; [ reflexivity | exact Hclean ].
  - exists "". split; [ reflexivity | ]. cbn [startsClean]. rewrite Hc. reflexivity.
Qed.

Lemma trimStart_clean s : startsClean s = true -> trimStart s = s.
Proof.
  destruct s as [ | c s ]; [ reflexivity | ]. cbn [startsClean trimStart].
  destruct (isWhiteSpace c); [ discriminate | reflexivity ].
Qed.

Lemma startsClean_prefix (s t : string) :
  startsClean (s +:+ t) = true -> startsClean s = true.
Proof. destruct s as [ | c s ]; [ reflexivity | ]. rewrite append_cons. trivial. Qed.

Lemma contains_trimStart c s : contains c (trimStart s) = true -> contains c s = true.
Proof.
  destruct (trimStart_spec s) as (spaces & Heq & _). intros H.
  rewrite Heq, contains_append, H. apply orb_true_r.
Qed.

Lemma contains_trim c s : contains c (trim s) = true -> contains c s = true.
Proof.
  unfold trim. rewrite contains_rev. intros H.
  apply contains_trimStart in H. rewrite contains_rev in H.
  apply contains_trimStart. exact H.
Qed.

(** What [trim] returns begins and ends with a character that is not
    white space. *)
Lemma trim_clean s :
  startsClean (trim s) = true /\ startsClean (String.rev (trim s)) = true.
Proof.
  unfold trim.
  destruct (trimStart_spec s) as (spaces & _ & Hstart).
  destruct (trimStart_spec (String.rev (trimStart s))) as (spaces' & Heq & Hend).
  rewrite rev_involutive. split; [ | exact Hend ].
  apply (f_equal String.rev) in Heq. rewrite rev_involutive, rev_append in Heq.
  rewrite Heq in Hstart. exact (startsClean_prefix _ _ Hstart).
Qed.

Lemma trim_fixed s :
  startsClean s = true -> startsClean (String.rev s) = true -> trim s = s.
Proof.
  intros Hstart Hend. unfold trim.
  rewrite (trimStart_clean s Hstart), (trimStart_clean _ Hend). apply rev_involutive.
Qed.

Lemma trim_idempotent s : trim (trim s) = trim s.
Proof. destruct (trim_clean s) as [Hstart Hend]. apply trim_fixed; assumption. Qed.

(** A string that [trim] leaves as it is has clean ends. *)
Lemma trimmed_clean s :
  trim s = s -> startsClean s = true /\ startsClean (String.rev s) = true.
Proof. intros H. rewrite <- H. apply trim_clean. Qed.

End StringFacts.

(** ** The Validator *)

Module ValidatorFacts.
Import Js Validator JsFacts ValidatorTerms.

(** *** The traversal, as a list *)

Lemma scan_app assets l1 l2 seenIds :
  scan assets (l1 ++ l2) seenIds =
  obind (scan assets l1 seenIds) (fun '(errors, seen1) =>
    obind (scan assets l2 seen1) (fun '(more, seen2) =>
      Returns (errors ++ more, seen2))).
Proof.
  revert seenIds. induction l1 as [ | [p node] rest IH ]; intros seenIds; simpl.
  - destruct (scan assets l2 seenIds) as [[more seen2] | e]; reflexivity.
  - destruct (ownErrors assets p node seenIds) as [[errors seen1] | e]; simpl;
      [ | reflexivity ].
    rewrite IH.
    destruct (scan assets rest seen1) as [[more seen2] | e]; simpl; [ | reflexivity ].
    destruct (scan assets l2 seen2) as [[more' seen3] | e]; simpl; [ | reflexivity ].
    rewrite app_assoc. reflexivity.
Qed.

Lemma own_In key o v : own key o = Some v -> In (key, v) o.
Proof.
  induction o as [ | [k x] rest IH ]; simpl; [ discriminate | ].
  destruct (String.eqb_spec k key) as [ -> | _ ].
  - intros [= ->]. left. reflexivity.
  - intros H. right. apply IH. exact H.
Qed.

Lemma forEachIndexed_scan assets (pathOf : nat -> path) items :
  Forall (fun item => forall q seenIds,
            validateSceneNode item q assets seenIds = scan assets (reached item q) seenIds)
         items ->
  forall index seenIds,
    forEachIndexed (fun child index seen =>
        validateSceneNode child (pathOf index) assets seen) items index seenIds
    = scan assets
        (flatMapIndexed (fun child index => reached child (pathOf index)) items index)
        seenIds.
Proof.
  induction 1 as [ | item rest Hitem _ IH ]; intros index seenIds; simpl; [ reflexivity | ].
  rewrite scan_app, Hitem.
  destruct (scan assets (reached item (pathOf index)) seenIds)
    as [[errors seen1] | e]; simpl; [ | reflexivity ].
  rewrite IH. reflexivity.
Qed.

(** [validateSceneNode] is the scan of the values it reaches. *)
Lemma validateSceneNode_scan assets node :
  forall p seenIds,
    validateSceneNode node p assets seenIds = scan assets (reached node p) seenIds.
Proof.
  enough (H : (forall p seenIds,
                 validateSceneNode node p assets seenIds
                 = scan assets (reached node p) seenIds) /\
              match node with
              | VArray items =>
                  Forall (fun item => forall q seenIds,
                            validateSceneNode item q assets seenIds
                            = scan assets (reached item q) seenIds) items
              | _ => True
              end) by apply H.
  induction node as [ | | b | n | s | items IH | o IH ] using value_induction;
    try (split; [ reflexivity | exact I ]).
  - split; [ reflexivity | ].
    apply Forall_impl with (1 := IH). intros item H. apply H.
  - split; [ | exact I ]. intros p seenIds.
    cbn [validateSceneNode reached scan ownErrors]. rewrite !withOwn_own.
    destruct (checkId o p seenIds) as [idErrors seen1].
    destruct (match own "asset" o with
              | Some v => validateNodeAssetReference v (p /> Field "asset") assets
              | None => Returns []
              end) as [assetErrors | e]; cbn [obind]; [ | reflexivity ].
    rewrite ?withOwn_own.
    destruct (own "children" o) as [ children | ] eqn:Hchildren.
    + destruct children as [ | | b | n | s | items | o' ];
        cbn [scan obind]; rewrite <- ?app_assoc, ?app_nil_r; try reflexivity.
      rewrite Forall_forall in IH.
      destruct (IH ("children", VArray items)) as [_ Hitems].
      { apply list_elem_of_In, own_In. exact Hchildren. }
      cbn [snd] in Hitems.
      rewrite (forEachIndexed_scan assets
                 (fun index => p /> Field "children" /> Index index) items Hitems 0 seen1).
      destruct (scan assets _ seen1) as [[more seen2] | e]; cbn [obind]; [ | reflexivity ].
      rewrite <- !app_assoc. reflexivity.
    + cbn [scan obind]. rewrite <- ?app_assoc, ?app_nil_r. reflexivity.
Qed.

(** *** Which inputs make the validator throw *)

Lemma findAssetById_readable assets assetId :
  forallb notNullish assets = true ->
  exists found,
    findAssetById assets assetId = Returns found /\
    (found = None <-> knownAsset assets assetId = false).
Proof.
  induction assets as [ | e rest IH ]; simpl; intros Hread.
  - exists None. split; [ reflexivity | tauto ].
  - apply andb_true_iff in Hread as [He Hrest].
    destruct (IH Hrest) as [found [Hfound Hiff]].
    destruct e as [ | | b | n | s | items | o ]; try discriminate; simpl;
      try (exists found; split; [ exact Hfound | exact Hiff ]).
    destruct (strictEqualsString (get "id" o) assetId); simpl.
    + eexists. split; [ reflexivity | ]. split; discriminate.
    + exists found. split; [ exact Hfound | exact Hiff ].
Qed.

Lemma validateNodeAssetReference_readable assetRef p assets :
  readable assets = true ->
  exists errors, validateNodeAssetReference assetRef p assets = Returns errors.
Proof.
  intros Hread. destruct assetRef as [ | | b | n | s | items | o ];
    try (eexists; reflexivity).
  cbn [validateNodeAssetReference].
  destruct (nonEmptyString (get "assetId" o)) as [ assetId | ];
    [ | eexists; reflexivity ].
  destruct (findAssetById_readable (default [] assets) assetId Hread)
    as [found [-> _]].
  eexists. reflexivity.
Qed.

Lemma checkId_seen o p seenIds y :
  y ∈ snd (checkId o p seenIds) <-> y ∈ seenIds \/ nonEmptyString (get "id" o) = Some y.
Proof.
  unfold checkId. destruct (nonEmptyString (get "id" o)) as [ i | ]; simpl.
  - destruct (decide (i ∈ seenIds)) as [ Hin | Hnot ]; simpl.
    + split; [ tauto | ]. intros [ H | [= <-] ]; assumption.
    + rewrite elem_of_union, elem_of_singleton. split.
      * intros [ -> | H ]; [ right; reflexivity | left; exact H ].
      * intros [ H | [= ->] ]; [ right; exact H | left; reflexivity ].
  - split; [ tauto | ]. intros [ H | H ]; [ exact H | discriminate ].
Qed.

Lemma ownErrors_readable assets p node seenIds :
  readable assets = true ->
  exists errors seen1,
    ownErrors assets p node seenIds = Returns (errors, seen1) /\
    forall y, y ∈ seen1 <-> y ∈ seenIds \/ idOf node = Some y.
Proof.
  intros Hread. destruct node as [ | | b | n | s | items | o ];
    try (eexists _, seenIds; split; [ reflexivity | ];
         intros y; simpl; split; [ tauto | intros [ H | H ]; [ exact H | discriminate ] ]).
  cbn [ownErrors idOf].
  pose proof (checkId_seen o p seenIds) as Hseen.
  destruct (checkId o p seenIds) as [idErrors seen1]. cbn [snd] in Hseen.
  destruct (own "asset" o) as [ assetRef | ].
  - destruct (validateNodeAssetReference_readable assetRef (p /> Field "asset") assets Hread)
      as [assetErrors ->].
    eexists _, seen1. split; [ reflexivity | exact Hseen ].
  - eexists _, seen1. split; [ reflexivity | exact Hseen ].
Qed.

Lemma idsOf_cons p node rest y :
  y ∈ idsOf ((p, node) :: rest) <-> idOf node = Some y \/ y ∈ idsOf rest.
Proof.
  unfold idsOf. simpl. destruct (idOf node) as [ i | ].
  - rewrite elem_of_cons. split; intros [ H | H ]; auto; [ left | left ]; congruence.
  - split; [ tauto | ]. intros [ H | H ]; [ discriminate | exact H ].
Qed.

Lemma idsOf_app l1 l2 : idsOf (l1 ++ l2) = idsOf l1 ++ idsOf l2.
Proof. unfold idsOf. apply omap_app. Qed.

(** With readable assets the scan returns, and ends with the ids of
    the reached values added to the set. *)
Lemma scan_readable assets l :
  readable assets = true ->
  forall seenIds,
    exists errors seen1,
      scan assets l seenIds = Returns (errors, seen1) /\
      forall y, y ∈ seen1 <-> y ∈ seenIds \/ y ∈ idsOf l.
Proof.
  intros Hread. induction l as [ | [p node] rest IH ]; intros seenIds.
  - exists [], seenIds. split; [ reflexivity | ].
    intros y. unfold idsOf. simpl. rewrite elem_of_nil. tauto.
  - destruct (ownErrors_readable assets p node seenIds Hread) as [errors [seen1 [Hown Hseen1]]].
    destruct (IH seen1) as [more [seen2 [Hrest Hseen2]]].
    exists (errors ++ more), seen2. cbn [scan]. rewrite Hown. cbn [obind].
    rewrite Hrest. cbn [obind]. split; [ reflexivity | ].
    intros y. rewrite Hseen2, Hseen1, idsOf_cons. tauto.
Qed.

(** *** Strings and rendered paths *)

Lemma string_app_cons c (s t : string) : String c s +:+ t = String c (s +:+ t).
Proof. reflexivity. Qed.

Lemma string_app_nil (t : string) : "" +:+ t = t.
Proof. reflexivity. Qed.

Lemma string_app_assoc (s1 s2 s3 : string) : (s1 +:+ s2) +:+ s3 = s1 +:+ s2 +:+ s3.
Proof.
  induction s1 as [ | c s1 IH ]; [ reflexivity | ].
  rewrite !string_app_cons, IH. reflexivity.
Qed.

Lemma string_app_empty (s : string) : s +:+ "" = s.
Proof.
  induction s as [ | c s IH ]; [ reflexivity | ].
  rewrite string_app_cons, IH. reflexivity.
Qed.

Lemma allChars_app P s t : allChars P (s +:+ t) = allChars P s && allChars P t.
Proof.
  induction s as [ | c s IH ]; [ reflexivity | ].
  rewrite string_app_cons. simpl. rewrite IH, andb_assoc. reflexivity.
Qed.

Lemma allChars_weaken (P Q : ascii -> bool) s :
  (forall c, P c = true -> Q c = true) -> allChars P s = true -> allChars Q s = true.
Proof.
  intros HPQ. induction s as [ | c s IH ]; simpl; [ reflexivity | ].
  rewrite !andb_true_iff. intros [Hc Hs]. split; [ apply HPQ; exact Hc | apply IH; exact Hs ].
Qed.

(** Two strings of one class, each followed by something outside the
    class: equal wholes have equal parts. *)
Lemma class_split P a1 : forall a2 r1 r2,
  allChars P a1 = true -> allChars P a2 = true ->
  stopsAt P r1 = true -> stopsAt P r2 = true ->
  a1 +:+ r1 = a2 +:+ r2 -> a1 = a2 /\ r1 = r2.
Proof.
  induction a1 as [ | c1 a1 IH ]; intros [ | c2 a2 ] r1 r2 H1 H2 Hr1 Hr2 Heq.
  - split; [ reflexivity | exact Heq ].
  - exfalso. change ("" +:+ r1) with r1 in Heq. subst r1.
    rewrite string_app_cons in Hr1. simpl in Hr1, H2.
    apply andb_true_iff in H2 as [Hc _]. rewrite Hc in Hr1. discriminate.
  - exfalso. change ("" +:+ r2) with r2 in Heq. subst r2.
    rewrite string_app_cons in Hr2. simpl in Hr2, H1.
    apply andb_true_iff in H1 as [Hc _]. rewrite Hc in Hr2. discriminate.
  - rewrite !string_app_cons in Heq. injection Heq as <- Heq.
    simpl in H1, H2. apply andb_true_iff in H1 as [_ H1]. apply andb_true_iff in H2 as [_ H2].
    destruct (IH a2 r1 r2 H1 H2 Hr1 Hr2 Heq) as [-> ->]. split; reflexivity.
Qed.

Lemma pretty_N_go_digits x : forall s,
  exists d, pretty_N_go x s = d +:+ s /\ allChars isDigit d = true.
Proof.
  induction (N.lt_wf_0 x) as [x _ IH]. intros s.
  destruct (N.eq_dec x 0%N) as [ -> | Hx ].
  - exists "". split; reflexivity.
  - rewrite pretty_N_go_step by lia.
    destruct (IH (x `div` 10)%N (N.div_lt x 10%N ltac:(lia) eq_refl)
                (String (pretty_N_char (x `mod` 10)) s)) as [d [-> Hd]].
    exists (d +:+ String (pretty_N_char (x `mod` 10)) "").
    split.
    + clear. induction d as [ | c d IHd ]; [ reflexivity | ].
      rewrite !string_app_cons, IHd. reflexivity.
    + rewrite allChars_app, Hd. simpl. rewrite andb_true_r.
      unfold pretty_N_char. repeat case_match; reflexivity.
Qed.

Lemma pretty_nat_digits (i : nat) : allChars isDigit (pretty i) = true.
Proof.
  unfold pretty, pretty_nat, pretty, pretty_N. case_decide; [ reflexivity | ].
  destruct (pretty_N_go_digits (N.of_nat i) "") as [d [-> Hd]].
  rewrite allChars_app, Hd. reflexivity.
Qed.

Lemma string_length_app (s t : string) :
  String.length (s +:+ t) = String.length s + String.length t.
Proof.
  induction s as [ | c s IH ]; [ reflexivity | ].
  rewrite string_app_cons. simpl. rewrite IH. reflexivity.
Qed.

Lemma string_app_inv_tail (s1 : string) : forall s2 t, s1 +:+ t = s2 +:+ t -> s1 = s2.
Proof.
  induction s1 as [ | c1 s1 IH ]; intros [ | c2 s2 ] t Heq.
  - reflexivity.
  - apply (f_equal String.length) in Heq.
    rewrite string_app_nil, string_app_cons in Heq. simpl in Heq.
    rewrite string_length_app in Heq. lia.
  - apply (f_equal String.length) in Heq.
    rewrite string_app_nil, string_app_cons in Heq. simpl in Heq.
    rewrite string_length_app in Heq. lia.
  - rewrite !string_app_cons in Heq. injection Heq as <- Heq.
    rewrite (IH s2 t Heq). reflexivity.
Qed.

Lemma renderPath_cons seg rest :
  renderPath (seg :: rest) = renderSegment seg +:+ renderPath rest.
Proof. reflexivity. Qed.

(** What follows a segment in a rendered path is empty or starts
    with [.] or [[]. *)
Lemma renderTail_stops P rest :
  P "."%char = false -> P "["%char = false ->
  forallb tailOk rest = true -> stopsAt P (renderPath rest) = true.
Proof.
  intros Hdot Hbracket. destruct rest as [ | seg rest ]; [ reflexivity | ].
  cbn [forallb]. destruct seg as [ n | n | i ]; cbn [tailOk]; [ discriminate | | ];
    intros _; rewrite renderPath_cons; cbn [renderSegment];
    rewrite !string_app_cons; cbn [stopsAt].
  - rewrite Hdot. reflexivity.
  - rewrite Hbracket. reflexivity.
Qed.

Lemma renderTail_inj r1 : forall r2,
  forallb tailOk r1 = true -> forallb tailOk r2 = true ->
  renderPath r1 = renderPath r2 -> r1 = r2.
Proof.
  induction r1 as [ | s1 r1 IH ]; intros [ | s2 r2 ] H1 H2 Heq.
  - reflexivity.
  - exfalso. rewrite renderPath_cons in Heq.
    destruct s2 as [ n | n | i ]; [ discriminate | | ];
      cbn [renderSegment] in Heq; rewrite !string_app_cons in Heq; discriminate.
  - exfalso. rewrite renderPath_cons in Heq.
    destruct s1 as [ n | n | i ]; [ discriminate | | ];
      cbn [renderSegment] in Heq; rewrite !string_app_cons in Heq; discriminate.
  - simpl in H1, H2. apply andb_true_iff in H1 as [Hs1 H1].
    apply andb_true_iff in H2 as [Hs2 H2].
    rewrite !renderPath_cons in Heq.
    destruct s1 as [ n1 | n1 | i1 ], s2 as [ n2 | n2 | i2 ]; try discriminate;
      cbn [renderSegment] in Heq; rewrite !string_app_cons, !string_app_nil in Heq;
      try discriminate; injection Heq as Heq.
    + destruct (class_split isLetter n1 n2 _ _ Hs1 Hs2
                  (renderTail_stops isLetter r1 eq_refl eq_refl H1)
                  (renderTail_stops isLetter r2 eq_refl eq_refl H2) Heq) as [-> Hrest].
      rewrite (IH r2 H1 H2 Hrest). reflexivity.
    + rewrite !string_app_assoc in Heq.
      destruct (class_split isDigit (pretty i1) (pretty i2)
                  ("]" +:+ renderPath r1) ("]" +:+ renderPath r2)
                  (pretty_nat_digits i1) (pretty_nat_digits i2) eq_refl eq_refl Heq)
        as [Hi Hrest].
      apply (inj pretty) in Hi. subst i2.
      rewrite !string_app_cons, !string_app_nil in Hrest. injection Hrest as Hrest.
      rewrite (IH r2 H1 H2 Hrest). reflexivity.
Qed.

(** Paths of the validator are told apart by their rendering. *)
Lemma renderPath_inj p q :
  pathOk p = true -> pathOk q = true -> renderPath p = renderPath q -> p = q.
Proof.
  destruct p as [ | [ n1 | n1 | i1 ] r1 ]; try discriminate.
  destruct q as [ | [ n2 | n2 | i2 ] r2 ]; try discriminate.
  cbn [pathOk]. rewrite !andb_true_iff. intros [Hn1 H1] [Hn2 H2].
  rewrite !renderPath_cons. cbn [renderSegment]. intros Heq.
  destruct (class_split isLetter n1 n2 _ _ Hn1 Hn2
              (renderTail_stops isLetter r1 eq_refl eq_refl H1)
              (renderTail_stops isLetter r2 eq_refl eq_refl H2) Heq) as [-> Hrest].
  rewrite (renderTail_inj r1 r2 H1 H2 Hrest). reflexivity.
Qed.

Lemma letter_notSpace c : isLetter c = true -> notSpace c = true.
Proof.
  unfold isLetter, notSpace. intros H. apply negb_true_iff, Nat.eqb_neq. intros Heq.
  rewrite Heq in H. discriminate.
Qed.

Lemma digit_notSpace c : isDigit c = true -> notSpace c = true.
Proof.
  unfold isDigit, notSpace. intros H. apply negb_true_iff, Nat.eqb_neq. intros Heq.
  rewrite Heq in H. discriminate.
Qed.

Lemma renderTail_notSpace rest :
  forallb tailOk rest = true -> allChars notSpace (renderPath rest) = true.
Proof.
  induction rest as [ | seg rest IH ]; [ reflexivity | ].
  cbn [forallb]. rewrite andb_true_iff. intros [Hseg Hrest].
  rewrite renderPath_cons, allChars_app, (IH Hrest), andb_true_r.
  destruct seg as [ n | n | i ]; [ discriminate | | ]; cbn [renderSegment].
  - rewrite string_app_cons, string_app_nil. simpl.
    apply (allChars_weaken isLetter notSpace n letter_notSpace Hseg).
  - rewrite string_app_cons, string_app_nil. simpl. rewrite allChars_app.
    rewrite (allChars_weaken isDigit notSpace _ digit_notSpace (pretty_nat_digits i)).
    reflexivity.
Qed.

Lemma renderPath_notSpace p : pathOk p = true -> allChars notSpace (renderPath p) = true.
Proof.
  destruct p as [ | [ n | n | i ] rest ]; try discriminate.
  cbn [pathOk]. rewrite andb_true_iff. intros [Hn Hrest].
  rewrite renderPath_cons, allChars_app, (renderTail_notSpace rest Hrest), andb_true_r.
  cbn [renderSegment]. apply (allChars_weaken isLetter notSpace n letter_notSpace Hn).
Qed.

(** Among the errors located on a path of the validator, only the
    uniqueness error for [x] at [p] has its message. *)
Lemma not_unique_message_inv e p x :
  pathOk (location e) = true -> pathOk p = true ->
  message e = message (Error p (NotUnique x)) ->
  e = Error p (NotUnique x).
Proof.
  destruct e as [q w]. unfold message. cbn [location what]. intros Hq Hp Heq.
  assert (Hsplit : forall rest,
            renderPath q +:+ String " " rest
            = renderPath p +:+ renderProblem (NotUnique x) ->
            q = p /\ rest = "'" +:+ x +:+ "' must be unique").
  { intros rest H. cbn [renderProblem] in H. rewrite string_app_cons in H.
    destruct (class_split notSpace (renderPath q) (renderPath p)
                (String " " rest) (String " " ("'" +:+ x +:+ "' must be unique"))
                (renderPath_notSpace q Hq) (renderPath_notSpace p Hp)
                eq_refl eq_refl H) as [Hpath Hrest].
    split; [ apply renderPath_inj; assumption | ].
    injection Hrest as ->. reflexivity. }
  set (target := renderProblem (NotUnique x)) in *.
  destruct w; cbn [renderProblem] in Heq;
    rewrite ?string_app_cons, ?string_app_nil in Heq;
    try (apply Hsplit in Heq as [_ Heq];
         rewrite ?string_app_cons, ?string_app_nil in Heq; discriminate).
  - apply Hsplit in Heq as [-> Heq].
    rewrite !string_app_cons, !string_app_nil in Heq. injection Heq as Heq.
    apply string_app_inv_tail in Heq. subst id. reflexivity.
  - exfalso.
    change "World must be an object" with ("World" +:+ " must be an object") in Heq.
    rewrite <- string_app_assoc in Heq. subst target. cbn [renderProblem] in Heq.
    rewrite (string_app_cons " " "'") in Heq.
    destruct (class_split notSpace (renderPath q +:+ "World") (renderPath p)
                " must be an object" (String " " ("'" +:+ x +:+ "' must be unique")))
      as [_ Hrest]; try reflexivity; try assumption.
    + rewrite allChars_app, (renderPath_notSpace q Hq). reflexivity.
    + apply renderPath_notSpace. exact Hp.
    + rewrite string_app_cons in Hrest. discriminate.
Qed.

(** *** Where errors are located *)

Lemma pathOk_app p k : pathOk p = true -> forallb tailOk k = true -> pathOk (p ++ k) = true.
Proof.
  destruct p as [ | [ n | n | i ] rest ]; try discriminate.
  cbn [pathOk app]. rewrite forallb_app, !andb_true_iff. tauto.
Qed.

Lemma pathOk_extend p seg : pathOk p = true -> tailOk seg = true -> pathOk (p /> seg) = true.
Proof. intros Hp Hseg. apply pathOk_app; [ exact Hp | ]. simpl. rewrite Hseg. reflexivity. Qed.

Lemma validateVector3_located v p : pathOk p = true -> located (validateVector3 v p).
Proof. intros Hp. destruct v; simpl; located_with pathOk_extend Hp. Qed.

Lemma validateQuaternion_located v p : pathOk p = true -> located (validateQuaternion v p).
Proof. intros Hp. destruct v; simpl; located_with pathOk_extend Hp. Qed.

Lemma validateTransform_located v p : pathOk p = true -> located (validateTransform v p).
Proof.
  intros Hp. destruct v as [ | | b | n | s | items | o ]; try solve [ simpl; located_with pathOk_extend Hp ].
  cbn [validateTransform]. unfold whenPresent. repeat apply Forall_app_2.
  - destruct (own "position" o); [ | constructor ].
    apply validateVector3_located, pathOk_extend; [ exact Hp | reflexivity ].
  - destruct (own "rotation" o); [ | constructor ].
    apply validateQuaternion_located, pathOk_extend; [ exact Hp | reflexivity ].
  - destruct (own "scale" o); [ | constructor ].
    apply validateVector3_located, pathOk_extend; [ exact Hp | reflexivity ].
Qed.

Lemma validateTags_located v p : pathOk p = true -> located (validateTags v p).
Proof. intros Hp. unfold validateTags. located_with pathOk_extend Hp. Qed.

Lemma validateComponent_located v p : pathOk p = true -> located (validateComponent v p).
Proof.
  intros Hp.
  unfold validateComponent, requireNonEmptyString, requireObjectWhenPresent, whenPresent.
  located_with pathOk_extend Hp.
Qed.

Lemma validateComponents_located v p : pathOk p = true -> located (validateComponents v p).
Proof.
  intros Hp. unfold validateComponents. destruct v; try solve [ located_with pathOk_extend Hp ].
  apply Forall_concat, Forall_forall. intros errors Hin.
  apply elem_of_lookup_imap in Hin as [index [component [-> _]]].
  apply validateComponent_located, pathOk_extend; [ exact Hp | reflexivity ].
Qed.

Lemma validateNodeAssetReference_located v p assets errors :
  pathOk p = true ->
  validateNodeAssetReference v p assets = Returns errors -> located errors.
Proof.
  intros Hp.
  unfold validateNodeAssetReference, requireObjectWhenPresent, whenPresent.
  destruct v; try solve [ intros [= <-]; located_with pathOk_extend Hp ].
  destruct (nonEmptyString (get "assetId" props)) as [ assetId | ]; cbn [obind].
  - destruct (findAssetById (default [] assets) assetId) as [ found | e ]; cbn [obind];
      [ | discriminate ].
    intros [= <-]. located_with pathOk_extend Hp.
  - intros [= <-]. located_with pathOk_extend Hp.
Qed.

Lemma checkId_located o p seenIds :
  pathOk p = true -> located (fst (checkId o p seenIds)).
Proof. intros Hp. unfold checkId. repeat case_match; simpl; located_with pathOk_extend Hp. Qed.

Lemma ownErrors_located assets p node seenIds errors seen1 :
  pathOk p = true ->
  ownErrors assets p node seenIds = Returns (errors, seen1) -> located errors.
Proof.
  intros Hp. destruct node as [ | | b | n | s | items | o ];
    try solve [ intros [= <- <-]; located_with pathOk_extend Hp ].
  cbn [ownErrors]. pose proof (checkId_located o p seenIds Hp) as Hid.
  destruct (checkId o p seenIds) as [idErrors seen']. cbn [fst] in Hid.
  destruct (match own "asset" o with
            | Some v => validateNodeAssetReference v (p /> Field "asset") assets
            | None => Returns []
            end) as [ assetErrors | e ] eqn:Hasset; cbn [obind]; [ | discriminate ].
  intros [= <- <-]. unfold whenPresent. repeat apply Forall_app_2.
  - exact Hid.
  - located_with pathOk_extend Hp.
  - destruct (own "tags" o); [ | constructor ].
    apply validateTags_located, pathOk_extend; [ exact Hp | reflexivity ].
  - destruct (own "transform" o); [ | constructor ].
    apply validateTransform_located, pathOk_extend; [ exact Hp | reflexivity ].
  - destruct (own "components" o); [ | constructor ].
    apply validateComponents_located, pathOk_extend; [ exact Hp | reflexivity ].
  - destruct (own "asset" o).
    + eapply validateNodeAssetReference_located; [ | exact Hasset ].
      apply pathOk_extend; [ exact Hp | reflexivity ].
    + injection Hasset as <-. constructor.
  - located_with pathOk_extend Hp.
Qed.

Lemma scan_located assets l :
  Forall (fun entry => pathOk (fst entry) = true) l ->
  forall seenIds errors seen1,
    scan assets l seenIds = Returns (errors, seen1) -> located errors.
Proof.
  induction 1 as [ | [p node] rest Hp _ IH ]; intros seenIds errors seen1 Hscan.
  - injection Hscan as <- <-. constructor.
  - cbn [scan] in Hscan.
    destruct (ownErrors assets p node seenIds) as [[e0 s1] | e] eqn:Hown;
      cbn [obind] in Hscan; [ | discriminate ].
    destruct (scan assets rest s1) as [[more s2] | e] eqn:Hrest;
      cbn [obind] in Hscan; [ | discriminate ].
    injection Hscan as <- <-. apply Forall_app_2.
    + eapply ownErrors_located; [ exact Hp | exact Hown ].
    + eapply IH. exact Hrest.
Qed.

Lemma validateAssetEntries_located assets : forall index seenIds,
  located (validateAssetEntries assets [Name "assets"] index seenIds).
Proof.
  induction assets as [ | asset rest IH ]; intros index seenIds; simpl; [ constructor | ].
  destruct (validateAsset asset ([Name "assets"] /> Index index) seenIds)
    as [errors seen1] eqn:Hasset.
  apply Forall_app_2; [ | apply IH ].
  assert (Hp : pathOk ([Name "assets"] /> Index index) = true) by reflexivity.
  unfold validateAsset, requireNonEmptyString in Hasset.
  destruct asset as [ | | b | n | s | items | o ];
    try solve [ injection Hasset as <- <-; located_with pathOk_extend Hp ].
  pose proof (checkId_located o ([Name "assets"] /> Index index) seenIds Hp) as Hid.
  destruct (checkId o ([Name "assets"] /> Index index) seenIds) as [idErrors seen'].
  cbn [fst] in Hid. injection Hasset as <- <-.
  repeat apply Forall_app_2; [ exact Hid | located_with pathOk_extend Hp | located_with pathOk_extend Hp ].
Qed.

Lemma validateAssets_located assets :
  located (assetErrors (validateAssets assets [Name "assets"])).
Proof.
  destruct assets; simpl; try (repeat constructor). apply validateAssetEntries_located.
Qed.

(** *** Uniqueness errors *)

Lemma validateAxes_other axes o p : otherErrors (validateAxes axes o p).
Proof.
  unfold validateAxes. induction axes as [ | key rest IH ]; simpl; [ constructor | ].
  apply Forall_app_2; [ | exact IH ]. other_errors.
Qed.

Lemma validateTransform_other v p : otherErrors (validateTransform v p).
Proof.
  unfold validateTransform, whenPresent, validateVector3, validateQuaternion.
  other_errors; apply validateAxes_other.
Qed.

Lemma validateTags_other v p : otherErrors (validateTags v p).
Proof. unfold validateTags. other_errors. Qed.

Lemma validateComponent_other v p : otherErrors (validateComponent v p).
Proof.
  unfold validateComponent, requireNonEmptyString, requireObjectWhenPresent, whenPresent.
  other_errors.
Qed.

Lemma validateComponents_other v p : otherErrors (validateComponents v p).
Proof.
  unfold validateComponents. destruct v; other_errors.
  apply Forall_concat, Forall_forall. intros errors Hin.
  apply elem_of_lookup_imap in Hin as [index [component [-> _]]].
  apply validateComponent_other.
Qed.

Lemma validateNodeAssetReference_other v p assets errors :
  validateNodeAssetReference v p assets = Returns errors -> otherErrors errors.
Proof.
  unfold validateNodeAssetReference, requireObjectWhenPresent, whenPresent.
  destruct v; try (intros [= <-]; other_errors).
  destruct (nonEmptyString (get "assetId" props)) as [ assetId | ]; cbn [obind].
  - destruct (findAssetById (default [] assets) assetId) as [ found | e ]; cbn [obind];
      [ | discriminate ].
    intros [= <-]. other_errors.
  - intros [= <-]. other_errors.
Qed.

(** One reached value yields a uniqueness error exactly when its id
    is well formed and was seen before, and then it is the error for
    that id at that value's [id]. *)
Lemma ownErrors_uniqueness assets p node seenIds errors seen1 :
  ownErrors assets p node seenIds = Returns (errors, seen1) ->
  forall q x,
    Error q (NotUnique x) ∈ errors <->
    q = p /> Field "id" /\ idOf node = Some x /\ x ∈ seenIds.
Proof.
  intros Hown q x.
  assert (Hnot : forall l, otherErrors l -> Error q (NotUnique x) ∈ l -> False).
  { intros l Hl Hin. rewrite Forall_forall in Hl. apply Hl in Hin. discriminate. }
  destruct node as [ | | b | n | s | items | o ];
    try (injection Hown as <- <-; split;
         [ intros Hin; apply list_elem_of_singleton in Hin; discriminate
         | intros (_ & Hid & _); discriminate ]).
  cbn [ownErrors idOf] in *. unfold checkId in Hown.
  destruct (match own "asset" o with
            | Some v => validateNodeAssetReference v (p /> Field "asset") assets
            | None => Returns []
            end) as [ assetErrors | e ] eqn:Hasset.
  2: { destruct (nonEmptyString (get "id" o)); [ destruct (decide _) | ]; discriminate. }
  assert (Hrest : otherErrors
            (whenPresent "name" o (fun v =>
               if isString v then [] else [Error (p /> Field "name") NotStringWhenPresent])
             ++ whenPresent "tags" o (fun v => validateTags v (p /> Field "tags"))
             ++ whenPresent "transform" o (fun v =>
                  validateTransform v (p /> Field "transform"))
             ++ whenPresent "components" o (fun v =>
                  validateComponents v (p /> Field "components"))
             ++ assetErrors
             ++ match own "children" o with
                | Some (VArray _) | None => []
                | Some _ => [Error (p /> Field "children") NotArrayWhenPresent]
                end)).
  { unfold whenPresent. repeat apply Forall_app_2.
    - other_errors.
    - destruct (own "tags" o); [ apply validateTags_other | constructor ].
    - destruct (own "transform" o); [ apply validateTransform_other | constructor ].
    - destruct (own "components" o); [ apply validateComponents_other | constructor ].
    - destruct (own "asset" o).
      + eapply validateNodeAssetReference_other. exact Hasset.
      + injection Hasset as <-. constructor.
    - other_errors. }
  destruct (nonEmptyString (get "id" o)) as [ i | ].
  - destruct (decide (i ∈ seenIds)) as [ Hseen | Hfresh ];
      cbn [obind] in Hown; injection Hown as <- <-.
    + rewrite elem_of_cons. split.
      * intros [ [= -> ->] | Hin ]; [ auto | destruct (Hnot _ Hrest Hin) ].
      * intros (-> & [= ->] & _). left. reflexivity.
    + cbn [app]. split.
      * intros Hin. destruct (Hnot _ Hrest Hin).
      * intros (_ & [= ->] & Hin). contradiction.
  - cbn [obind] in Hown. injection Hown as <- <-.
    rewrite elem_of_cons. split.
    + intros [ [=] | Hin ]. destruct (Hnot _ Hrest Hin).
    + intros (_ & [=] & _).
Qed.

Lemma ownErrors_seen assets p node seenIds errors seen1 :
  ownErrors assets p node seenIds = Returns (errors, seen1) ->
  forall y, y ∈ seen1 <-> y ∈ seenIds \/ idOf node = Some y.
Proof.
  destruct node as [ | | b | n | s | items | o ];
    try (intros [= <- <-] y; simpl; split;
         [ tauto | intros [ H | H ]; [ exact H | discriminate ] ]).
  cbn [ownErrors idOf]. pose proof (checkId_seen o p seenIds) as Hseen.
  destruct (checkId o p seenIds) as [idErrors seen']. cbn [snd] in Hseen.
  destruct (match own "asset" o with
            | Some v => validateNodeAssetReference v (p /> Field "asset") assets
            | None => Returns []
            end) as [ assetErrors | e ]; cbn [obind]; [ | discriminate ].
  intros [= <- <-]. exact Hseen.
Qed.

(** The scan flags exactly the values whose well-formed id is in the
    initial set or is the id of a value reached before. *)
Lemma scan_uniqueness assets l :
  forall seenIds errors seen1,
    scan assets l seenIds = Returns (errors, seen1) ->
    forall q x,
      Error q (NotUnique x) ∈ errors <->
      exists before p node after,
        l = before ++ (p, node) :: after /\
        q = p /> Field "id" /\ idOf node = Some x /\
        (x ∈ seenIds \/ x ∈ idsOf before).
Proof.
  induction l as [ | [p0 n0] rest IH ]; intros seenIds errors seen1 Hscan q x.
  - injection Hscan as <- <-. split.
    + intros Hin. apply elem_of_nil in Hin. destruct Hin.
    + intros (before & p & node & after & Hl & _). destruct before; discriminate.
  - cbn [scan] in Hscan.
    destruct (ownErrors assets p0 n0 seenIds) as [[e0 s1] | e] eqn:Hown;
      cbn [obind] in Hscan; [ | discriminate ].
    destruct (scan assets rest s1) as [[more s2] | e] eqn:Hrest;
      cbn [obind] in Hscan; [ | discriminate ].
    injection Hscan as <- <-.
    pose proof (ownErrors_uniqueness _ _ _ _ _ _ Hown q x) as Hhere.
    pose proof (ownErrors_seen _ _ _ _ _ _ Hown x) as Hseen.
    pose proof (IH _ _ _ Hrest q x) as Hlater.
    rewrite elem_of_app, Hhere, Hlater. split.
    + intros [ (Hq & Hid & Hx) | (before & p & node & after & Hl & Hq & Hid & Hx) ].
      * exists [], p0, n0, rest. repeat split; auto.
      * exists ((p0, n0) :: before), p, node, after. subst rest.
        repeat split; auto. rewrite idsOf_cons. tauto.
    + intros (before & p & node & after & Hl & Hq & Hid & Hx).
      destruct before as [ | b before ].
      * injection Hl as <- <- <-. left. repeat split; auto.
        destruct Hx as [ Hx | Hx ]; [ exact Hx | ].
        apply elem_of_nil in Hx. destruct Hx.
      * injection Hl as <- ->. right. exists before, p, node, after.
        repeat split; auto. rewrite idsOf_cons in Hx. tauto.
Qed.

(** *** Paths of reached values *)

Lemma flatMapIndexed_elem {A} (f : value -> nat -> list A) items :
  forall index x,
    x ∈ flatMapIndexed f items index <->
    exists i item, items !! i = Some item /\ x ∈ f item (index + i).
Proof.
  induction items as [ | item rest IH ]; intros index x; simpl.
  - rewrite elem_of_nil. split; [ tauto | ]. intros (i & it & H & _). discriminate.
  - rewrite elem_of_app, IH. split.
    + intros [ Hin | (i & it & Hi & Hin) ].
      * exists 0, item. rewrite Nat.add_0_r. auto.
      * exists (S i), it. rewrite <- Nat.add_succ_comm. auto.
    + intros (i & it & Hi & Hin). destruct i as [ | i ].
      * injection Hi as <-. rewrite Nat.add_0_r in Hin. left. exact Hin.
      * right. exists i, it. rewrite Nat.add_succ_comm. auto.
Qed.

(** Every reached value lies at or below the path the descent began
    with. *)
Lemma reached_prefix node : forall p q v, (q, v) ∈ reached node p -> p `prefix_of` q.
Proof.
  enough (H : (forall p q v, (q, v) ∈ reached node p -> p `prefix_of` q) /\
              match node with
              | VArray items =>
                  Forall (fun item => forall p q v,
                            (q, v) ∈ reached item p -> p `prefix_of` q) items
              | _ => True
              end) by apply H.
  induction node as [ | | b | n | s | items IH | o IH ] using value_induction;
    try (split; [ | exact I ]; intros p q v Hin; simpl in Hin;
         apply list_elem_of_singleton in Hin; injection Hin as -> _; reflexivity).
  - split.
    + intros p q v Hin. simpl in Hin.
      apply list_elem_of_singleton in Hin. injection Hin as -> _. reflexivity.
    + apply Forall_impl with (1 := IH). intros item H. apply H.
  - split; [ | exact I ]. intros p q v. cbn [reached]. rewrite withOwn_own, elem_of_cons.
    intros [ [= -> _] | Hin ]; [ reflexivity | ].
    destruct (own "children" o) as [ children | ] eqn:Hchildren;
      [ | apply elem_of_nil in Hin; destruct Hin ].
    destruct children as [ | | b | n | s | items | o' ];
      try (apply elem_of_nil in Hin; destruct Hin).
    rewrite Forall_forall in IH.
    destruct (IH ("children", VArray items)) as [_ Hitems].
    { apply list_elem_of_In, own_In. exact Hchildren. }
    cbn [snd] in Hitems. rewrite Forall_forall in Hitems.
    apply flatMapIndexed_elem in Hin as (i & item & Hi & Hin).
    apply Hitems in Hin; [ | apply list_elem_of_lookup; eauto ].
    etransitivity; [ | exact Hin ].
    unfold extend. rewrite <- app_assoc. apply prefix_app_r. reflexivity.
Qed.

(** The path of a reached value is the path the descent began with,
    followed by fields and indices. *)
Lemma reached_below node :
  forall p q v, (q, v) ∈ reached node p -> exists k, q = p ++ k /\ forallb tailOk k = true.
Proof.
  enough (H : (forall p q v, (q, v) ∈ reached node p ->
                 exists k, q = p ++ k /\ forallb tailOk k = true) /\
              match node with
              | VArray items =>
                  Forall (fun item => forall p q v,
                            (q, v) ∈ reached item p ->
                            exists k, q = p ++ k /\ forallb tailOk k = true) items
              | _ => True
              end) by apply H.
  assert (Hself : forall (p q : path) (v w : value),
            (q, v) ∈ [(p, w)] -> exists k, q = p ++ k /\ forallb tailOk k = true).
  { intros p q v w Hin. apply list_elem_of_singleton in Hin. injection Hin as -> _.
    exists []. rewrite app_nil_r. split; reflexivity. }
  induction node as [ | | b | n | s | items IH | o IH ] using value_induction;
    try (split; [ | exact I ]; intros p q v Hin; exact (Hself _ _ _ _ Hin)).
  - split; [ intros p q v Hin; exact (Hself _ _ _ _ Hin) | ].
    apply Forall_impl with (1 := IH). intros item H. apply H.
  - split; [ | exact I ]. intros p q v. cbn [reached]. rewrite withOwn_own, elem_of_cons.
    intros [ [= -> _] | Hin ].
    { exists []. rewrite app_nil_r. split; reflexivity. }
    destruct (own "children" o) as [ children | ] eqn:Hchildren;
      [ | apply elem_of_nil in Hin; destruct Hin ].
    destruct children as [ | | b | n | s | items | o' ];
      try (apply elem_of_nil in Hin; destruct Hin).
    rewrite Forall_forall in IH.
    destruct (IH ("children", VArray items)) as [_ Hitems].
    { apply list_elem_of_In, own_In. exact Hchildren. }
    cbn [snd] in Hitems. rewrite Forall_forall in Hitems.
    apply flatMapIndexed_elem in Hin as (i & item & Hi & Hin).
    apply Hitems in Hin as [k [-> Hk]]; [ | apply list_elem_of_lookup; eauto ].
    exists ([Field "children"; Index (0 + i)] ++ k). split.
    + unfold extend. rewrite <- !app_assoc. reflexivity.
    + cbn [app forallb tailOk]. exact Hk.
Qed.

Lemma reachedForest_pathOk roots q v :
  (q, v) ∈ reachedForest roots -> pathOk q = true.
Proof.
  intros Hin. apply flatMapIndexed_elem in Hin as (i & item & _ & Hin).
  apply reached_below in Hin as [k [-> Hk]]. apply pathOk_app; [ reflexivity | exact Hk ].
Qed.

Lemma indexed_paths_NoDup (base : path) items :
  Forall (fun item => forall p, NoDup (map fst (reached item p))) items ->
  forall index,
    NoDup (map fst (flatMapIndexed (fun child index =>
                      reached child (base /> Index index)) items index)).
Proof.
  induction 1 as [ | item rest Hitem _ IH ]; intros index; simpl; [ constructor | ].
  rewrite map_app. apply NoDup_app. split; [ apply Hitem | ]. split; [ | apply IH ].
  intros q Hq Hq'.
  apply list_elem_of_fmap in Hq as [[q1 v1] [-> Hin1]].
  apply list_elem_of_fmap in Hq' as [[q2 v2] [Heq Hin2]]. cbn [fst] in *. subst q2.
  apply reached_prefix in Hin1.
  apply flatMapIndexed_elem in Hin2 as (i & item' & _ & Hin2).
  apply reached_prefix in Hin2.
  destruct (prefix_weak_total _ _ _ Hin1 Hin2) as [ Hp | Hp ];
    apply prefix_length_eq in Hp; unfold extend in *;
    try (rewrite !length_app; simpl; lia);
    apply app_inj_tail in Hp as [_ [= Hp]]; lia.
Qed.

(** No two reached values share a path. *)
Lemma reached_NoDup node : forall p, NoDup (map fst (reached node p)).
Proof.
  enough (H : (forall p, NoDup (map fst (reached node p))) /\
              match node with
              | VArray items =>
                  Forall (fun item => forall p, NoDup (map fst (reached item p))) items
              | _ => True
              end) by apply H.
  induction node as [ | | b | n | s | items IH | o IH ] using value_induction;
    try (split; [ intros p; apply NoDup_singleton | exact I ]).
  - split; [ intros p; apply NoDup_singleton | ].
    apply Forall_impl with (1 := IH). intros item H. apply H.
  - split; [ | exact I ]. intros p. cbn [reached map fst]. rewrite withOwn_own.
    destruct (own "children" o) as [ children | ] eqn:Hchildren;
      [ | apply NoDup_singleton ].
    destruct children as [ | | b | n | s | items | o' ]; try apply NoDup_singleton.
    rewrite Forall_forall in IH.
    destruct (IH ("children", VArray items)) as [_ Hitems].
    { apply list_elem_of_In, own_In. exact Hchildren. }
    cbn [snd] in Hitems. apply NoDup_cons. split.
    + intros Hin. apply list_elem_of_fmap in Hin as [[q v] [Hq Hin]]. cbn [fst] in Hq. subst q.
      apply flatMapIndexed_elem in Hin as (i & item & _ & Hin).
      apply reached_prefix, prefix_length in Hin.
      unfold extend in Hin. rewrite !length_app in Hin. simpl in Hin. lia.
    + apply (indexed_paths_NoDup (p /> Field "children") items Hitems 0).
Qed.

Lemma reachedForest_NoDup roots : NoDup (map fst (reachedForest roots)).
Proof.
  apply (indexed_paths_NoDup [Name "nodes"] roots).
  apply Forall_forall. intros item _. apply reached_NoDup.
Qed.

(** Every reached value of the forest lies under [nodes]. *)
Lemma reachedForest_head roots q v :
  (q, v) ∈ reachedForest roots -> head q = Some (Name "nodes").
Proof.
  intros Hin. apply flatMapIndexed_elem in Hin as (i & item & _ & Hin).
  apply reached_prefix in Hin. destruct Hin as [k ->]. reflexivity.
Qed.

Lemma split_at_path {A B : Type} (l : list (A * B)) :
  NoDup (map fst l) ->
  forall before p v after before' v' after',
    l = before ++ (p, v) :: after ->
    l = before' ++ (p, v') :: after' ->
    before = before'.
Proof.
  intros Hnd before. revert l Hnd.
  induction before as [ | b before IH ]; intros l Hnd p v after before' v' after' -> Heq.
  - destruct before' as [ | b' before' ]; [ reflexivity | ].
    injection Heq as <- ->. exfalso.
    simpl in Hnd. apply NoDup_cons in Hnd as [Hnot _]. apply Hnot.
    rewrite map_app. simpl. apply elem_of_app. right. apply list_elem_of_here.
  - destruct before' as [ | b' before' ].
    + injection Heq as -> <-. exfalso.
      simpl in Hnd. apply NoDup_cons in Hnd as [Hnot _]. apply Hnot.
      rewrite map_app. simpl. apply elem_of_app. right. apply list_elem_of_here.
    + injection Heq as <- Heq. f_equal.
      simpl in Hnd. apply NoDup_cons in Hnd as [_ Hnd].
      exact (IH _ Hnd p v after before' v' after' eq_refl Heq).
Qed.

(** Errors of the asset list are located under [assets]. *)
Lemma validateAssetEntries_head assets : forall index seenIds,
  Forall (fun e => head (location e) = Some (Name "assets"))
         (validateAssetEntries assets [Name "assets"] index seenIds).
Proof.
  induction assets as [ | asset rest IH ]; intros index seenIds; simpl; [ constructor | ].
  destruct (validateAsset asset ([Name "assets"] /> Index index) seenIds)
    as [errors seen1] eqn:Hasset.
  apply Forall_app_2; [ | apply IH ].
  unfold validateAsset, checkId, requireNonEmptyString in Hasset.
  destruct asset as [ | | b | n | s | items | o ];
    try (injection Hasset as <- <-; repeat constructor).
  destruct (nonEmptyString (get "id" o)); [ destruct (decide _) | ];
    injection Hasset as <- <-;
    repeat first [ apply Forall_nil_2 | apply Forall_cons_2; [ reflexivity | ]
                 | apply Forall_app_2
                 | match goal with
                   | |- Forall _ (if ?b then _ else _) => destruct b
                   | |- Forall _ (match ?x with _ => _ end) => destruct x
                   end ].
Qed.

Lemma validateAssets_head assets :
  Forall (fun e => head (location e) = Some (Name "assets"))
         (assetErrors (validateAssets assets [Name "assets"])).
Proof.
  destruct assets; simpl; repeat constructor. apply validateAssetEntries_head.
Qed.

(** *** Messages *)

Lemma renderPath_extend p seg : renderPath (p /> seg) = renderPath p +:+ renderSegment seg.
Proof.
  unfold renderPath, extend. induction p as [ | s rest IH ]; cbn [app foldr].
  - rewrite string_app_empty. reflexivity.
  - rewrite IH, string_app_assoc. reflexivity.
Qed.

Lemma message_not_unique p x :
  renderPath p +:+ ".id '" +:+ x +:+ "' must be unique"
  = message (Error (p /> Field "id") (NotUnique x)).
Proof.
  unfold message. cbn [location what renderProblem].
  rewrite renderPath_extend, string_app_assoc. reflexivity.
Qed.

Lemma message_missing_asset p assetId :
  renderPath p +:+ ".asset.assetId references missing asset '" +:+ assetId +:+ "'"
  = message (Error (p /> Field "asset" /> Field "assetId") (MissingAsset assetId)).
Proof.
  unfold message. cbn [location what renderProblem].
  rewrite !renderPath_extend, !string_app_assoc. reflexivity.
Qed.

(** *** The whole document *)

Lemma validateWorldDocument_scan w roots :
  get "nodes" w = VArray roots ->
  validateWorldDocument (VObject w) =
  obind (scan (worldAssets w) (reachedForest roots) ∅) (fun '(nodeErrors, _) =>
    let errors := assetErrors (validateAssets (get "assets" w) [Name "assets"])
                  ++ nodeErrors in
    Returns (Validation (isEmpty errors) errors)).
Proof.
  intros Hnodes. unfold validateWorldDocument. rewrite Hnodes.
  rewrite (forEachIndexed_scan _ (fun index => [Name "nodes"; Index index]) roots).
  - unfold reachedForest, worldAssets.
    destruct (scan _ _ ∅) as [[nodeErrors seen1] | e]; reflexivity.
  - apply Forall_forall. intros item _. apply validateSceneNode_scan.
Qed.

Lemma isEmpty_false {A} (l : list A) x : x ∈ l -> isEmpty l = false.
Proof. destruct l; [ intros H; apply elem_of_nil in H; destruct H | reflexivity ]. Qed.



(** *** The entry that cannot be read *)

(** C3 fails on the code: on a document whose [assets] array holds
    [null] and one of whose nodes refers to an asset,
    [validateWorldDocument] throws a TypeError and returns no record. *)
Theorem validateWorldDocument_throws_on_null_asset :
  validateWorldDocument nullAssetWorld = Throws TypeError.
Proof. reflexivity. Qed.

(** C2 fails on the code: the document holds the id ["x"] at
    [nodes[0]] and again at [nodes[1]], its [assets] array holds [null]
    and the second node refers to an asset. [validateWorldDocument]
    throws a TypeError there and returns no result, hence neither
    [valid = false] nor a uniqueness error; beside an empty asset list
    the same nodes get the uniqueness error at [nodes[1].id]. The defect
    is the one of C3 and C4: [assets.find] reads [id] off the [null]
    entry. *)
Theorem validateWorldDocument_throws_on_twins_with_null_asset :
  validateWorldDocument twinsNullAssetWorld = Throws TypeError /\
  (exists validation,
     validateWorldDocument twinsWorld = Returns validation /\
     valid validation = false /\
     messages validation =
       ["nodes[1].id 'x' must be unique";
        "nodes[1].asset.assetId references missing asset 'a'"]).
Proof.
  split; [ reflexivity | ].
  eexists. split; [ reflexivity | ]. split; reflexivity.
Qed.

(** C4 fails on the code: with an asset list that holds a record and
    [null], a reference to an asset the list does not name is not
    reported; the search for it throws a TypeError at the [null]. *)
Theorem missing_asset_not_reported_past_null :
  validateWorldDocument partialAssetsWorld = Throws TypeError.
Proof. reflexivity. Qed.

(** X1: away from such entries (no [null] or [undefined] in the
    [assets] array) the validator returns for every input, and [valid]
    holds exactly when the error list is empty. *)
Theorem validateWorldDocument_returns world :
  match world with VObject w => readable (worldAssets w) | _ => true end = true ->
  exists validation,
    validateWorldDocument world = Returns validation /\
    (valid validation = true <-> errors validation = []).
Proof.
  intros Hread.
  assert (Hempty : forall l : list error, isEmpty l = true <-> l = []).
  { intros [ | e l ]; simpl; split; congruence. }
  destruct world as [ | | b | n | s | items | w ];
    try (eexists; split; [ reflexivity | ]; simpl; split; discriminate).
  destruct (get "nodes" w) as [ | | b | n | s | roots | o ] eqn:Hnodes;
    try (unfold validateWorldDocument; rewrite Hnodes; eexists;
         split; [ reflexivity | apply Hempty ]).
  rewrite (validateWorldDocument_scan w roots Hnodes).
  destruct (scan_readable (worldAssets w) (reachedForest roots) Hread ∅)
    as [nodeErrors [seen1 [-> _]]].
  eexists. split; [ reflexivity | apply Hempty ].
Qed.

Lemma validateWorldDocument_returns_witness :
  exists validation,
    validateWorldDocument (VObject cousins) = Returns validation /\
    (valid validation = true <-> errors validation = []).
Proof. apply (validateWorldDocument_returns (VObject cousins)). reflexivity. Defined.

Lemma scan_own_errors assets l :
  forall seenIds errors seen1 before p node after,
    scan assets l seenIds = Returns (errors, seen1) ->
    l = before ++ (p, node) :: after ->
    exists seen0 own seen',
      ownErrors assets p node seen0 = Returns (own, seen') /\
      forall e, e ∈ own -> e ∈ errors.
Proof.
  induction l as [ | [p0 n0] rest IH ];
    intros seenIds errors seen1 before p node after Hscan Hl.
  - destruct before; discriminate.
  - cbn [scan] in Hscan.
    destruct (ownErrors assets p0 n0 seenIds) as [[e0 s1] | e] eqn:Hown;
      cbn [obind] in Hscan; [ | discriminate ].
    destruct (scan assets rest s1) as [[more s2] | e] eqn:Hrest;
      cbn [obind] in Hscan; [ | discriminate ].
    injection Hscan as <- <-.
    destruct before as [ | b before ].
    + injection Hl as <- <- <-. exists seenIds, e0, s1. split; [ exact Hown | ].
      intros e He. apply elem_of_app. left. exact He.
    + injection Hl as <- ->.
      destruct (IH _ _ _ _ _ _ _ Hrest eq_refl) as (seen0 & own & seen' & Hown' & Hsub).
      exists seen0, own, seen'. split; [ exact Hown' | ].
      intros e He. apply elem_of_app. right. apply Hsub. exact He.
Qed.





Import SerializerTerms.

Lemma findAssetById_found assets assetId found :
  findAssetById assets assetId = Returns (Some found) -> knownAsset assets assetId = true.
Proof.
  induction assets as [ | asset rest IH ]; [ discriminate | ].
  cbn [findAssetById knownAsset existsb].
  destruct asset as [ | | b | n | s | items | o ]; cbn [member obind strictEqualsString];
    try discriminate; try exact IH.
  destruct (strictEqualsString (get "id" o) assetId); [ reflexivity | exact IH ].
Qed.

Lemma validateNodeAssetReference_empty assetRef p assets :
  validateNodeAssetReference assetRef p assets = Returns [] -> resolves assets assetRef.
Proof.
  destruct assetRef as [ | | b | n | s | items | ref ]; try discriminate.
  cbn [validateNodeAssetReference].
  destruct (nonEmptyString (get "assetId" ref)) as [ assetId | ] eqn:Hid; [ | discriminate ].
  destruct (findAssetById (default [] assets) assetId) as [ [ found | ] | e ] eqn:Hfind;
    try discriminate.
  intros _. exists ref, assetId. split; [ reflexivity | ]. split; [ exact Hid | ].
  eapply findAssetById_found. exact Hfind.
Qed.

(** A reached value without errors of its own is a record with a
    fresh well-formed id, whose asset reference (if any) resolves. *)
Lemma ownErrors_empty assets p node seenIds seen1 :
  ownErrors assets p node seenIds = Returns ([], seen1) ->
  exists o id,
    node = VObject o /\ idOf node = Some id /\ (id ∉ seenIds) /\
    (forall y, y ∈ seen1 <-> y ∈ seenIds \/ y = id) /\
    (forall assetRef, own "asset" o = Some assetRef -> resolves assets assetRef).
Proof.
  intros Hown. pose proof (ownErrors_seen _ _ _ _ _ _ Hown) as Hseen.
  destruct node as [ | | b | n | s | items | o ]; try discriminate.
  cbn [ownErrors idOf] in *. unfold checkId in Hown.
  destruct (nonEmptyString (get "id" o)) as [ id | ] eqn:Hid.
  2: { destruct (match own "asset" o with Some _ => _ | None => _ end); discriminate. }
  destruct (decide (id ∈ seenIds)) as [ Hin | Hfresh ].
  { destruct (match own "asset" o with Some _ => _ | None => _ end); discriminate. }
  exists o, id. split; [ reflexivity | ]. split; [ reflexivity | ]. split; [ exact Hfresh | ].
  split.
  { intros y. rewrite Hseen. split; intros [ H | H ]; auto; right; congruence. }
  intros assetRef Hasset. rewrite Hasset in Hown.
  destruct (validateNodeAssetReference assetRef (p /> Field "asset") assets)
    as [ assetErrors | e ] eqn:Href; [ | discriminate ].
  cbn [obind] in Hown. injection Hown as Herrors _.
  cbn [app] in Herrors.
  do 4 (apply app_eq_nil in Herrors as [_ Herrors]).
  apply app_eq_nil in Herrors as [Herrors _]. subst assetErrors.
  eapply validateNodeAssetReference_empty. exact Href.
Qed.

Lemma scan_empty assets l : forall seenIds seen1,
  scan assets l seenIds = Returns ([], seen1) ->
  Forall (fun entry =>
            is_Some (idOf (snd entry)) /\
            forall o assetRef,
              snd entry = VObject o -> own "asset" o = Some assetRef ->
              resolves assets assetRef) l /\
  NoDup (idsOf l) /\
  (forall y, y ∈ idsOf l -> y ∉ seenIds).
Proof.
  induction l as [ | [p node] rest IH ]; intros seenIds seen1 Hscan.
  - split; [ constructor | ]. split; [ constructor | ].
    intros y Hy. apply elem_of_nil in Hy. contradiction.
  - cbn [scan] in Hscan.
    destruct (ownErrors assets p node seenIds) as [ [errors seen0] | e ] eqn:Hown;
      [ | discriminate ].
    cbn [obind] in Hscan.
    destruct (scan assets rest seen0) as [ [more seen2] | e ] eqn:Hrest; [ | discriminate ].
    cbn [obind] in Hscan. injection Hscan as Herrors _.
    apply app_eq_nil in Herrors as [-> ->].
    destruct (ownErrors_empty _ _ _ _ _ Hown) as (o & id & -> & Hid & Hfresh & Hseen0 & Hasset).
    destruct (IH seen0 seen2 Hrest) as (Hall & Hnd & Hdisjoint).
    assert (Hids : idsOf ((p, VObject o) :: rest) = id :: idsOf rest).
    { unfold idsOf. cbn [omap list_omap snd]. rewrite Hid. reflexivity. }
    split; [ | split ].
    + constructor; [ | exact Hall ]. cbn [snd]. split; [ rewrite Hid; eauto | ].
      intros o' assetRef [= <-]. apply Hasset.
    + rewrite Hids. constructor; [ | exact Hnd ].
      intros Hin. apply (Hdisjoint id Hin). apply Hseen0. right. reflexivity.
    + rewrite Hids. intros y Hy Hseen. apply elem_of_cons in Hy as [ -> | Hy ].
      * contradiction.
      * apply (Hdisjoint y Hy). apply Hseen0. left. exact Hseen.
Qed.

(** What a returned verdict of valid says about the parts of the
    document. *)
Lemma valid_parts world validation :
  validateWorldDocument world = Returns validation ->
  valid validation = true ->
  exists w roots seen1,
    world = VObject w /\
    get "nodes" w = VArray roots /\
    assetErrors (validateAssets (get "assets" w) [Name "assets"]) = [] /\
    scan (worldAssets w) (reachedForest roots) ∅ = Returns ([], seen1).
Proof.
  intros Hrun Hvalid.
  destruct world as [ | | b | n | s | items | w ];
    try (injection Hrun as <-; discriminate).
  destruct (get "nodes" w) as [ | | b | n | s | roots | o ] eqn:Hnodes;
    try (unfold validateWorldDocument in Hrun; rewrite Hnodes in Hrun;
         cbn [obind] in Hrun; injection Hrun as <-; cbn [valid] in Hvalid;
         destruct (assetErrors _); discriminate).
  rewrite (validateWorldDocument_scan w roots Hnodes) in Hrun.
  destruct (scan (worldAssets w) (reachedForest roots) ∅) as [ [nodeErrors seen1] | e ]
    eqn:Hscan; [ | discriminate ].
  cbn [obind] in Hrun. injection Hrun as <-. cbn [valid] in Hvalid.
  destruct (assetErrors (validateAssets (get "assets" w) [Name "assets"]) ++ nodeErrors)
    as [ | e rest ] eqn:Herrors; [ | discriminate ].
  apply app_eq_nil in Herrors as [Hassets ->].
  exists w, roots, seen1. repeat split; assumption.
Qed.

Lemma valid_document_ids world validation :
  validateWorldDocument world = Returns validation ->
  valid validation = true ->
  exists w roots,
    world = VObject w /\
    get "nodes" w = VArray roots /\
    Forall (fun entry => is_Some (idOf (snd entry))) (reachedForest roots).
Proof.
  intros Hrun Hvalid.
  destruct (valid_parts world validation Hrun Hvalid)
    as (w & roots & seen1 & -> & Hnodes & _ & Hscan).
  destruct (scan_empty _ _ _ _ Hscan) as (Hall & _ & _).
  exists w, roots. split; [ reflexivity | ]. split; [ exact Hnodes | ].
  eapply Forall_impl; [ exact Hall | ]. intros entry [H _]. exact H.
Qed.



Lemma validateAssetEntries_empty assets : forall index seenIds,
  validateAssetEntries assets [Name "assets"] index seenIds = [] ->
  Forall assetEntry assets /\
  NoDup (omap idOf assets) /\
  (forall y, y ∈ omap idOf assets -> y ∉ seenIds).
Proof.
  induction assets as [ | asset rest IH ]; intros index seenIds Hnone.
  - split; [ constructor | ]. split; [ constructor | ].
    intros y Hy. apply elem_of_nil in Hy. contradiction.
  - cbn [validateAssetEntries] in Hnone.
    destruct asset as [ | | b | n | s | items | o ]; try discriminate.
    cbn [validateAsset] in Hnone.
    pose proof (checkId_seen o ([Name "assets"] /> Index index) seenIds) as Hseen.
    unfold checkId in *.
    destruct (nonEmptyString (get "id" o)) as [ id | ] eqn:Hid; [ | discriminate ].
    destruct (decide (id ∈ seenIds)) as [ Hin | Hfresh ]; [ discriminate | ].
    cbn [snd fst app] in *.
    apply app_eq_nil in Hnone as [Hown Hrest].
    unfold requireNonEmptyString in Hown.
    destruct (nonEmptyString (get "uri" o)) as [ uri | ] eqn:Huri; [ | discriminate ].
    destruct (IH _ _ Hrest) as (Hall & Hnd & Hdisjoint).
    assert (Hids : omap idOf (VObject o :: rest) = id :: omap idOf rest).
    { cbn [omap list_omap idOf]. rewrite Hid. reflexivity. }
    split; [ | split ].
    + constructor; [ | exact Hall ]. exists o, id, uri. repeat split; assumption.
    + rewrite Hids. constructor; [ | exact Hnd ].
      intros Hin. apply (Hdisjoint id Hin). apply Hseen. right. reflexivity.
    + rewrite Hids. intros y Hy Hseen'. apply elem_of_cons in Hy as [ -> | Hy ].
      * contradiction.
      * apply (Hdisjoint y Hy). apply Hseen. left. exact Hseen'.
Qed.



(** X25: the validator looks at nothing but the fields it knows.
    Setting any other property of a node (adding it, or replacing its
    value) leaves the verdict on the node and its subtree as it was,
    errors and seen ids alike; so does setting a property of the
    document other than [assets] and [nodes]. *)
Theorem validator_ignores_unknown_fields key v :
  (key ∉ nodeFields ->
   forall o p assets seenIds,
     validateSceneNode (VObject (spreadWith key v o)) p assets seenIds
     = validateSceneNode (VObject o) p assets seenIds) /\
  (key ∉ ["assets"; "nodes"] ->
   forall w,
     validateWorldDocument (VObject (spreadWith key v w)) = validateWorldDocument (VObject w)).
Proof.
  split.
  - intros Hkey o p assets seenIds.
    assert (Hown : forall k, k ∈ nodeFields -> own k (spreadWith key v o) = own k o).
    { intros k Hk. apply own_spreadWith_other. intros ->. contradiction. }
    assert (Hget : forall k, k ∈ nodeFields -> get k (spreadWith key v o) = get k o).
    { intros k Hk. unfold get. rewrite (Hown k Hk). reflexivity. }
    assert (Hmem : forall k, bool_decide (k ∈ nodeFields) = true -> k ∈ nodeFields).
    { intros k. apply bool_decide_eq_true_1. }
    cbn [validateSceneNode]. unfold checkId, whenPresent.
    rewrite (Hget "id"), (Hown "name"), (Hown "tags"), (Hown "transform"),
      (Hown "components"), (Hown "asset")
      by (apply Hmem; reflexivity).
    destruct (nonEmptyString (get "id" o)); [ destruct (decide _) | ];
      (destruct (match own "asset" o with Some _ => _ | None => _ end);
       [ cbn [obind]; rewrite !withOwn_own, (Hown "children") by (apply Hmem; reflexivity);
         reflexivity
       | reflexivity ]).
  - intros Hkey w.
    assert (Hget : forall k, k ∈ ["assets"; "nodes"] -> get k (spreadWith key v w) = get k w).
    { intros k Hk. apply get_spreadWith_other. intros ->. contradiction. }
    unfold validateWorldDocument.
    rewrite (Hget "assets"), (Hget "nodes");
      [ reflexivity | apply (bool_decide_unpack _); reflexivity
      | apply (bool_decide_unpack _); reflexivity ].
Qed.

Lemma validator_ignores_unknown_fields_witness :
  validateWorldDocument
    (VObject (spreadWith "metadata" VNull [("nodes", VArray [VObject [("id", VString "n")]])]))
  = Returns (Validation true []).
Proof.
  destruct (validator_ignores_unknown_fields "metadata" VNull) as [_ Hworld].
  rewrite Hworld; [ reflexivity | ].
  apply (bool_decide_unpack _). vm_compute. exact I.
Defined.

End ValidatorFacts.

(** ** The Serializer *)

Module SerializerFacts.
Import Js Validator Serializer JsFacts SerializerTerms.

Lemma numberText_exact n :
  PrimFloat.is_finite n = true -> isNegativeZero n = false -> numberText n = JNumber n.
Proof.
  intros Hfin Hneg. unfold numberText. rewrite Hfin.
  destruct (PrimFloat.is_zero n) eqn:Hz; [ | reflexivity ].
  f_equal. symmetry. unfold isNegativeZero in Hneg. unfold PrimFloat.is_zero in Hz.
  rewrite FloatAxioms.eqb_spec in Hz. rewrite FloatAxioms.classify_spec in Hneg.
  apply Prim2SF_inj. change (Prim2SF PrimFloat.zero) with (S754_zero false) in *.
  destruct (Prim2SF n) as [ [ | ] | s | | s m e ]; try discriminate; try reflexivity.
  - destruct s; discriminate.
  - destruct s; discriminate.
Qed.

Lemma fromJson_members members :
  fromJson (JObject members) = VObject (foldl define [] members).
Proof. reflexivity. Qed.

Lemma foldl_define_fresh members : forall acc,
  NoDup (map fst acc ++ map fst members) ->
  foldl define acc members = acc ++ map (fun kv => (fst kv, fromJson (snd kv))) members.
Proof.
  induction members as [ | [k j] rest IH ]; intros acc Hnd; simpl.
  - rewrite app_nil_r. reflexivity.
  - simpl in Hnd. unfold define at 2. simpl.
    assert (Hfresh : k ∉ map fst acc).
    { apply NoDup_app in Hnd as (_ & Hdisj & _). intros Hin.
      apply (Hdisj k Hin). apply list_elem_of_here. }
    rewrite spreadWith_fresh by exact Hfresh.
    rewrite IH.
    + rewrite <- app_assoc. reflexivity.
    + rewrite map_app. simpl. rewrite <- app_assoc. exact Hnd.
Qed.

(** Plain JSON data is written and read back unchanged. *)
Lemma stringify_parse v :
  jsonData v = true -> exists j, JSON_stringify v = Some j /\ fromJson j = v.
Proof.
  induction v as [ | | b | n | s | items IH | o IH ] using value_induction;
    simpl; intros Hdata; try discriminate; try (eexists; split; reflexivity).
  - apply andb_true_iff in Hdata as [Hfin Hneg]. apply negb_true_iff in Hneg.
    exists (JNumber n). rewrite (numberText_exact n Hfin Hneg). split; reflexivity.
  - eexists. split; [ reflexivity | ]. simpl. f_equal.
    rewrite forallb_forall in Hdata. rewrite Forall_forall in IH.
    rewrite map_map. rewrite <- (map_id items) at 2. apply map_ext_in.
    intros item Hin. destruct (IH item) as [j [Hj Hback]].
    + apply list_elem_of_In. exact Hin.
    + apply Hdata. exact Hin.
    + rewrite Hj. exact Hback.
  - apply andb_true_iff in Hdata as [Hkeys Hvalues]. apply bool_decide_eq_true_1 in Hkeys.
    eexists. split; [ reflexivity | ]. rewrite fromJson_members. f_equal.
    assert (Hmembers : exists members,
              flat_map (fun kv => match JSON_stringify (snd kv) with
                                  | Some j => [(fst kv, j)]
                                  | None => []
                                  end) o = members /\
              map (fun kv => (fst kv, fromJson (snd kv))) members = o).
    { clear Hkeys. induction o as [ | [k x] rest IHrest ].
      - exists []. split; reflexivity.
      - simpl in Hvalues. apply andb_true_iff in Hvalues as [Hx Hrest].
        apply Forall_cons in IH as [IHx IH].
        destruct (IHx Hx) as [j [Hj Hback]].
        destruct (IHrest IH Hrest) as [members [Hflat Hmap]].
        exists ((k, j) :: members). simpl in *. rewrite Hj, Hflat. simpl.
        split; [ reflexivity | ]. rewrite Hback, Hmap. reflexivity. }
    destruct Hmembers as [members [-> Hmap]].
    rewrite foldl_define_fresh.
    + simpl. exact Hmap.
    + simpl. rewrite <- Hmap in Hkeys. rewrite map_map in Hkeys. simpl in Hkeys.
      exact Hkeys.
Qed.

(** The validator never looks at [version]. *)
Lemma validateWorldDocument_ignores_version v o :
  validateWorldDocument (VObject (spreadWith "version" v o)) = validateWorldDocument (VObject o).
Proof.
  unfold validateWorldDocument.
  rewrite !get_spreadWith_other by discriminate. reflexivity.
Qed.

Lemma requireValid_ignores_version v o :
  requireValid (VObject (spreadWith "version" v o)) = requireValid (VObject o).
Proof. unfold requireValid. rewrite validateWorldDocument_ignores_version. reflexivity. Qed.

Lemma valid_is_object world validation :
  validateWorldDocument world = Returns validation -> valid validation = true ->
  exists o, world = VObject o.
Proof.
  destruct world; simpl; intros H Hvalid;
    try (injection H as <-; discriminate).
  eexists. reflexivity.
Qed.

Lemma jsonData_stamped o :
  jsonData (VObject o) = true ->
  jsonData (VObject (spreadWith "version" (VNumber CURRENT_WORLD_SCHEMA_VERSION) o)) = true.
Proof.
  simpl. rewrite !andb_true_iff. intros [Hkeys Hvalues].
  apply bool_decide_eq_true_1 in Hkeys. split.
  - apply bool_decide_eq_true_2. rewrite keys_spreadWith. case_bool_decide as Hin.
    + exact Hkeys.
    + apply NoDup_app. split; [ exact Hkeys | ]. split; [ | apply NoDup_singleton ].
      intros k Hk Hk'. apply list_elem_of_singleton in Hk'. subst k. contradiction.
  - clear Hkeys. induction o as [ | [k x] rest IH ]; simpl in *; [ reflexivity | ].
    apply andb_true_iff in Hvalues as [Hx Hrest].
    destruct (String.eqb k "version"); simpl.
    + rewrite Hrest. reflexivity.
    + rewrite Hx. apply IH. exact Hrest.
Qed.

Section RoundTrip.
Variable toNumber : value -> outcome typeError float.

(** C1 (amended): for every document that passes validation and is
    plain JSON data (no [undefined], no number that is not finite or is
    [-0]), the round trip returns the document with [version] set to
    the current schema version: [version] is 1 and every other property
    is equal to the document's. *)
Theorem roundTrip_of_json_data doc validation :
  jsonData doc = true ->
  validateWorldDocument doc = Returns validation ->
  valid validation = true ->
  exists o result,
    doc = VObject o /\
    roundTrip toNumber doc = Returns (VObject result) /\
    result = spreadWith "version" (VNumber CURRENT_WORLD_SCHEMA_VERSION) o /\
    own "version" result = Some (VNumber CURRENT_WORLD_SCHEMA_VERSION) /\
    forall key, key <> "version" -> own key result = own key o.
Proof.
  intros Hdata Hvalidate Hvalid.
  destruct (valid_is_object doc validation Hvalidate Hvalid) as [o ->].
  exists o, (spreadWith "version" (VNumber CURRENT_WORLD_SCHEMA_VERSION) o).
  split; [ reflexivity | ]. split; [ | split; [ reflexivity | split ] ].
  - destruct (stringify_parse _ (jsonData_stamped o Hdata)) as [j [Hj Hback]].
    assert (Hreq : requireValid (VObject o) = Returns tt).
    { unfold requireValid. rewrite Hvalidate. cbn [native obind]. rewrite Hvalid. reflexivity. }
    unfold roundTrip, serializeWorld. rewrite Hreq. cbn [obind stampVersion].
    rewrite Hj. unfold deserializeWorld. cbn [JSON_parse obind]. rewrite Hback.
    set (o1 := spreadWith "version" (VNumber CURRENT_WORLD_SCHEMA_VERSION) o).
    assert (Hversion : get "version" o1 = VNumber CURRENT_WORLD_SCHEMA_VERSION).
    { unfold get, o1. rewrite own_spreadWith_same. reflexivity. }
    unfold defaultVersion. cbn [member obind]. rewrite Hversion. cbn [native obind versionOf].
    rewrite Hversion. cbn [greaterThan native obind].
    change (PrimFloat.ltb CURRENT_WORLD_SCHEMA_VERSION CURRENT_WORLD_SCHEMA_VERSION) with false.
    cbv iota. unfold o1. rewrite requireValid_ignores_version, Hreq. cbn [obind stampVersion].
    rewrite spreadWith_twice. reflexivity.
  - apply own_spreadWith_same.
  - intros key Hkey. apply own_spreadWith_other. exact Hkey.
Qed.

Lemma deserializeWorld_object members :
  deserializeWorld toNumber (Text (JObject members)) =
  let o := foldl define [] members in
  obind (native (greaterThan toNumber (parsedVersion o) CURRENT_WORLD_SCHEMA_VERSION))
    (fun future =>
       if (future : bool) then Throws (FutureSchemaVersion (parsedVersion o))
       else obind (requireValid (VObject o)) (fun _ =>
              Returns (VObject (spreadWith "version"
                                  (VNumber CURRENT_WORLD_SCHEMA_VERSION) o)))).
Proof.
  unfold deserializeWorld. cbn [JSON_parse obind]. rewrite fromJson_members.
  set (o := foldl define [] members). cbv zeta.
  unfold defaultVersion, parsedVersion. cbn [member obind].
  assert (Hzero : get "version" (spreadWith "version" (VNumber PrimFloat.zero) o)
                  = VNumber PrimFloat.zero).
  { unfold get. rewrite own_spreadWith_same. reflexivity. }
  destruct (get "version" o) eqn:Hversion; cbn [native obind versionOf];
    rewrite ?Hversion, ?Hzero; try reflexivity.
  destruct (native (greaterThan toNumber (VNumber PrimFloat.zero) CURRENT_WORLD_SCHEMA_VERSION))
    as [ [ | ] | e ]; cbn [obind]; try reflexivity.
  rewrite requireValid_ignores_version. cbn [stampVersion].
  rewrite spreadWith_twice. reflexivity.
Qed.

(** The version gate on a text that spells an object. An absent
    [version] counts as 0: the outcome is that of the same text with
    [version: 0] added. A number above 1 is refused with the
    future-version error whatever the body holds, the validator's
    verdict playing no part; for any other number (1 and every number
    below it, and NaN) the outcome is the validator's verdict on the
    body. *)
Lemma deserializeWorld_version_gate members :
  let o := foldl define [] members in
  (own "version" o = None ->
   deserializeWorld toNumber (Text (JObject members)) =
   deserializeWorld toNumber
     (Text (JObject (members ++ [("version", JNumber PrimFloat.zero)])))) /\
  (forall v, get "version" o = VNumber v -> PrimFloat.ltb 1%float v = true ->
   deserializeWorld toNumber (Text (JObject members)) =
   Throws (FutureSchemaVersion (VNumber v))) /\
  (forall v, get "version" o = VNumber v -> PrimFloat.ltb 1%float v = false ->
   deserializeWorld toNumber (Text (JObject members)) =
   obind (requireValid (VObject o)) (fun _ =>
     Returns (VObject (spreadWith "version" (VNumber CURRENT_WORLD_SCHEMA_VERSION) o)))).
Proof.
  cbv zeta. split; [ | split ].
  - intros Habsent.
    assert (Hzero : parsedVersion (foldl define [] members) = VNumber PrimFloat.zero).
    { unfold parsedVersion, get. rewrite Habsent. reflexivity. }
    rewrite !deserializeWorld_object. cbv zeta.
    rewrite foldl_app. cbn [foldl].
    change (define (foldl define [] members) ("version", JNumber PrimFloat.zero))
      with (spreadWith "version" (VNumber PrimFloat.zero) (foldl define [] members)).
    set (o := foldl define [] members) in *.
    assert (Hzero' : parsedVersion (spreadWith "version" (VNumber PrimFloat.zero) o)
                     = VNumber PrimFloat.zero).
    { unfold parsedVersion, get. rewrite own_spreadWith_same. reflexivity. }
    rewrite Hzero, Hzero', requireValid_ignores_version, spreadWith_twice. reflexivity.
  - intros v Hversion Hfuture. rewrite deserializeWorld_object. cbv zeta.
    unfold parsedVersion. rewrite Hversion. cbn [greaterThan native obind].
    unfold CURRENT_WORLD_SCHEMA_VERSION. rewrite Hfuture. reflexivity.
  - intros v Hversion Hcurrent. rewrite deserializeWorld_object. cbv zeta.
    unfold parsedVersion. rewrite Hversion. cbn [greaterThan native obind].
    unfold CURRENT_WORLD_SCHEMA_VERSION at 1. rewrite Hcurrent. reflexivity.
Qed.

(** C5 fails on the code: on a text that spells [null], a boolean, a
    number or a string, [deserializeWorld] throws a native TypeError at
    the [version] field (reading it off [null], assigning it to a
    primitive in module code). No version is defaulted and the
    validator is not run. Its verdict on every value that is not an
    object is the error [World must be an object], and that is what
    [deserializeWorld] throws on a text that spells an array, the one
    value of the kind the version can be assigned to. *)
Theorem deserializeWorld_throws_on_primitive :
  deserializeWorld toNumber (Text JNull) = Throws (Native TypeError) /\
  (forall b, deserializeWorld toNumber (Text (JBool b)) = Throws (Native TypeError)) /\
  (forall n, deserializeWorld toNumber (Text (JNumber n)) = Throws (Native TypeError)) /\
  (forall s, deserializeWorld toNumber (Text (JString s)) = Throws (Native TypeError)) /\
  (forall items,
     deserializeWorld toNumber (Text (JArray items))
     = Throws (InvalidWorld [Error [] WorldNotObject])) /\
  (forall j,
     match j with
     | JObject _ => True
     | _ => requireValid (fromJson j) = Throws (InvalidWorld [Error [] WorldNotObject])
     end).
Proof.
  repeat split; try reflexivity.
  intros j. destruct j; first [ exact I | reflexivity ].
Qed.

End RoundTrip.

Lemma deserializeWorld_version_gate_witness :
  deserializeWorld notANumber (Text (JObject futureText))
  = Throws (FutureSchemaVersion (VNumber 999%float)) /\
  deserializeWorld notANumber (Text (JObject [("nodes", JArray [])]))
  = Returns (VObject [("nodes", VArray []); ("version", VNumber 1%float)]).
Proof.
  split.
  - apply (deserializeWorld_version_gate notANumber futureText); reflexivity.
  - destruct (deserializeWorld_version_gate notANumber [("nodes", JArray [])])
      as [Habsent [_ Hcurrent]].
    etransitivity; [ apply Habsent; reflexivity | ].
    destruct (deserializeWorld_version_gate notANumber
                [("nodes", JArray []); ("version", JNumber PrimFloat.zero)])
      as [_ [_ Hzero]].
    etransitivity; [ apply (Hzero PrimFloat.zero); reflexivity | reflexivity ].
Defined.

Lemma roundTrip_of_json_data_witness :
  roundTrip notANumber DEFAULT_WORLD = Returns DEFAULT_WORLD.
Proof.
  destruct (roundTrip_of_json_data notANumber DEFAULT_WORLD (Validation true []))
    as [o [result [Hdoc [Hround [Hresult _]]]]].
  - vm_compute. reflexivity.
  - vm_compute. reflexivity.
  - reflexivity.
  - injection Hdoc as <-. rewrite Hround, Hresult. reflexivity.
Defined.

(** C1 as stated fails on a valid document that holds a number JSON
    cannot spell: [{ nodes: [], metadata: { k: NaN } }] passes
    validation and comes back with [metadata.k] being [null]. *)
Lemma roundTrip_nan_counterexample :
  let o := [("nodes", VArray []); ("metadata", VObject [("k", VNumber PrimFloat.nan)])] in
  let result := [("nodes", VArray []); ("metadata", VObject [("k", VNull)]);
                 ("version", VNumber CURRENT_WORLD_SCHEMA_VERSION)] in
  validateWorldDocument (VObject o) = Returns (Validation true []) /\
  roundTrip notANumber (VObject o) = Returns (VObject result) /\
  own "metadata" result <> own "metadata" o.
Proof.
  cbv zeta. split; [ vm_compute; reflexivity | ]. split; [ vm_compute; reflexivity | ].
  discriminate.
Qed.

Import Editor ValidatorTerms ValidatorFacts.

Lemma valid_verdict world validation :
  validateWorldDocument world = Returns validation ->
  valid validation = true -> validation = Validation true [].
Proof.
  intros Hrun Hvalid.
  destruct world as [ | | b | n | s | items | w ];
    try (injection Hrun as <-; discriminate).
  unfold validateWorldDocument in Hrun.
  destruct (match get "nodes" w with VArray _ => _ | _ => _ end) as [ nodeErrors | e ];
    [ | discriminate ].
  cbn [obind] in Hrun. injection Hrun as <-. cbn [valid] in Hvalid.
  destruct (assetErrors _ ++ nodeErrors); [ reflexivity | discriminate ].
Qed.

Lemma requireValid_returns world :
  requireValid world = Returns tt ->
  validateWorldDocument world = Returns (Validation true []).
Proof.
  unfold requireValid.
  destruct (validateWorldDocument world) as [ validation | e ] eqn:Hrun; [ | discriminate ].
  cbn [native obind]. destruct (valid validation) eqn:Hvalid; [ | discriminate ].
  intros _. rewrite (valid_verdict world validation Hrun Hvalid). reflexivity.
Qed.

Section Deserialized.
Variable toNumber : value -> outcome typeError float.

(** What [deserializeWorld] returns: an object that validated, with
    its version set. *)
Lemma deserializeWorld_returns serialized doc :
  deserializeWorld toNumber serialized = Returns doc ->
  exists o,
    validateWorldDocument (VObject o) = Returns (Validation true []) /\
    doc = VObject (spreadWith "version" (VNumber CURRENT_WORLD_SCHEMA_VERSION) o).
Proof.
  unfold deserializeWorld.
  destruct (JSON_parse serialized) as [ parsed | e ]; [ | discriminate ]. cbn [obind].
  destruct (defaultVersion parsed) as [ versioned | e ]; [ | discriminate ].
  cbn [native obind].
  destruct (greaterThan toNumber (versionOf versioned) CURRENT_WORLD_SCHEMA_VERSION)
    as [ [ | ] | e ]; try discriminate.
  cbn [native obind].
  destruct (requireValid versioned) as [ [] | e ] eqn:Hvalid; [ | discriminate ].
  cbn [obind]. intros [= <-].
  apply requireValid_returns in Hvalid.
  destruct (valid_is_object versioned _ Hvalid eq_refl) as [o ->].
  exists o. split; [ exact Hvalid | reflexivity ].
Qed.

(** X26: whatever text it is given, a document [deserializeWorld]
    returns is an object that passes [validateWorldDocument] as it
    stands, and its [version] is the current schema version. *)
Theorem deserializeWorld_returns_valid_document serialized doc :
  deserializeWorld toNumber serialized = Returns doc ->
  validateWorldDocument doc = Returns (Validation true []) /\
  exists o,
    doc = VObject o /\
    own "version" o = Some (VNumber CURRENT_WORLD_SCHEMA_VERSION).
Proof.
  intros Hrun. destruct (deserializeWorld_returns serialized doc Hrun) as (o & Hvalid & ->).
  split; [ rewrite validateWorldDocument_ignores_version; exact Hvalid | ].
  eexists. split; [ reflexivity | apply own_spreadWith_same ].
Qed.

(** X22: importing a document. On whatever [deserializeWorld]
    returns, reading [nodes[0]?.id] does not throw: the nodes are an
    array, and the id read is [undefined] when the array is empty and
    otherwise the non-empty string id of the first root node. *)
Theorem firstRootId_of_deserialized serialized doc :
  deserializeWorld toNumber serialized = Returns doc ->
  exists o roots,
    doc = VObject o /\
    get "nodes" o = VArray roots /\
    match roots with
    | [] => firstRootId doc = Returns VUndefined
    | root :: _ =>
        exists id,
          idOf root = Some id /\ trim id <> "" /\
          firstRootId doc = Returns (VString id)
    end.
Proof.
  intros Hrun. destruct (deserializeWorld_returns serialized doc Hrun) as (w & Hvalid & ->).
  destruct (valid_document_ids (VObject w) _ Hvalid eq_refl)
    as (w' & roots & [= <-] & Hnodes & Hids).
  eexists _, roots. split; [ reflexivity | ].
  assert (Hnodes' : get "nodes" (spreadWith "version" (VNumber CURRENT_WORLD_SCHEMA_VERSION) w)
                    = VArray roots).
  { rewrite get_spreadWith_other by discriminate. exact Hnodes. }
  split; [ exact Hnodes' | ].
  unfold firstRootId. cbn [member obind]. rewrite Hnodes'.
  destruct roots as [ | root rest ]; [ reflexivity | ].
  change (default VUndefined (head (root :: rest))) with root. cbn [obind].
  unfold reachedForest in Hids. cbn [flatMapIndexed] in Hids.
  destruct root as [ | | b | n | s | items | o ];
    try (inversion Hids as [ | ? ? [i Hi] _ ]; discriminate).
  inversion Hids as [ | ? ? [i Hi] _ ]; subst. cbn [snd idOf] in Hi.
  exists i. split; [ exact Hi | ].
  cbn [member]. unfold nonEmptyString in Hi. rename Hi into Hid.
  destruct (get "id" o) as [ | | b | n | s | items | o' ]; try discriminate.
  destruct (String.eqb_spec (trim s) "") as [ | Hne ]; [ discriminate | ].
  injection Hid as <-. split; [ exact Hne | reflexivity ].
Qed.

End Deserialized.

Lemma deserializeWorld_returns_valid_document_witness :
  validateWorldDocument (VObject [("nodes", VArray []); ("version", VNumber 1%float)])
  = Returns (Validation true []).
Proof.
  apply (deserializeWorld_returns_valid_document notANumber
           (Text (JObject [("nodes", JArray [])]))).
  reflexivity.
Defined.

Lemma firstRootId_of_deserialized_witness :
  exists id,
    firstRootId (VObject [("nodes", VArray [VObject [("id", VString "root")]]);
                          ("version", VNumber 1%float)])
    = Returns (VString id).
Proof.
  destruct (firstRootId_of_deserialized notANumber
              (Text (JObject [("nodes", JArray [JObject [("id", JString "root")]])]))
              (VObject [("nodes", VArray [VObject [("id", VString "root")]]);
                        ("version", VNumber 1%float)]) eq_refl)
    as (o & roots & Ho & Hnodes & Hfirst).
  injection Ho as <-. vm_compute in Hnodes. injection Hnodes as <-.
  destruct Hfirst as (id & _ & _ & Hfirst). exists id. exact Hfirst.
Defined.

Lemma readBack_object o : readBack (VObject o) = VObject (readBackProps o).
Proof. reflexivity. Qed.

Lemma readBackProps_cons k v rest :
  readBackProps ((k, v) :: rest) =
  match v with
  | VUndefined => readBackProps rest
  | _ => (k, readBack v) :: readBackProps rest
  end.
Proof. unfold readBackProps. cbn [flat_map fst snd]. destruct v; reflexivity. Qed.

Lemma readBackProps_keys o k : k ∈ map fst (readBackProps o) -> k ∈ map fst o.
Proof.
  induction o as [ | [k' v] rest IH ]; [ trivial | ].
  rewrite readBackProps_cons. cbn [map fst].
  destruct v; cbn [map fst]; rewrite ?elem_of_cons; intros H; try tauto;
    destruct H as [ H | H ]; auto.
Qed.

Lemma readBackProps_NoDup o : NoDup (map fst o) -> NoDup (map fst (readBackProps o)).
Proof.
  induction o as [ | [k v] rest IH ]; [ trivial | ].
  cbn [map fst]. intros Hnd. apply NoDup_cons in Hnd as [Hk Hrest].
  rewrite readBackProps_cons.
  destruct v; cbn [map fst]; try (apply IH; exact Hrest);
    (apply NoDup_cons; split; [ intros Hin; apply Hk, readBackProps_keys, Hin
                              | apply IH; exact Hrest ]).
Qed.

Lemma own_absent key o : key ∉ map fst o -> own key o = None.
Proof.
  induction o as [ | [k v] rest IH ]; [ reflexivity | ].
  cbn [map fst own]. rewrite not_elem_of_cons. intros [Hne Hrest].
  destruct (String.eqb_spec k key) as [ Heq | _ ]; [ congruence | apply IH; exact Hrest ].
Qed.

(** Reading a property of an object read back. *)
Lemma own_readBackProps key o :
  NoDup (map fst o) ->
  own key (readBackProps o) =
  match own key o with
  | Some VUndefined | None => None
  | Some v => Some (readBack v)
  end.
Proof.
  induction o as [ | [k v] rest IH ]; [ reflexivity | ].
  cbn [map fst]. intros Hnd. apply NoDup_cons in Hnd as [Hk Hrest].
  rewrite readBackProps_cons. cbn [own].
  destruct (String.eqb_spec k key) as [ -> | Hne ].
  - assert (Hgone : own key (readBackProps rest) = None).
    { apply own_absent. intros Hin. apply Hk, readBackProps_keys, Hin. }
    destruct v; cbn [own]; rewrite ?String.eqb_refl; try reflexivity. exact Hgone.
  - destruct v; cbn [own]; try (apply IH; exact Hrest);
      (destruct (String.eqb_spec k key) as [ Heq | _ ]; [ congruence | apply IH; exact Hrest ]).
Qed.

Lemma get_readBackProps key o :
  NoDup (map fst o) ->
  get key (readBackProps o) =
  match get key o with
  | VUndefined => VUndefined
  | v => readBack v
  end.
Proof.
  intros Hnd. unfold get. rewrite (own_readBackProps key o Hnd).
  destruct (own key o) as [ [] | ]; reflexivity.
Qed.

Lemma keys_sublist (o : props) members :
  members = flat_map (fun kv => match JSON_stringify (snd kv) with
                                | Some j => [(fst kv, j)]
                                | None => []
                                end) o ->
  NoDup (map fst o) -> NoDup (map fst members).
Proof.
  intros ->. induction o as [ | [k v] rest IH ]; [ trivial | ].
  cbn [map fst flat_map snd]. intros Hnd. apply NoDup_cons in Hnd as [Hk Hrest].
  destruct (JSON_stringify v); cbn [app map fst]; [ | apply IH; exact Hrest ].
  apply NoDup_cons. split; [ | apply IH; exact Hrest ].
  intros Hin. apply Hk. clear -Hin.
  induction rest as [ | [k' v'] rest IH ]; [ exact Hin | ].
  cbn [flat_map map fst snd] in *. destruct (JSON_stringify v'); cbn [app map fst] in Hin.
  - apply elem_of_cons in Hin as [ -> | Hin ]; [ apply list_elem_of_here | ].
    apply list_elem_of_further, IH, Hin.
  - apply list_elem_of_further, IH, Hin.
Qed.

Lemma stringify_undefined v : JSON_stringify v = None <-> v = VUndefined.
Proof. destruct v; cbn [JSON_stringify]; split; congruence. Qed.

(** Written and parsed, a value is its read-back ([undefined] read as
    an array element). *)
Lemma stringify_readBack v :
  distinctKeys v = true ->
  fromJson (default JNull (JSON_stringify v)) = readBack v.
Proof.
  induction v as [ | | b | n | s | items IH | o IH ] using value_induction;
    intros Hkeys; try reflexivity.
  - cbn [JSON_stringify default from_option id readBack]. unfold numberText.
    destruct (PrimFloat.is_finite n); reflexivity.
  - cbn [JSON_stringify default from_option id readBack fromJson]. f_equal.
    rewrite map_map. apply map_ext_in. intros item Hin.
    rewrite Forall_forall in IH. cbn [distinctKeys] in Hkeys.
    rewrite forallb_forall in Hkeys.
    apply IH; [ apply list_elem_of_In; exact Hin | apply Hkeys; exact Hin ].
  - cbn [distinctKeys] in Hkeys. apply andb_true_iff in Hkeys as [Hnd Hvalues].
    apply bool_decide_eq_true_1 in Hnd.
    change (fromJson (default JNull (JSON_stringify (VObject o))))
      with (fromJson (JObject (flat_map (fun kv => match JSON_stringify (snd kv) with
                                                   | Some j => [(fst kv, j)]
                                                   | None => []
                                                   end) o))).
    rewrite fromJson_members, readBack_object. f_equal.
    rewrite foldl_define_fresh.
    2: { cbn [map app]. eapply keys_sublist; [ reflexivity | exact Hnd ]. }
    cbn [app]. clear Hnd.
    induction o as [ | [k v] rest IHrest ]; [ reflexivity | ].
    apply Forall_cons in IH as [IHv IH]. cbn [forallb snd] in Hvalues.
    apply andb_true_iff in Hvalues as [Hv Hrest].
    rewrite readBackProps_cons. cbn [flat_map fst snd].
    specialize (IHv Hv). cbn [snd] in IHv.
    destruct (JSON_stringify v) as [ j | ] eqn:Hj.
    + cbn [app map fst snd]. cbn [default from_option id] in IHv. rewrite IHv.
      rewrite (IHrest IH Hrest).
      destruct v; try reflexivity. discriminate.
    + apply stringify_undefined in Hj. subst v. cbn [app]. apply IHrest; assumption.
Qed.

Lemma distinctKeys_stamped o :
  distinctKeys (VObject o) = true ->
  distinctKeys (VObject (spreadWith "version" (VNumber CURRENT_WORLD_SCHEMA_VERSION) o)) = true.
Proof.
  cbn [distinctKeys]. rewrite !andb_true_iff. intros [Hkeys Hvalues].
  apply bool_decide_eq_true_1 in Hkeys. split.
  - apply bool_decide_eq_true_2. rewrite keys_spreadWith. case_bool_decide as Hin.
    + exact Hkeys.
    + apply NoDup_app. split; [ exact Hkeys | ]. split; [ | apply NoDup_singleton ].
      intros k Hk Hk'. apply list_elem_of_singleton in Hk'. subst k. contradiction.
  - clear Hkeys. induction o as [ | [k x] rest IH ]; [ reflexivity | ].
    cbn [forallb snd spreadWith] in *.
    apply andb_true_iff in Hvalues as [Hx Hrest].
    destruct (String.eqb k "version"); cbn [forallb snd].
    + rewrite Hrest. reflexivity.
    + rewrite Hx. apply IH. exact Hrest.
Qed.

(** *** What reading back keeps *)

Lemma nonEmptyString_readBack v s :
  nonEmptyString v = Some s -> v = VString s /\ readBack v = VString s.
Proof.
  destruct v as [ | | b | n | t | items | o ]; try discriminate. cbn [nonEmptyString].
  destruct (String.eqb (trim t) ""); [ discriminate | ]. intros [= ->]. split; reflexivity.
Qed.

Lemma isString_readBack v : isString (readBack v) = isString v.
Proof.
  destruct v as [ | | b | n | t | items | o ]; try reflexivity.
  cbn [readBack]. destruct (PrimFloat.is_finite n); reflexivity.
Qed.

Lemma isObject_readBack v : isObject (readBack v) = isObject v.
Proof.
  destruct v as [ | | b | n | t | items | o ]; try reflexivity.
  cbn [readBack]. destruct (PrimFloat.is_finite n); reflexivity.
Qed.

Lemma strictEqualsString_readBack v s :
  strictEqualsString (readBack v) s = strictEqualsString v s.
Proof.
  destruct v as [ | | b | n | t | items | o ]; try reflexivity.
  cbn [readBack]. destruct (PrimFloat.is_finite n); reflexivity.
Qed.

Lemma isFiniteNumber_readBack v : isFiniteNumber v = true -> isFiniteNumber (readBack v) = true.
Proof.
  destruct v as [ | | b | n | t | items | o ]; try discriminate.
  cbn [isFiniteNumber readBack]. intros Hfin. rewrite Hfin. cbn [isFiniteNumber].
  destruct (PrimFloat.is_zero n); [ reflexivity | exact Hfin ].
Qed.

Lemma falsy_readBack v : truthy v = false -> truthy (readBack v) = false.
Proof.
  destruct v as [ | | b | n | t | items | o ]; try discriminate; try trivial.
  cbn [truthy readBack]. intros Hfalsy.
  destruct (PrimFloat.is_finite n) eqn:Hfin; [ | reflexivity ].
  destruct (PrimFloat.is_zero n) eqn:Hzero; [ reflexivity | ].
  cbn [truthy]. rewrite Hzero. exact Hfalsy.
Qed.

(** A property that holds a thing of one of these kinds holds one
    after reading back. *)
Lemma get_readBack_string key o s :
  NoDup (map fst o) -> nonEmptyString (get key o) = Some s ->
  get key (readBackProps o) = VString s.
Proof.
  intros Hnd Hs. apply nonEmptyString_readBack in Hs as [Hget _].
  rewrite (get_readBackProps key o Hnd), Hget. reflexivity.
Qed.

Lemma get_readBack_finite key o :
  NoDup (map fst o) -> isFiniteNumber (get key o) = true ->
  isFiniteNumber (get key (readBackProps o)) = true.
Proof.
  intros Hnd Hfin. rewrite (get_readBackProps key o Hnd).
  pose proof (isFiniteNumber_readBack _ Hfin) as H.
  destruct (get key o); try discriminate. exact H.
Qed.

(** [whenPresent] after reading back, for a check that rejects
    [undefined]. *)
Lemma whenPresent_readBack key o (check check' : value -> list error) :
  NoDup (map fst o) ->
  check VUndefined <> [] ->
  (forall v, own key o = Some v -> check v = [] -> check' (readBack v) = []) ->
  whenPresent key o check = [] -> whenPresent key (readBackProps o) check' = [].
Proof.
  intros Hnd Hundefined Hkeeps. unfold whenPresent.
  rewrite (own_readBackProps key o Hnd).
  destruct (own key o) as [ v | ]; [ | reflexivity ].
  intros Hv. specialize (Hkeeps v eq_refl Hv).
  destruct v; try exact Hkeeps. contradiction.
Qed.

Lemma distinctKeys_object o :
  distinctKeys (VObject o) = true ->
  NoDup (map fst o) /\ forall key v, own key o = Some v -> distinctKeys v = true.
Proof.
  cbn [distinctKeys]. intros H. apply andb_true_iff in H as [Hnd Hvalues].
  apply bool_decide_eq_true_1 in Hnd. split; [ exact Hnd | ].
  intros key v Hown. apply own_In in Hown. rewrite forallb_forall in Hvalues.
  exact (Hvalues _ Hown).
Qed.

Lemma distinctKeys_get key o :
  distinctKeys (VObject o) = true -> distinctKeys (get key o) = true.
Proof.
  intros H. destruct (distinctKeys_object o H) as [_ Hvalues]. unfold get.
  destruct (own key o) as [ v | ] eqn:Hown; [ exact (Hvalues key v Hown) | reflexivity ].
Qed.

Lemma distinctKeys_items items item :
  distinctKeys (VArray items) = true -> item ∈ items -> distinctKeys item = true.
Proof.
  cbn [distinctKeys]. rewrite forallb_forall. intros H Hin.
  apply H, list_elem_of_In, Hin.
Qed.

(** *** The validator on a value read back *)

Lemma validateAxes_readBack axes o p p' :
  NoDup (map fst o) ->
  validateAxes axes o p = [] -> validateAxes axes (readBackProps o) p' = [].
Proof.
  intros Hnd. unfold validateAxes.
  induction axes as [ | key axes IH ]; [ reflexivity | ].
  cbn [flat_map]. intros H. apply app_eq_nil in H as [Hkey Hrest].
  rewrite (IH Hrest), app_nil_r.
  destruct (isFiniteNumber (get key o)) eqn:Hfin; [ | discriminate ].
  rewrite (get_readBack_finite key o Hnd Hfin). reflexivity.
Qed.

Lemma validateVector3_readBack v p p' :
  distinctKeys v = true ->
  validateVector3 v p = [] -> validateVector3 (readBack v) p' = [].
Proof.
  destruct v as [ | | b | n | t | items | o ]; try discriminate.
  intros Hkeys. apply distinctKeys_object in Hkeys as [Hnd _].
  rewrite readBack_object. apply validateAxes_readBack. exact Hnd.
Qed.

Lemma validateQuaternion_readBack v p p' :
  distinctKeys v = true ->
  validateQuaternion v p = [] -> validateQuaternion (readBack v) p' = [].
Proof.
  destruct v as [ | | b | n | t | items | o ]; try discriminate.
  intros Hkeys. apply distinctKeys_object in Hkeys as [Hnd _].
  rewrite readBack_object. apply validateAxes_readBack. exact Hnd.
Qed.

Lemma validateTransform_readBack v p p' :
  distinctKeys v = true ->
  validateTransform v p = [] -> validateTransform (readBack v) p' = [].
Proof.
  destruct v as [ | | b | n | t | items | o ]; try discriminate.
  intros Hkeys. destruct (distinctKeys_object o Hkeys) as [Hnd Hvalues].
  rewrite readBack_object. cbn [validateTransform]. intros H.
  apply app_eq_nil in H as [Hposition H]. apply app_eq_nil in H as [Hrotation Hscale].
  rewrite (whenPresent_readBack "position" o
             (fun v => validateVector3 v (p /> Field "position"))
             (fun v => validateVector3 v (p' /> Field "position")) Hnd);
    [ | discriminate
      | intros v Hv; apply validateVector3_readBack; exact (Hvalues _ _ Hv)
      | exact Hposition ].
  rewrite (whenPresent_readBack "rotation" o
             (fun v => validateQuaternion v (p /> Field "rotation"))
             (fun v => validateQuaternion v (p' /> Field "rotation")) Hnd);
    [ | discriminate
      | intros v Hv; apply validateQuaternion_readBack; exact (Hvalues _ _ Hv)
      | exact Hrotation ].
  rewrite (whenPresent_readBack "scale" o
             (fun v => validateVector3 v (p /> Field "scale"))
             (fun v => validateVector3 v (p' /> Field "scale")) Hnd);
    [ | discriminate
      | intros v Hv; apply validateVector3_readBack; exact (Hvalues _ _ Hv)
      | exact Hscale ].
  reflexivity.
Qed.

Lemma validateTags_readBack v p p' :
  validateTags v p = [] -> validateTags (readBack v) p' = [].
Proof.
  destruct v as [ | | b | n | t | items | o ]; try discriminate.
  cbn [validateTags readBack].
  destruct (forallb isString items) eqn:Hall; [ intros _ | discriminate ].
  assert (Hsame : forallb isString (map readBack items) = true).
  { rewrite forallb_forall in Hall |- *. intros item Hin.
    apply in_map_iff in Hin as (x & <- & Hx).
    rewrite isString_readBack. apply Hall. exact Hx. }
  rewrite Hsame. reflexivity.
Qed.

Lemma requireObjectWhenPresent_readBack key o p p' :
  NoDup (map fst o) ->
  requireObjectWhenPresent key o p = [] ->
  requireObjectWhenPresent key (readBackProps o) p' = [].
Proof.
  intros Hnd. unfold requireObjectWhenPresent.
  apply whenPresent_readBack; [ exact Hnd | discriminate | ].
  intros v _. rewrite isObject_readBack. destruct (isObject v); [ trivial | discriminate ].
Qed.

Lemma requireNonEmptyString_readBack key o p p' :
  NoDup (map fst o) ->
  requireNonEmptyString key o p = [] ->
  requireNonEmptyString key (readBackProps o) p' = [].
Proof.
  intros Hnd. unfold requireNonEmptyString.
  destruct (nonEmptyString (get key o)) as [ s | ] eqn:Hs; [ intros _ | discriminate ].
  pose proof (get_readBack_string key o s Hnd Hs) as Hgot.
  destruct (nonEmptyString_readBack _ _ Hs) as [Hget _].
  rewrite Hgot. rewrite Hget in Hs. rewrite Hs. reflexivity.
Qed.

Lemma validateComponent_readBack c p p' :
  distinctKeys c = true ->
  validateComponent c p = [] -> validateComponent (readBack c) p' = [].
Proof.
  destruct c as [ | | b | n | t | items | o ]; try discriminate.
  intros Hkeys. apply distinctKeys_object in Hkeys as [Hnd _].
  rewrite readBack_object. cbn [validateComponent]. intros H.
  apply app_eq_nil in H as [Htype Hdata].
  rewrite (requireNonEmptyString_readBack "type" o p p' Hnd Htype).
  rewrite (requireObjectWhenPresent_readBack "data" o p p' Hnd Hdata). reflexivity.
Qed.

Lemma concat_imap_nil {A B} (f : nat -> A -> list B) (l : list A) :
  concat (imap f l) = [] <-> forall i x, l !! i = Some x -> f i x = [].
Proof.
  revert f. induction l as [ | y l IH ]; intros f.
  - split; [ intros _ i x Hi; discriminate | reflexivity ].
  - cbn [imap concat]. split.
    + intros H. apply app_eq_nil in H as [Hy Hl]. intros [ | i ] x Hi.
      * injection Hi as <-. exact Hy.
      * exact (proj1 (IH _) Hl i x Hi).
    + intros H. rewrite (H 0 y eq_refl). apply (IH (f ∘ S)).
      intros i x Hi. exact (H (S i) x Hi).
Qed.

Lemma validateComponents_readBack v p p' :
  distinctKeys v = true ->
  validateComponents v p = [] -> validateComponents (readBack v) p' = [].
Proof.
  destruct v as [ | | b | n | t | items | o ]; try discriminate.
  intros Hkeys. cbn [validateComponents readBack]. rewrite !concat_imap_nil.
  intros Hall i c Hi. apply list_lookup_fmap_Some in Hi as (x & -> & Hx).
  apply validateComponent_readBack with (p := p /> Index i).
  - apply (distinctKeys_items items x Hkeys). apply list_elem_of_lookup. eauto.
  - exact (Hall i x Hx).
Qed.

Lemma findAssetById_readBack assets assetId found :
  records assets ->
  findAssetById assets assetId = Returns (Some found) ->
  exists found', findAssetById (map readBack assets) assetId = Returns (Some found').
Proof.
  induction 1 as [ | asset rest [Hobject Hkeys] _ IH ]; [ discriminate | ].
  destruct asset as [ | | b | n | t | items | o ]; try discriminate.
  apply distinctKeys_object in Hkeys as [Hnd _].
  cbn [map findAssetById]. rewrite readBack_object. cbn [member obind].
  rewrite (get_readBackProps "id" o Hnd).
  assert (Hsame : strictEqualsString
                    match get "id" o with VUndefined => VUndefined | v => readBack v end
                    assetId
                  = strictEqualsString (get "id" o) assetId).
  { destruct (get "id" o) eqn:Hid; try reflexivity;
      rewrite <- Hid at 1; rewrite strictEqualsString_readBack, Hid; reflexivity. }
  rewrite Hsame. destruct (strictEqualsString (get "id" o) assetId); [ eauto | exact IH ].
Qed.

Lemma validateNodeAssetReference_readBack assetRef p p' assets :
  distinctKeys assetRef = true ->
  records (default [] assets) ->
  validateNodeAssetReference assetRef p assets = Returns [] ->
  validateNodeAssetReference (readBack assetRef) p' (option_map (map readBack) assets)
  = Returns [].
Proof.
  intros Hkeys Hrecords.
  destruct assetRef as [ | | b | n | t | items | ref ]; try discriminate.
  apply distinctKeys_object in Hkeys as [Hnd _].
  rewrite readBack_object. cbn [validateNodeAssetReference].
  destruct (nonEmptyString (get "assetId" ref)) as [ assetId | ] eqn:Hid; [ | discriminate ].
  rewrite (get_readBack_string "assetId" ref assetId Hnd Hid).
  destruct (nonEmptyString_readBack _ _ Hid) as [Hget _]. rewrite Hget in Hid. rewrite Hid.
  destruct (findAssetById (default [] assets) assetId) as [ [ found | ] | e ] eqn:Hfind;
    try discriminate.
  cbn [obind app]. intros [= Hoptions].
  assert (Hdefault : default [] (option_map (map readBack) assets)
                     = map readBack (default [] assets)).
  { destruct assets; reflexivity. }
  rewrite Hdefault.
  destruct (findAssetById_readBack _ _ _ Hrecords Hfind) as [found' ->].
  cbn [obind app].
  rewrite (requireObjectWhenPresent_readBack "options" ref p p' Hnd Hoptions). reflexivity.
Qed.

(** The own errors of a reached value: none before, none after. *)
Lemma ownErrors_readBack assets p node seenIds seen1 :
  distinctKeys node = true ->
  records (default [] assets) ->
  ownErrors assets p node seenIds = Returns ([], seen1) ->
  ownErrors (option_map (map readBack) assets) p (readBack node) seenIds
  = Returns ([], seen1).
Proof.
  intros Hkeys Hrecords.
  destruct node as [ | | b | n | t | items | o ]; try discriminate.
  destruct (distinctKeys_object o Hkeys) as [Hnd Hvalues].
  rewrite readBack_object. cbn [ownErrors]. unfold checkId.
  destruct (nonEmptyString (get "id" o)) as [ id | ] eqn:Hid.
  2: { destruct (match own "asset" o with Some _ => _ | None => _ end); discriminate. }
  rewrite (get_readBack_string "id" o id Hnd Hid).
  destruct (nonEmptyString_readBack _ _ Hid) as [Hget _]. rewrite Hget in Hid. rewrite Hid.
  destruct (decide (id ∈ seenIds)) as [ Hin | Hfresh ].
  { destruct (match own "asset" o with Some _ => _ | None => _ end); discriminate. }
  rewrite (own_readBackProps "asset" o Hnd), (own_readBackProps "children" o Hnd).
  destruct (match own "asset" o with
            | Some v => validateNodeAssetReference v (p /> Field "asset") assets
            | None => Returns []
            end) as [ assetErrors | e ] eqn:Hasset; [ | discriminate ].
  cbn [obind app]. intros [= Hname Hseen]. subst seen1.
  apply app_eq_nil in Hname as [Hname H]. apply app_eq_nil in H as [Htags H].
  apply app_eq_nil in H as [Htransform H]. apply app_eq_nil in H as [Hcomponents H].
  apply app_eq_nil in H as [-> Hchildren].
  assert (Hasset' :
            match match own "asset" o with
                  | Some VUndefined | None => None
                  | Some v => Some (readBack v)
                  end with
            | Some v => validateNodeAssetReference v (p /> Field "asset")
                          (option_map (map readBack) assets)
            | None => Returns []
            end = Returns []).
  { destruct (own "asset" o) as [ assetRef | ] eqn:Hown; [ | reflexivity ].
    pose proof (validateNodeAssetReference_readBack assetRef _ (p /> Field "asset") assets
                  (Hvalues _ _ Hown) Hrecords Hasset) as H.
    destruct assetRef; try exact H. discriminate. }
  rewrite Hasset'. cbn [obind app].
  rewrite (whenPresent_readBack "name" o
             (fun v => if isString v then []
                       else [Error (p /> Field "name") NotStringWhenPresent])
             (fun v => if isString v then []
                       else [Error (p /> Field "name") NotStringWhenPresent]) Hnd);
    [ | discriminate
      | intros v _; rewrite isString_readBack; trivial
      | exact Hname ].
  rewrite (whenPresent_readBack "tags" o
             (fun v => validateTags v (p /> Field "tags"))
             (fun v => validateTags v (p /> Field "tags")) Hnd);
    [ | discriminate
      | intros v _; apply validateTags_readBack
      | exact Htags ].
  rewrite (whenPresent_readBack "transform" o
             (fun v => validateTransform v (p /> Field "transform"))
             (fun v => validateTransform v (p /> Field "transform")) Hnd);
    [ | discriminate
      | intros v Hv; apply validateTransform_readBack; exact (Hvalues _ _ Hv)
      | exact Htransform ].
  rewrite (whenPresent_readBack "components" o
             (fun v => validateComponents v (p /> Field "components"))
             (fun v => validateComponents v (p /> Field "components")) Hnd);
    [ | discriminate
      | intros v Hv; apply validateComponents_readBack; exact (Hvalues _ _ Hv)
      | exact Hcomponents ].
  cbn [app].
  destruct (own "children" o) as [ [ | | b | n | t | items | o' ] | ];
    try discriminate; reflexivity.
Qed.

Lemma flatMapIndexed_readBack (pathOf : nat -> path) items :
  Forall (fun item => distinctKeys item = true ->
            forall q, reached (readBack item) q = map readBackEntry (reached item q)) items ->
  forallb distinctKeys items = true ->
  forall index,
    flatMapIndexed (fun child index => reached child (pathOf index)) (map readBack items) index
    = map readBackEntry
        (flatMapIndexed (fun child index => reached child (pathOf index)) items index).
Proof.
  induction 1 as [ | item rest Hitem _ IH ]; intros Hkeys index; [ reflexivity | ].
  cbn [forallb] in Hkeys. apply andb_true_iff in Hkeys as [Hk Hrest].
  cbn [map flatMapIndexed]. rewrite map_app, (Hitem Hk), (IH Hrest). reflexivity.
Qed.

(** Reading back a node reads back the values reached in it, at the
    same paths. *)
Lemma reached_readBack node :
  distinctKeys node = true ->
  forall p, reached (readBack node) p = map readBackEntry (reached node p).
Proof.
  enough (H : (distinctKeys node = true ->
               forall p, reached (readBack node) p = map readBackEntry (reached node p)) /\
              match node with
              | VArray items =>
                  Forall (fun item => distinctKeys item = true ->
                            forall q, reached (readBack item) q
                                      = map readBackEntry (reached item q)) items
              | _ => True
              end) by apply H.
  induction node as [ | | b | n | s | items IH | o IH ] using value_induction;
    try (split; [ reflexivity | exact I ]).
  - split; [ | exact I ]. intros _ p. unfold readBackEntry.
    cbn [map fst snd readBack reached]. destruct (PrimFloat.is_finite n); reflexivity.
  - split; [ reflexivity | ].
    apply Forall_impl with (1 := IH). intros item H. apply H.
  - split; [ | exact I ]. intros Hkeys p.
    destruct (distinctKeys_object o Hkeys) as [Hnd Hvalues].
    rewrite readBack_object. cbn [reached map]. unfold readBackEntry at 1. cbn [fst snd].
    rewrite readBack_object. f_equal.
    rewrite !withOwn_own, (own_readBackProps "children" o Hnd).
    destruct (own "children" o) as [ children | ] eqn:Hchildren; [ | reflexivity ].
    destruct children as [ | | b | n | s | items | o' ]; try reflexivity.
    + cbn [readBack]. destruct (PrimFloat.is_finite n); reflexivity.
    + rewrite Forall_forall in IH.
      destruct (IH ("children", VArray items)) as [_ Hitems].
      { apply list_elem_of_In, own_In. exact Hchildren. }
      cbn [snd readBack] in *.
      apply (flatMapIndexed_readBack
               (fun index => p /> Field "children" /> Index index) items Hitems).
      exact (Hvalues _ _ Hchildren).
Qed.

Lemma reachedForest_readBack roots :
  forallb distinctKeys roots = true ->
  reachedForest (map readBack roots) = map readBackEntry (reachedForest roots).
Proof.
  intros Hkeys. unfold reachedForest.
  apply (flatMapIndexed_readBack (fun index => [Name "nodes"; Index index])); [ | exact Hkeys ].
  apply Forall_forall. intros item _ Hitem. apply reached_readBack. exact Hitem.
Qed.

Lemma reached_distinctKeys node :
  distinctKeys node = true ->
  forall p, Forall (fun entry => distinctKeys (snd entry) = true) (reached node p).
Proof.
  enough (H : (distinctKeys node = true ->
               forall p, Forall (fun entry => distinctKeys (snd entry) = true)
                           (reached node p)) /\
              match node with
              | VArray items =>
                  Forall (fun item => distinctKeys item = true ->
                            forall q, Forall (fun entry => distinctKeys (snd entry) = true)
                                        (reached item q)) items
              | _ => True
              end) by apply H.
  induction node as [ | | b | n | s | items IH | o IH ] using value_induction;
    try solve [ split; [ intros _ p; repeat constructor | exact I ] ].
  - split; [ intros Hkeys p; repeat constructor; exact Hkeys | ].
    apply Forall_impl with (1 := IH). intros item H. apply H.
  - split; [ | exact I ]. intros Hkeys p.
    destruct (distinctKeys_object o Hkeys) as [Hnd Hvalues].
    cbn [reached]. apply Forall_cons_2; [ exact Hkeys | ].
    rewrite withOwn_own.
    destruct (own "children" o) as [ children | ] eqn:Hchildren; [ | constructor ].
    destruct children as [ | | b | n | s | items | o' ]; try constructor.
    rewrite Forall_forall in IH.
    destruct (IH ("children", VArray items)) as [_ Hitems].
    { apply list_elem_of_In, own_In. exact Hchildren. }
    cbn [snd] in Hitems. pose proof (Hvalues _ _ Hchildren) as Hkids.
    cbn [distinctKeys] in Hkids. clear -Hitems Hkids.
    generalize 0 as index.
    induction Hitems as [ | item rest Hitem _ IH ]; intros index; [ constructor | ].
    cbn [forallb] in Hkids. apply andb_true_iff in Hkids as [Hk Hrest].
    cbn [flatMapIndexed]. apply Forall_app_2; [ apply Hitem; exact Hk | apply IH; exact Hrest ].
Qed.

Lemma scan_readBack assets l :
  records (default [] assets) ->
  Forall (fun entry => distinctKeys (snd entry) = true) l ->
  forall seenIds seen1,
    scan assets l seenIds = Returns ([], seen1) ->
    scan (option_map (map readBack) assets) (map readBackEntry l) seenIds
    = Returns ([], seen1).
Proof.
  intros Hrecords. induction 1 as [ | [p node] rest Hnode _ IH ]; intros seenIds seen1 Hscan;
    [ exact Hscan | ].
  cbn [scan] in Hscan.
  destruct (ownErrors assets p node seenIds) as [ [errors seen0] | e ] eqn:Hown;
    [ | discriminate ].
  cbn [obind] in Hscan.
  destruct (scan assets rest seen0) as [ [more seen2] | e ] eqn:Hrest; [ | discriminate ].
  cbn [obind] in Hscan. injection Hscan as Herrors <-.
  apply app_eq_nil in Herrors as [-> ->].
  cbn [map scan]. unfold readBackEntry at 1. cbn [fst snd].
  rewrite (ownErrors_readBack assets p node seenIds seen0 Hnode Hrecords Hown). cbn [obind].
  rewrite (IH seen0 seen2 Hrest). reflexivity.
Qed.

Lemma validateAssetEntries_readBack assets : forall index seenIds,
  forallb distinctKeys assets = true ->
  validateAssetEntries assets [Name "assets"] index seenIds = [] ->
  validateAssetEntries (map readBack assets) [Name "assets"] index seenIds = [].
Proof.
  induction assets as [ | asset rest IH ]; intros index seenIds Hkeys Hnone; [ reflexivity | ].
  cbn [forallb] in Hkeys. apply andb_true_iff in Hkeys as [Hk Hrest].
  cbn [validateAssetEntries] in Hnone.
  destruct asset as [ | | b | n | s | items | o ]; try discriminate.
  destruct (distinctKeys_object o Hk) as [Hnd _].
  cbn [map validateAssetEntries]. rewrite readBack_object.
  cbn [validateAsset] in *. unfold checkId in *.
  destruct (nonEmptyString (get "id" o)) as [ id | ] eqn:Hid; [ | discriminate ].
  rewrite (get_readBack_string "id" o id Hnd Hid).
  destruct (nonEmptyString_readBack _ _ Hid) as [Hget _]. rewrite Hget in Hid. rewrite Hid.
  destruct (decide (id ∈ seenIds)) as [ Hin | Hfresh ]; [ discriminate | ].
  cbn [app] in *. apply app_eq_nil in Hnone as [Hown Hmore].
  apply app_eq_nil in Hown as [Huri Htype].
  rewrite (requireNonEmptyString_readBack "uri" o _ ([Name "assets"] /> Index index) Hnd Huri).
  assert (Htype' : truthy (get "type" (readBackProps o))
                   && negb (isString (get "type" (readBackProps o))) = false).
  { rewrite (get_readBackProps "type" o Hnd).
    destruct (truthy (get "type" o) && negb (isString (get "type" o))) eqn:Hbefore;
      [ discriminate | ].
    apply andb_false_iff in Hbefore as [ Hfalsy | Hstring ].
    - apply falsy_readBack in Hfalsy.
      destruct (get "type" o); try reflexivity; rewrite Hfalsy; reflexivity.
    - apply negb_false_iff in Hstring.
      destruct (get "type" o); try discriminate. apply andb_false_r. }
  rewrite Htype'. cbn [app]. apply IH; assumption.
Qed.

Lemma reachedForest_distinctKeys roots :
  forallb distinctKeys roots = true ->
  Forall (fun entry => distinctKeys (snd entry) = true) (reachedForest roots).
Proof.
  unfold reachedForest. generalize 0 as index.
  induction roots as [ | root rest IH ]; intros index Hkeys; [ constructor | ].
  cbn [forallb] in Hkeys. apply andb_true_iff in Hkeys as [Hk Hrest].
  cbn [flatMapIndexed]. apply Forall_app_2; [ | apply IH; exact Hrest ].
  apply reached_distinctKeys. exact Hk.
Qed.

Lemma worldAssets_readBack w :
  NoDup (map fst w) ->
  worldAssets (readBackProps w) = option_map (map readBack) (worldAssets w).
Proof.
  intros Hnd. unfold worldAssets, validateAssets.
  rewrite (get_readBackProps "assets" w Hnd).
  destruct (get "assets" w) as [ | | b | n | s | items | o ]; try reflexivity.
  cbn [readBack]. destruct (PrimFloat.is_finite n); reflexivity.
Qed.

(** A document that validates still validates after it was written
    and read back. *)
Lemma validateWorldDocument_readBack w :
  distinctKeys (VObject w) = true ->
  validateWorldDocument (VObject w) = Returns (Validation true []) ->
  validateWorldDocument (readBack (VObject w)) = Returns (Validation true []).
Proof.
  intros Hkeys Hvalid.
  destruct (distinctKeys_object w Hkeys) as [Hnd Hvalues].
  destruct (valid_parts _ _ Hvalid eq_refl) as (w' & roots & seen1 & [= <-] & Hnodes & Hassets & Hscan).
  assert (Hroots : forallb distinctKeys roots = true).
  { pose proof (distinctKeys_get "nodes" w Hkeys) as H. rewrite Hnodes in H. exact H. }
  assert (Hnodes' : get "nodes" (readBackProps w) = VArray (map readBack roots)).
  { rewrite (get_readBackProps "nodes" w Hnd), Hnodes. reflexivity. }
  assert (Hrecords : records (default [] (worldAssets w))).
  { unfold worldAssets, validateAssets in *.
    pose proof (distinctKeys_get "assets" w Hkeys) as Hitems.
    destruct (get "assets" w) as [ | | b | n | s | items | o ]; try constructor.
    cbn [assetErrors assetList default] in *.
    destruct (validateAssetEntries_empty items 0 ∅ Hassets) as (Hentries & _ & _).
    cbn [distinctKeys] in Hitems. rewrite forallb_forall in Hitems.
    apply Forall_forall. intros e He. rewrite Forall_forall in Hentries.
    destruct (Hentries e He) as (o & _ & _ & -> & _).
    split; [ reflexivity | apply Hitems, list_elem_of_In, He ]. }
  assert (Hassets' : assetErrors (validateAssets (get "assets" (readBackProps w))
                                    [Name "assets"]) = []).
  { unfold validateAssets in *. rewrite (get_readBackProps "assets" w Hnd).
    pose proof (distinctKeys_get "assets" w Hkeys) as Hitems.
    destruct (get "assets" w) as [ | | b | n | s | items | o ]; try discriminate;
      try reflexivity.
    cbn [readBack assetErrors] in *. apply validateAssetEntries_readBack; assumption. }
  rewrite readBack_object, (validateWorldDocument_scan _ _ Hnodes').
  rewrite (worldAssets_readBack w Hnd), (reachedForest_readBack roots Hroots).
  rewrite (scan_readBack _ _ Hrecords (reachedForest_distinctKeys roots Hroots) _ _ Hscan).
  cbn [obind]. rewrite Hassets'. reflexivity.
Qed.

Lemma spreadWith_same key v o : own key o = Some v -> spreadWith key v o = o.
Proof.
  induction o as [ | [k x] rest IH ]; [ discriminate | ].
  cbn [own spreadWith]. destruct (String.eqb k key); [ intros [= ->]; reflexivity | ].
  intros H. rewrite (IH H). reflexivity.
Qed.

Section ReadBack.
Variable toNumber : value -> outcome typeError float.

(** What the round trip makes of a document that validates. *)
Lemma roundTrip_readBack o :
  distinctKeys (VObject o) = true ->
  validateWorldDocument (VObject o) = Returns (Validation true []) ->
  roundTrip toNumber (VObject o) = Returns (readBack (stampVersion (VObject o))).
Proof.
  intros Hkeys Hvalid.
  pose proof (distinctKeys_stamped o Hkeys) as Hstamped.
  set (o1 := spreadWith "version" (VNumber CURRENT_WORLD_SCHEMA_VERSION) o) in *.
  assert (Hreq : requireValid (VObject o) = Returns tt).
  { unfold requireValid. rewrite Hvalid. reflexivity. }
  pose proof (stringify_readBack (VObject o1) Hstamped) as Hback.
  unfold roundTrip, serializeWorld. rewrite Hreq. cbn [obind stampVersion]. fold o1.
  change (JSON_stringify (VObject o1))
    with (Some (JObject (flat_map (fun kv => match JSON_stringify (snd kv) with
                                             | Some j => [(fst kv, j)]
                                             | None => []
                                             end) o1))) in *.
  cbn [default from_option id] in Hback.
  unfold deserializeWorld. cbn [JSON_parse obind]. rewrite Hback, readBack_object.
  destruct (distinctKeys_object o1 Hstamped) as [Hnd1 _].
  assert (Hversion : own "version" (readBackProps o1)
                     = Some (VNumber CURRENT_WORLD_SCHEMA_VERSION)).
  { rewrite (own_readBackProps "version" o1 Hnd1). unfold o1.
    rewrite own_spreadWith_same. reflexivity. }
  assert (Hget : get "version" (readBackProps o1) = VNumber CURRENT_WORLD_SCHEMA_VERSION).
  { unfold get. rewrite Hversion. reflexivity. }
  unfold defaultVersion. cbn [member obind]. rewrite Hget. cbn [native obind versionOf].
  rewrite Hget. cbn [greaterThan native obind].
  change (PrimFloat.ltb CURRENT_WORLD_SCHEMA_VERSION CURRENT_WORLD_SCHEMA_VERSION) with false.
  cbv iota.
  assert (Hvalid1 : validateWorldDocument (VObject (readBackProps o1))
                    = Returns (Validation true [])).
  { rewrite <- readBack_object. apply validateWorldDocument_readBack; [ exact Hstamped | ].
    unfold o1. rewrite validateWorldDocument_ignores_version. exact Hvalid. }
  unfold requireValid. rewrite Hvalid1. cbn [native obind valid stampVersion].
  rewrite (spreadWith_same _ _ _ Hversion). reflexivity.
Qed.

End ReadBack.

Lemma readBack_defined v : readBack v <> VUndefined.
Proof.
  destruct v as [ | | b | n | t | items | o ]; try discriminate.
  cbn [readBack]. destruct (PrimFloat.is_finite n); discriminate.
Qed.

(** Reading back a second time changes nothing. *)
Lemma readBack_idempotent v : readBack (readBack v) = readBack v.
Proof.
  induction v as [ | | b | n | s | items IH | o IH ] using value_induction;
    try reflexivity.
  - cbn [readBack]. destruct (PrimFloat.is_finite n) eqn:Hfin; [ | reflexivity ].
    destruct (PrimFloat.is_zero n) eqn:Hzero; cbn [readBack].
    + reflexivity.
    + rewrite Hfin, Hzero. reflexivity.
  - cbn [readBack]. f_equal. rewrite map_map. apply map_ext_in. intros item Hin.
    rewrite Forall_forall in IH. apply IH, list_elem_of_In, Hin.
  - rewrite !readBack_object. f_equal.
    induction o as [ | [k v] rest IHrest ]; [ reflexivity | ].
    apply Forall_cons in IH as [IHv IH]. cbn [snd] in IHv.
    rewrite (readBackProps_cons k v rest).
    destruct v; try (rewrite readBackProps_cons, IHv, (IHrest IH);
                     match goal with
                     | |- match ?x with _ => _ end = _ =>
                         destruct x eqn:Hx; try reflexivity;
                         exfalso; exact (readBack_defined _ Hx)
                     end).
    exact (IHrest IH).
Qed.

Lemma distinctKeys_readBack v : distinctKeys v = true -> distinctKeys (readBack v) = true.
Proof.
  induction v as [ | | b | n | s | items IH | o IH ] using value_induction;
    try reflexivity.
  - intros _. cbn [readBack]. destruct (PrimFloat.is_finite n); reflexivity.
  - cbn [distinctKeys readBack]. rewrite !forallb_forall. intros Hkeys item Hin.
    apply in_map_iff in Hin as (x & <- & Hx). rewrite Forall_forall in IH.
    apply IH; [ apply list_elem_of_In, Hx | apply Hkeys, Hx ].
  - intros Hkeys. rewrite readBack_object. cbn [distinctKeys] in *.
    apply andb_true_iff in Hkeys as [Hnd Hvalues]. apply bool_decide_eq_true_1 in Hnd.
    apply andb_true_iff. split.
    + apply bool_decide_eq_true_2, readBackProps_NoDup, Hnd.
    + clear Hnd. induction o as [ | [k v] rest IHrest ]; [ reflexivity | ].
      apply Forall_cons in IH as [IHv IH]. cbn [forallb snd] in *.
      apply andb_true_iff in Hvalues as [Hv Hrest].
      rewrite readBackProps_cons.
      destruct v; cbn [forallb snd]; try (rewrite (IHv Hv)); cbn [andb];
        exact (IHrest IH Hrest).
Qed.

Section RoundTripOfValid.
Variable toNumber : value -> outcome typeError float.

(** X28: every document that validates survives export and import.
    [deserializeWorld(serializeWorld(doc))] returns for it, and what it
    returns is the document with [version] set to the current one, read
    back from JSON: properties that held [undefined] are gone, numbers
    that were not finite are [null], [-0] is [0]. The result validates,
    and a second round trip returns it unchanged. *)
Theorem roundTrip_of_valid_document doc validation :
  distinctKeys doc = true ->
  validateWorldDocument doc = Returns validation ->
  valid validation = true ->
  let result := readBack (stampVersion doc) in
  roundTrip toNumber doc = Returns result /\
  validateWorldDocument result = Returns (Validation true []) /\
  roundTrip toNumber result = Returns result.
Proof.
  intros Hkeys Hrun Hvalid. cbv zeta.
  rewrite (valid_verdict doc validation Hrun Hvalid) in Hrun.
  destruct (valid_is_object doc _ Hrun eq_refl) as [o ->].
  pose proof (roundTrip_readBack toNumber o Hkeys Hrun) as Htrip.
  cbn [stampVersion] in *.
  set (o1 := spreadWith "version" (VNumber CURRENT_WORLD_SCHEMA_VERSION) o) in *.
  pose proof (distinctKeys_stamped o Hkeys) as Hstamped. fold o1 in Hstamped.
  assert (Hvalid1 : validateWorldDocument (readBack (VObject o1))
                    = Returns (Validation true [])).
  { apply validateWorldDocument_readBack; [ exact Hstamped | ].
    unfold o1. rewrite validateWorldDocument_ignores_version. exact Hrun. }
  split; [ exact Htrip | ]. split; [ exact Hvalid1 | ].
  rewrite readBack_object in *.
  rewrite (roundTrip_readBack toNumber (readBackProps o1)).
  - cbn [stampVersion]. destruct (distinctKeys_object o1 Hstamped) as [Hnd1 _].
    rewrite spreadWith_same.
    + rewrite <- readBack_object, readBack_idempotent. reflexivity.
    + rewrite (own_readBackProps "version" o1 Hnd1). unfold o1.
      rewrite own_spreadWith_same. reflexivity.
  - rewrite <- readBack_object. apply distinctKeys_readBack. exact Hstamped.
  - exact Hvalid1.
Qed.

End RoundTripOfValid.

Lemma roundTrip_of_valid_document_witness :
  roundTrip notANumber looseWorld
  = Returns
      (VObject
         [("metadata", VObject [("seed", VNull)]);
          ("assets", VArray [VObject [("id", VString "a"); ("uri", VString "/a.gltf")]]);
          ("nodes", VArray [VObject [("id", VString "n");
                                     ("asset", VObject [("assetId", VString "a")])]]);
          ("version", VNumber 1%float)]).
Proof.
  apply (roundTrip_of_valid_document notANumber looseWorld (Validation true []));
    reflexivity.
Defined.

End SerializerFacts.

(** ** The Tree Index *)

Module TreeIndexFacts.
Import TreeIndex TreeIndexTerms.

Lemma node_induction (P : node -> Prop) :
  (forall r i o, P (Node r i o None)) ->
  (forall r i o a items, Forall P items -> P (Node r i o (Some (a, items)))) ->
  forall n, P n.
Proof.
  intros Hleaf Hinner. fix IH 1. intros [r i o [[a items] | ]].
  - apply Hinner. induction items as [ | x xs IHxs ]; constructor; [ apply IH | exact IHxs ].
  - apply Hleaf.
Qed.

Lemma subtreeAt_step items i deeper :
  subtreeAt items (i :: deeper) =
  match items !! i with
  | Some n =>
      match deeper, children n with
      | [], _ => Some n
      | _, Some (_, kids) => subtreeAt kids deeper
      | _, None => None
      end
  | None => None
  end.
Proof. reflexivity. Qed.

Lemma arraysBelow_mono bound bound' n :
  bound <= bound' -> arraysBelow bound n = true -> arraysBelow bound' n = true.
Proof.
  intros Hle. induction n as [ r i o | r i o a items IH ] using node_induction;
    simpl; [ reflexivity | ].
  rewrite !andb_true_iff, !forallb_forall, !Nat.ltb_lt. intros [Ha Hitems].
  split; [ lia | ]. intros x Hx. rewrite Forall_forall in IH.
  apply IH; [ apply list_elem_of_In; exact Hx | apply Hitems; exact Hx ].
Qed.

Section Update.
Variable target : string.
Variable updater : node -> option node.

Local Abbreviation visit := (visit target updater).
Local Abbreviation updateNodeById := (updateNodeById target updater).

(** [visit], one step unfolded. *)
Lemma visit_unfold n next :
  visit n next =
    let '((kids, childChanged), next1) :=
      match children n with
      | Some input =>
          let '((output, c), next1) := updateNodeById input next in
          ((Some output, c), next1)
      | None => ((None, false), next)
      end in
    let changed := String.eqb (id n) target && differentNode (nextNode target updater n) n in
    if differentChildren (children n) kids || differentNode (nextNode target updater n) n
    then ((Node next1 (id (nextNode target updater n)) (others (nextNode target updater n)) kids,
           changed || childChanged), S next1)
    else ((nextNode target updater n, changed || childChanged), next1).
Proof.
  destruct n as [r i o [input | ]]; simpl; unfold nextNode, updateNodeById; simpl.
  - destruct (mapOrKeep visit input next) as [[output c] next1]. reflexivity.
  - reflexivity.
Qed.

Lemma differentNode_same n : differentNode n n = false.
Proof. unfold differentNode. rewrite Nat.eqb_refl. reflexivity. Qed.

Lemma differentChildren_same c : differentChildren c c = false.
Proof. destruct c as [[a items] | ]; simpl; [ rewrite Nat.eqb_refl | ]; reflexivity. Qed.

Lemma mapOrKeep_unfold (callback : node -> alloc (node * bool)) input next :
  mapOrKeep callback input next =
  let r := mapNodes callback (snd input) (S next) in
  ((if snd (fst r) then (next, fst (fst r)) else input, snd (fst r)), snd r).
Proof.
  unfold mapOrKeep, fresh.
  destruct (mapNodes callback (snd input) (S next)) as [[items c] next1]. reflexivity.
Qed.

Lemma mapNodes_untouched (callback : node -> alloc (node * bool)) items :
  Forall (fun n => forall next, fst (callback n next) = (n, false)) items ->
  forall next, fst (mapNodes callback items next) = (items, false).
Proof.
  induction 1 as [ | n rest Hn _ IH ]; intros next; simpl; [ reflexivity | ].
  specialize (Hn next). destruct (callback n next) as [[n' c1] next1]. simpl in Hn.
  specialize (IH next1). destruct (mapNodes callback rest next1) as [[rest' c2] next2].
  simpl in IH. injection Hn as -> ->. injection IH as -> ->. reflexivity.
Qed.

Lemma mapOrKeep_untouched (callback : node -> alloc (node * bool)) input :
  Forall (fun n => forall next, fst (callback n next) = (n, false)) (snd input) ->
  forall next, fst (mapOrKeep callback input next) = (input, false).
Proof.
  intros Hall next. unfold mapOrKeep. simpl.
  pose proof (mapNodes_untouched callback (snd input) Hall (S next)) as H.
  destruct (mapNodes callback (snd input) (S next)) as [[items c] next1].
  simpl in H. injection H as -> ->. reflexivity.
Qed.

(** A subtree that holds no node with the target id comes back as the
    very same object, and does not set [changed]. *)
Lemma visit_untouched n :
  target ∉ nodeIds n -> forall next, fst (visit n next) = (n, false).
Proof.
  induction n as [ r i o | r i o a items IH ] using node_induction; intros Hnot next.
  - rewrite visit_unfold. unfold nextNode. simpl in *.
    destruct (String.eqb_spec i target) as [ -> | _ ].
    + exfalso. apply Hnot. apply list_elem_of_here.
    + simpl. unfold differentNode. simpl. rewrite ?Nat.eqb_refl. reflexivity.
  - rewrite visit_unfold. unfold nextNode. simpl in *.
    apply not_elem_of_cons in Hnot as [Hi Hrest].
    assert (Hall : Forall (fun n => forall next, fst (visit n next) = (n, false)) items).
    { rewrite Forall_forall in IH |- *. intros n Hn. apply IH; [ exact Hn | ].
      intros Hin. apply Hrest. apply list_elem_of_In, in_flat_map.
      exists n. split; apply list_elem_of_In; assumption. }
    pose proof (mapOrKeep_untouched visit (a, items) Hall next) as Hkeep.
    unfold updateNodeById.
    destruct (mapOrKeep visit (a, items) next) as [[output c] next1].
    simpl in Hkeep. injection Hkeep as -> ->.
    destruct (String.eqb_spec i target) as [ -> | _ ]; [ congruence | ].
    simpl. unfold differentNode. simpl. rewrite ?Nat.eqb_refl. reflexivity.
Qed.

Lemma mapNodes_lookup (callback : node -> alloc (node * bool)) items :
  forall next i n, items !! i = Some n ->
  exists next_i,
    fst (fst (mapNodes callback items next)) !! i = Some (fst (fst (callback n next_i))).
Proof.
  induction items as [ | x rest IH ]; intros next i n Hi; [ discriminate | ].
  simpl. destruct (callback x next) as [[x' c1] next1] eqn:Hx.
  specialize (IH next1).
  destruct (mapNodes callback rest next1) as [[rest' c2] next2]. simpl in *.
  destruct i as [ | i ].
  - injection Hi as <-. exists next. rewrite Hx. reflexivity.
  - exact (IH i n Hi).
Qed.

Lemma orNode_same_reference n :
  differentNode (nextNode target updater n) n = false -> nextNode target updater n = n.
Proof.
  unfold nextNode, orNode.
  destruct (String.eqb (id n) target); [ | reflexivity ].
  destruct (updater n) as [ n' | ]; [ | reflexivity ].
  destruct (differentNode n' n) eqn:Hd; [ | reflexivity ].
  intros H. congruence.
Qed.

Lemma updateNodeById_shares_subtree input :
  forall next i n, snd input !! i = Some n ->
  snd (nodesOf (updateNodeById input next)) !! i = Some n \/
  exists next_i,
    snd (nodesOf (updateNodeById input next)) !! i = Some (fst (fst (visit n next_i))).
Proof.
  intros next i n Hi. unfold nodesOf, updateNodeById, mapOrKeep. simpl.
  destruct (mapNodes_lookup visit (snd input) (S next) i n Hi) as [next_i Hlook].
  destruct (mapNodes visit (snd input) (S next)) as [[items c] next1]. simpl in *.
  destruct c; simpl; [ right; exists next_i; exact Hlook | left; exact Hi ].
Qed.

(** C6: when no node of the forest has the target id, the call
    returns [changed = false] and the input forest itself; and in every
    case each subtree that holds no node with the target id (a subtree
    off every path from a root to a matched node) is, at its position
    in the returned forest, the same object as in the input. *)
Theorem updateNodeById_structural_sharing input next :
  (target ∉ flattenNodeIds input ->
   changedOf (updateNodeById input next) = false /\
   nodesOf (updateNodeById input next) = input) /\
  (forall position n,
     subtreeAt (snd input) position = Some n ->
     target ∉ nodeIds n ->
     subtreeAt (snd (nodesOf (updateNodeById input next))) position = Some n).
Proof.
  split.
  - intros Hnot.
    assert (Hall : Forall (fun n => forall next, fst (visit n next) = (n, false)) (snd input)).
    { apply Forall_forall. intros n Hn. apply visit_untouched.
      intros Hin. apply Hnot. unfold flattenNodeIds.
      apply list_elem_of_In, in_flat_map. exists n. split; apply list_elem_of_In; assumption. }
    pose proof (mapOrKeep_untouched visit input Hall next) as H.
    unfold changedOf, nodesOf, updateNodeById. rewrite H. split; reflexivity.
  - intros position. revert input next.
    induction position as [ | i deeper IH ]; intros input next n Hsub Hnot; [ discriminate | ].
    rewrite subtreeAt_step in Hsub |- *.
    destruct (snd input !! i) as [ x | ] eqn:Hi; [ | discriminate ].
    destruct (updateNodeById_shares_subtree input next i x Hi) as [ Hsame | [next_i Hnew] ].
    { rewrite Hsame. exact Hsub. }
    rewrite Hnew.
    destruct deeper as [ | j deeper ].
    + injection Hsub as ->. rewrite (visit_untouched n Hnot next_i). reflexivity.
    + destruct (children x) as [[a kids] | ] eqn:Hkids; [ | discriminate ].
      rewrite visit_unfold, Hkids.
      pose proof (IH (a, kids) next_i n Hsub Hnot) as Hdeep.
      unfold nodesOf in Hdeep.
      destruct (updateNodeById (a, kids) next_i) as [[output c] next1].
      cbn [fst snd] in Hdeep.
      destruct (differentChildren (Some (a, kids)) (Some output)
                || differentNode (nextNode target updater x) x) eqn:Hspread; cbn [fst snd children].
      * destruct output as [b kids']. exact Hdeep.
      * apply orb_false_iff in Hspread as [_ Hnode].
        rewrite (orNode_same_reference x Hnode), Hkids. exact Hsub.
Qed.

Lemma mapNodes_lookup_from (callback : node -> alloc (node * bool)) items :
  (forall n next, next <= snd (callback n next)) ->
  forall next i n, items !! i = Some n ->
  next <= snd (mapNodes callback items next) /\
  exists next_i,
    next <= next_i /\
    fst (fst (mapNodes callback items next)) !! i = Some (fst (fst (callback n next_i))).
Proof.
  intros Hmono. induction items as [ | x rest IH ]; intros next i n Hi; [ discriminate | ].
  simpl. pose proof (Hmono x next) as Hx1.
  destruct (callback x next) as [[x' c1] next1] eqn:Hx.
  specialize (IH next1).
  destruct (mapNodes callback rest next1) as [[rest' c2] next2] eqn:Hrest. simpl in *.
  destruct i as [ | i ].
  - injection Hi as <-. split.
    + destruct rest as [ | y rest ]; simpl in Hrest.
      * injection Hrest as <- <- <-. exact Hx1.
      * destruct (IH 0 y eq_refl) as [Hle _]. lia.
    + exists next. rewrite Hx. split; [ lia | reflexivity ].
  - destruct (IH i n Hi) as [Hle [next_i [Hle_i Hlook]]].
    split; [ lia | ]. exists next_i. split; [ lia | exact Hlook ].
Qed.

Lemma mapNodes_next_le (callback : node -> alloc (node * bool)) items :
  Forall (fun n => forall next, next <= snd (callback n next)) items ->
  forall next, next <= snd (mapNodes callback items next).
Proof.
  induction 1 as [ | x rest Hx _ IH ]; intros next; simpl; [ lia | ].
  specialize (Hx next). destruct (callback x next) as [[x' c1] next1].
  specialize (IH next1). destruct (mapNodes callback rest next1) as [[rest' c2] next2].
  simpl in *. lia.
Qed.

(** References are handed out in increasing order. *)
Lemma visit_next_le n : forall next, next <= snd (visit n next).
Proof.
  induction n as [ r i o | r i o a items IH ] using node_induction; intros next;
    rewrite visit_unfold; cbn [children].
  - destruct (differentChildren None None || differentNode (nextNode target updater (Node r i o None))
                (Node r i o None)); simpl; lia.
  - unfold updateNodeById. rewrite mapOrKeep_unfold. cbn [fst snd].
    pose proof (mapNodes_next_le visit items IH (S next)) as Hle.
    destruct (mapNodes visit items (S next)) as [[items' c] next1]. cbn [fst snd] in *.
    match goal with |- context [if ?b then _ else _] => destruct b end; simpl; lia.
Qed.

(** A visit that does not set [changed] returns the node itself. *)
Lemma mapNodes_unchanged (callback : node -> alloc (node * bool)) items :
  Forall (fun n => forall next, snd (fst (callback n next)) = false ->
                                fst (fst (callback n next)) = n) items ->
  forall next, snd (fst (mapNodes callback items next)) = false ->
               fst (fst (mapNodes callback items next)) = items.
Proof.
  induction 1 as [ | x rest Hx _ IH ]; intros next; simpl; [ reflexivity | ].
  specialize (Hx next). destruct (callback x next) as [[x' c1] next1].
  specialize (IH next1). destruct (mapNodes callback rest next1) as [[rest' c2] next2].
  simpl in *. intros Hc. apply orb_false_iff in Hc as [-> ->].
  rewrite Hx, IH; reflexivity.
Qed.

Lemma visit_unchanged n :
  forall next, snd (fst (visit n next)) = false -> fst (fst (visit n next)) = n.
Proof.
  assert (Hmatched : forall n, String.eqb (id n) target && differentNode (nextNode target updater n) n = false ->
                               nextNode target updater n = n).
  { intros m Hm. apply orNode_same_reference.
    destruct (String.eqb (id m) target) eqn:Hid; [ exact Hm | ].
    unfold nextNode. rewrite Hid. apply differentNode_same. }
  induction n as [ r i o | r i o a items IH ] using node_induction; intros next;
    rewrite visit_unfold; cbn [children].
  - set (n := Node r i o None). cbn [differentChildren orb].
    destruct (differentNode (nextNode target updater n) n) eqn:Hd; cbn [fst snd].
    + rewrite orb_false_r. intros Hm.
      rewrite <- Hd in Hm. apply Hmatched in Hm. rewrite Hm, differentNode_same in Hd.
      discriminate.
    + intros _. apply orNode_same_reference. exact Hd.
  - set (n := Node r i o (Some (a, items))).
    unfold updateNodeById. rewrite mapOrKeep_unfold. cbn [fst snd].
    pose proof (mapNodes_unchanged visit items IH (S next)) as Hkeep.
    destruct (mapNodes visit items (S next)) as [[items' c] next1]. cbn [fst snd] in *.
    destruct c.
    { match goal with |- context [if ?b then _ else _] => destruct b end;
        cbn [fst snd]; rewrite orb_true_r; discriminate. }
    cbn [differentChildren fst]. rewrite Nat.eqb_refl. cbn [negb orb].
    destruct (differentNode (nextNode target updater n) n) eqn:Hd; cbn [fst snd].
    + rewrite orb_false_r. intros Hm.
      rewrite <- Hd in Hm. apply Hmatched in Hm. rewrite Hm, differentNode_same in Hd.
      discriminate.
    + intros _. apply orNode_same_reference. exact Hd.
Qed.

(** Where a node of the input stands, the output holds what [visit]
    made of it. *)
Lemma updateNodeById_lookup input next i n :
  snd input !! i = Some n ->
  exists next_i,
    next <= next_i /\
    snd (nodesOf (updateNodeById input next)) !! i = Some (fst (fst (visit n next_i))).
Proof.
  intros Hi. unfold nodesOf, updateNodeById. rewrite mapOrKeep_unfold. cbn [fst snd].
  destruct (mapNodes_lookup_from visit (snd input) (fun n next => visit_next_le n next)
              (S next) i n Hi) as [_ [next_i [Hle Hlook]]].
  pose proof (mapNodes_unchanged visit (snd input)) as Hkeep.
  destruct (mapNodes visit (snd input) (S next)) as [[items c] next1] eqn:Hmap.
  cbn [fst snd] in *. exists next_i. split; [ lia | ].
  destruct c; cbn [fst snd]; [ exact Hlook | ].
  rewrite <- Hlook. f_equal. symmetry.
  specialize (Hkeep (proj2 (Forall_forall _ _) (fun n _ => visit_unchanged n)) (S next)).
  rewrite Hmap in Hkeep. apply Hkeep. reflexivity.
Qed.

(** One node: whatever the updater returned, the node put in its place
    has the processed original children; id and other properties are
    those of the updater's result. *)
Lemma visit_children n next :
  arraysBelow next n = true ->
  children (fst (fst (visit n next))) =
    match children n with
    | Some kids => Some (nodesOf (updateNodeById kids next))
    | None => None
    end /\
  id (fst (fst (visit n next))) = id (nextNode target updater n) /\
  others (fst (fst (visit n next))) = others (nextNode target updater n).
Proof.
  intros Hbelow. rewrite visit_unfold.
  destruct (children n) as [ input | ] eqn:Hkids.
  - unfold nodesOf.
    assert (Hfresh : (fst input <? next)%nat = true).
    { destruct n as [r i o c]. simpl in Hkids. subst c. destruct input as [a items].
      simpl in Hbelow. apply andb_true_iff in Hbelow as [Ha _]. exact Ha. }
    assert (Hout : snd (fst (updateNodeById input next)) = true ->
                   fst (fst (fst (updateNodeById input next))) = next).
    { unfold updateNodeById. rewrite mapOrKeep_unfold. cbn [fst snd].
      destruct (mapNodes visit (snd input) (S next)) as [[items c] next1]. cbn [fst snd].
      intros ->. reflexivity. }
    assert (Hsame : snd (fst (updateNodeById input next)) = false ->
                    fst (fst (updateNodeById input next)) = input).
    { unfold updateNodeById. rewrite mapOrKeep_unfold. cbn [fst snd].
      destruct (mapNodes visit (snd input) (S next)) as [[items c] next1]. cbn [fst snd].
      intros ->. reflexivity. }
    destruct (updateNodeById input next) as [[output c] next1]. cbn [fst snd] in *.
    destruct (differentChildren (Some input) (Some output)
              || differentNode (nextNode target updater n) n) eqn:Hspread; cbn [fst snd children id others].
    + repeat split.
    + apply orb_false_iff in Hspread as [Hkeep Hnode].
      rewrite (orNode_same_reference n Hnode), Hkids. repeat split.
      f_equal. symmetry. destruct c; [ | apply Hsame; reflexivity ].
      exfalso. simpl in Hkeep. apply negb_false_iff, Nat.eqb_eq in Hkeep.
      rewrite Hout in Hkeep by reflexivity. apply Nat.ltb_lt in Hfresh. lia.
  - rewrite orb_false_l.
    destruct (differentNode (nextNode target updater n) n) eqn:Hnode; cbn [fst snd children id others].
    + repeat split.
    + rewrite (orNode_same_reference n Hnode), Hkids. repeat split.
Qed.

(** C10: at every position of the forest, the node the call returns
    there has as [children] the original node's children processed for
    the same id (at the point [next'] of the call where that node was
    visited), whatever [children] the updater's result carried; only
    its id and other properties are the updater's. The references of
    the input's arrays are assumed handed out already (below [next]). *)
Theorem updateNodeById_children_overwritten input next :
  forallb (arraysBelow next) (snd input) = true ->
  forall position n,
    subtreeAt (snd input) position = Some n ->
    exists n' next',
      next <= next' /\
      subtreeAt (snd (nodesOf (updateNodeById input next))) position = Some n' /\
      children n' =
        match children n with
        | Some kids => Some (nodesOf (updateNodeById kids next'))
        | None => None
        end /\
      id n' = id (nextNode target updater n) /\
      others n' = others (nextNode target updater n).
Proof.
  intros Hbelow position. revert input next Hbelow.
  induction position as [ | i deeper IH ]; intros input next Hbelow n Hsub; [ discriminate | ].
  rewrite subtreeAt_step in Hsub.
  destruct (snd input !! i) as [ x | ] eqn:Hi; [ | discriminate ].
  destruct (updateNodeById_lookup input next i x Hi) as [next_i [Hle Hlook]].
  assert (Hx : arraysBelow next_i x = true).
  { apply (arraysBelow_mono next); [ exact Hle | ].
    rewrite forallb_forall in Hbelow. apply Hbelow.
    apply list_elem_of_In, list_elem_of_lookup. exists i. exact Hi. }
  destruct (visit_children x next_i Hx) as [Hkids [Hid Hothers]].
  destruct deeper as [ | j deeper ].
  - injection Hsub as <-.
    exists (fst (fst (visit x next_i))), next_i.
    rewrite subtreeAt_step, Hlook. repeat split; assumption.
  - destruct (children x) as [[a kids] | ] eqn:Hxkids; [ | discriminate ].
    assert (Hbelow' : forallb (arraysBelow next_i) (snd (a, kids)) = true).
    { destruct x as [r xi o c]. simpl in Hxkids. subst c. simpl in Hx.
      apply andb_true_iff in Hx as [_ Hx]. exact Hx. }
    destruct (IH (a, kids) next_i Hbelow' n Hsub) as [n' [next' [Hle' [Hsub' Hrest]]]].
    exists n', next'. split; [ lia | ]. split; [ | exact Hrest ].
    rewrite subtreeAt_step, Hlook, Hkids.
    destruct (nodesOf (updateNodeById (a, kids) next_i)) as [b kids']. exact Hsub'.
Qed.

End Update.

Lemma updateNodeById_structural_sharing_witness :
  nodesOf (updateNodeById "tree-9" rename demoForest 9) = demoForest /\
  subtreeAt (snd (nodesOf (updateNodeById "tree-1" rename demoForest 9))) [0; 0]
  = subtreeAt (snd demoForest) [0; 0].
Proof.
  split.
  - apply (updateNodeById_structural_sharing "tree-9" rename demoForest 9).
    apply (bool_decide_unpack _). vm_compute. exact I.
  - apply (updateNodeById_structural_sharing "tree-1" rename demoForest 9);
      [ reflexivity | ].
    apply (bool_decide_unpack _). vm_compute. exact I.
Defined.

Lemma updateNodeById_children_overwritten_witness :
  exists n',
    subtreeAt (snd (nodesOf (updateNodeById "tree-1" rename demoForest 9))) [0; 1; 0]
    = Some n' /\
    children n' = None /\
    others n' = [("name", Js.VString "Oak")].
Proof.
  destruct (updateNodeById_children_overwritten "tree-1" rename demoForest 9 eq_refl
              [0; 1; 0] (Node 2 "tree-1" [("name", Js.VString "Tree A")] None) eq_refl)
    as [n' [next' [_ [Hsub [Hkids [_ Hothers]]]]]].
  exists n'. split; [ exact Hsub | ]. split; [ exact Hkids | exact Hothers ].
Defined.

Lemma preorder_unfold n :
  preorder n = n :: match children n with
                    | Some kids => allNodes (snd kids)
                    | None => []
                    end.
Proof. destruct n as [r i o [[a items] | ]]; reflexivity. Qed.

Lemma nodeIds_unfold n :
  nodeIds n = id n :: match children n with
                      | Some kids => flattenNodeIds kids
                      | None => []
                      end.
Proof. destruct n as [r i o [[a items] | ]]; reflexivity. Qed.

Lemma nodeIds_preorder n : nodeIds n = map id (preorder n).
Proof.
  induction n as [ r i o | r i o a items IH ] using node_induction; [ reflexivity | ].
  simpl. f_equal. induction IH as [ | x rest Hx _ IHrest ]; [ reflexivity | ].
  simpl. rewrite map_app, Hx, IHrest. reflexivity.
Qed.

Lemma flattenNodeIds_allNodes input : flattenNodeIds input = map id (allNodes (snd input)).
Proof.
  unfold flattenNodeIds, allNodes. induction (snd input) as [ | x rest IH ]; [ reflexivity | ].
  simpl. rewrite map_app, nodeIds_preorder, IH. reflexivity.
Qed.

Lemma head_app {A} (l1 l2 : list A) :
  head (l1 ++ l2) = match head l1 with Some x => Some x | None => head l2 end.
Proof. destruct l1; reflexivity. Qed.

Lemma findIn_preorder target n :
  findIn target n = head (List.filter (hasId target) (preorder n)).
Proof.
  induction n as [ r i o | r i o a items IH ] using node_induction.
  - simpl. unfold hasId. simpl. destruct (String.eqb i target); reflexivity.
  - cbn [findIn preorder List.filter id]. unfold hasId at 1. cbn [id].
    destruct (String.eqb i target); [ reflexivity | ].
    induction IH as [ | x rest Hx _ IHrest ]; [ reflexivity | ].
    cbn [flat_map]. rewrite List.filter_app, head_app, <- Hx.
    destruct (findIn target x); [ reflexivity | exact IHrest ].
Qed.

Lemma findNodeById_allNodes items target :
  findNodeById items target = head (List.filter (hasId target) (allNodes items)).
Proof.
  unfold allNodes. induction items as [ | x rest IH ]; [ reflexivity | ].
  cbn [findNodeById flat_map]. rewrite List.filter_app, head_app, <- findIn_preorder.
  destruct (findIn target x); [ reflexivity | exact IH ].
Qed.

(** X14: [findNodeById] returns the first node with the id in
    pre-order, depth first: the order in which [flattenNodeIds] lists
    the ids. It returns [undefined] exactly for the ids [flattenNodeIds]
    does not list, and the node it returns has the id asked for. *)
Theorem findNodeById_first_in_flatten_order input target :
  flattenNodeIds input = map id (allNodes (snd input)) /\
  findNodeById (snd input) target
  = head (List.filter (hasId target) (allNodes (snd input))) /\
  (findNodeById (snd input) target = None <-> target ∉ flattenNodeIds input) /\
  (forall n, findNodeById (snd input) target = Some n -> id n = target).
Proof.
  split; [ apply flattenNodeIds_allNodes | ].
  split; [ apply findNodeById_allNodes | ].
  rewrite findNodeById_allNodes, flattenNodeIds_allNodes.
  induction (allNodes (snd input)) as [ | x rest [IHnone IHsome] ].
  - split; [ split; [ intros _; apply not_elem_of_nil | reflexivity ] | discriminate ].
  - cbn [List.filter map].
    destruct (hasId target x) eqn:Hx; cbn [head];
      [ apply String.eqb_eq in Hx as Heq | apply String.eqb_neq in Hx as Hne ].
    + split; [ | intros n [= <-]; exact Heq ].
      split; [ discriminate | ]. intros Hnot. exfalso. apply Hnot.
      rewrite Heq. apply list_elem_of_here.
    + split; [ | exact IHsome ].
      rewrite IHnone, not_elem_of_cons. split; [ intros H; split; congruence | tauto ].
Qed.

Section Update.
Variable target : string.
Variable updater : node -> option node.

Local Abbreviation visit := (visit target updater).
Local Abbreviation updateNodeById := (updateNodeById target updater).

(** The array a call returns holds what [map] made of the elements,
    changed or not. *)
Lemma updateNodeById_items input next :
  snd (nodesOf (updateNodeById input next))
  = fst (fst (mapNodes visit (snd input) (S next))).
Proof.
  unfold nodesOf, TreeIndex.updateNodeById. rewrite mapOrKeep_unfold. cbn [fst snd].
  pose proof (mapNodes_unchanged visit (snd input)
                (proj2 (Forall_forall _ _) (fun n _ => visit_unchanged target updater n))
                (S next)) as Hkeep.
  destruct (mapNodes visit (snd input) (S next)) as [[items c] next1]. cbn [fst snd] in *.
  destruct c; [ reflexivity | ]. symmetry. apply Hkeep. reflexivity.
Qed.

Lemma updateNodeById_changed input next :
  changedOf (updateNodeById input next) = snd (fst (mapNodes visit (snd input) (S next))).
Proof.
  unfold changedOf, TreeIndex.updateNodeById. rewrite mapOrKeep_unfold. reflexivity.
Qed.

Lemma mapNodes_images items :
  Forall (fun n => forall next, arraysBelow next n = true ->
            Forall2 (imageOf target updater) (preorder n) (preorder (fst (fst (visit n next))))) items ->
  forall next, forallb (arraysBelow next) items = true ->
    Forall2 (imageOf target updater) (allNodes items) (allNodes (fst (fst (mapNodes visit items next)))).
Proof.
  induction 1 as [ | x rest Hx _ IH ]; intros next Hbelow; [ constructor | ].
  cbn [forallb] in Hbelow. apply andb_true_iff in Hbelow as [Hbx Hbrest].
  cbn [mapNodes]. specialize (Hx next Hbx).
  pose proof (visit_next_le target updater x next) as Hle.
  destruct (TreeIndex.visit target updater x next) as [[x' c1] next1]. cbn [fst snd] in *.
  assert (Hbrest1 : forallb (arraysBelow next1) rest = true).
  { rewrite forallb_forall in Hbrest |- *. intros y Hy.
    apply (arraysBelow_mono next); [ lia | apply Hbrest; exact Hy ]. }
  specialize (IH next1 Hbrest1).
  destruct (mapNodes visit rest next1) as [[rest' c2] next2]. cbn [fst snd] in *.
  unfold allNodes. cbn [flat_map]. apply Forall2_app; assumption.
Qed.

Lemma visit_images n :
  forall next, arraysBelow next n = true ->
    Forall2 (imageOf target updater) (preorder n) (preorder (fst (fst (visit n next)))).
Proof.
  induction n as [ r i o | r i o a items IH ] using node_induction; intros next Hbelow.
  - destruct (visit_children target updater (Node r i o None) next Hbelow)
      as (Hkids & Hid & Hothers).
    rewrite (preorder_unfold (fst (fst _))), Hkids. cbn [children preorder].
    constructor; [ split; assumption | constructor ].
  - destruct (visit_children target updater (Node r i o (Some (a, items))) next Hbelow)
      as (Hkids & Hid & Hothers).
    rewrite (preorder_unfold (fst (fst _))), Hkids. cbn [children preorder].
    constructor; [ split; assumption | ].
    rewrite updateNodeById_items. cbn [snd].
    apply mapNodes_images; [ exact IH | ].
    cbn [arraysBelow] in Hbelow. apply andb_true_iff in Hbelow as [_ Hitems].
    rewrite forallb_forall in Hitems |- *. intros y Hy.
    apply (arraysBelow_mono next); [ lia | apply Hitems; exact Hy ].
Qed.

(** Node for node, in pre-order, the result holds the images of the
    input's nodes. *)
Lemma updateNodeById_images input next :
  forallb (arraysBelow next) (snd input) = true ->
  Forall2 (imageOf target updater) (allNodes (snd input))
    (allNodes (snd (nodesOf (updateNodeById input next)))).
Proof.
  intros Hbelow. rewrite updateNodeById_items.
  apply mapNodes_images.
  - apply Forall_forall. intros n _. apply visit_images.
  - rewrite forallb_forall in Hbelow |- *. intros y Hy.
    apply (arraysBelow_mono next); [ lia | apply Hbelow; exact Hy ].
Qed.

Lemma mapNodes_changed items :
  Forall (fun n => forall next,
            snd (fst (visit n next)) = existsb (replaced target updater) (preorder n)) items ->
  forall next,
    snd (fst (mapNodes visit items next)) = existsb (replaced target updater) (allNodes items).
Proof.
  induction 1 as [ | x rest Hx _ IH ]; intros next; [ reflexivity | ].
  cbn [mapNodes]. specialize (Hx next).
  destruct (TreeIndex.visit target updater x next) as [[x' c1] next1]. cbn [fst snd] in *.
  specialize (IH next1).
  destruct (mapNodes visit rest next1) as [[rest' c2] next2]. cbn [fst snd] in *.
  unfold allNodes in *. cbn [flat_map]. rewrite existsb_app, Hx, IH. reflexivity.
Qed.

Lemma visit_changed n :
  forall next, snd (fst (visit n next)) = existsb (replaced target updater) (preorder n).
Proof.
  induction n as [ r i o | r i o a items IH ] using node_induction; intros next;
    rewrite visit_unfold; cbn [children].
  - cbn [preorder existsb]. fold (replaced target updater (Node r i o None)).
    match goal with |- context [if ?b then _ else _] => destruct b end; reflexivity.
  - pose proof (updateNodeById_changed (a, items) next) as Hflag.
    rewrite (mapNodes_changed items IH) in Hflag. unfold changedOf in Hflag.
    destruct (TreeIndex.updateNodeById target updater (a, items) next) as [[output c] next1].
    cbn [fst snd] in Hflag. subst c.
    cbn [preorder existsb]. fold (replaced target updater (Node r i o (Some (a, items)))).
    fold (allNodes items).
    match goal with |- context [if ?b then _ else _] => destruct b end; reflexivity.
Qed.



Lemma head_filter_images wanted l l' :
  Forall2 (fun n n' => id n' = id n /\ imageOf target updater n n') l l' ->
  match head (List.filter (hasId wanted) l), head (List.filter (hasId wanted) l') with
  | Some n, Some n' => id n' = wanted /\ others n' = others (nextNode target updater n)
  | None, None => True
  | _, _ => False
  end.
Proof.
  induction 1 as [ | n n' l l' [Hid [_ Hothers]] _ IH ]; [ exact I | ].
  cbn [List.filter].
  assert (Hsame : hasId wanted n' = hasId wanted n) by (unfold hasId; rewrite Hid; reflexivity).
  rewrite Hsame. destruct (hasId wanted n) eqn:Hn; [ | exact IH ].
  apply String.eqb_eq in Hn. cbn [head]. split; [ congruence | exact Hothers ].
Qed.

(** X17: looking a node up after an update. With the arrays of the
    input allocated before the call and an updater that keeps the id,
    [findNodeById] finds a node in the result for exactly the ids it
    finds one for in the input, and the node found has the properties
    of the node found before: as the updater returned them when the id
    is the target, unchanged otherwise. *)
Theorem findNodeById_after_update input next wanted :
  forallb (arraysBelow next) (snd input) = true ->
  (forall n n', id n = target -> updater n = Some n' -> id n' = target) ->
  match findNodeById (snd input) wanted,
        findNodeById (snd (nodesOf (updateNodeById input next))) wanted with
  | Some n, Some n' => id n' = wanted /\ others n' = others (nextNode target updater n)
  | None, None => True
  | _, _ => False
  end.
Proof.
  intros Hbelow Hkeeps. rewrite !findNodeById_allNodes.
  apply head_filter_images.
  eapply Forall2_impl; [ apply updateNodeById_images; exact Hbelow | ].
  intros n n' Himage. split; [ | exact Himage ].
  destruct Himage as [Hid _]. rewrite Hid.
  unfold nextNode, orNode.
  destruct (String.eqb_spec (id n) target) as [ Heq | _ ]; [ | reflexivity ].
  destruct (updater n) as [ m | ] eqn:Hm; [ | reflexivity ].
  destruct (differentNode m n); [ | reflexivity ].
  rewrite (Hkeeps n m Heq Hm). symmetry. exact Heq.
Qed.

End Update.



Lemma findNodeById_after_update_witness :
  exists n',
    findNodeById (snd (nodesOf (updateNodeById "tree-1" nameOak demoForest 9))) "tree-1"
    = Some n' /\
    others n' = [("name", Js.VString "Oak")].
Proof.
  pose proof (findNodeById_after_update "tree-1" nameOak demoForest 9 "tree-1" eq_refl) as H.
  destruct (findNodeById (snd (nodesOf (updateNodeById "tree-1" nameOak demoForest 9)))
              "tree-1") as [ n' | ].
  - exists n'. split; [ reflexivity | ].
    apply H. intros n m Hid [= <-]. exact Hid.
  - exfalso. apply H. intros n m Hid [= <-]. exact Hid.
Defined.

End TreeIndexFacts.

(** ** The Selection State Machine *)

Module SelectionFacts.
Import Selection.

Lemma has_spec selection i : has selection i = true <-> i ∈ selection.
Proof. unfold has. apply bool_decide_eq_true. Qed.

Lemma elem_of_add selection i j : j ∈ add selection i <-> j ∈ selection \/ j = i.
Proof.
  unfold add. destruct (has selection i) eqn:Hhas.
  - apply has_spec in Hhas. split; [ tauto | intros [ H | -> ]; assumption ].
  - rewrite elem_of_app, list_elem_of_singleton. tauto.
Qed.

Lemma NoDup_add selection i : NoDup selection -> NoDup (add selection i).
Proof.
  intros Hnd. unfold add. destruct (has selection i) eqn:Hhas; [ assumption | ].
  apply NoDup_app. split; [ assumption | ]. split.
  - intros x Hx Hxi. apply list_elem_of_singleton in Hxi. subst x.
    apply has_spec in Hx. congruence.
  - apply NoDup_singleton.
Qed.

Lemma foldl_add_spec ids : forall acc,
  NoDup acc ->
  NoDup (foldl add acc ids) /\ forall j, j ∈ foldl add acc ids <-> j ∈ acc \/ j ∈ ids.
Proof.
  induction ids as [ | i ids IH ]; intros acc Hnd; simpl.
  - split; [ assumption | ]. intros j. rewrite elem_of_nil. tauto.
  - destruct (IH (add acc i) (NoDup_add _ _ Hnd)) as [Hnd' Hmem].
    split; [ assumption | ]. intros j. rewrite Hmem, elem_of_add, elem_of_cons. tauto.
Qed.

(** [new Set(ids)] has exactly the members of [ids], each once. *)
Lemma newSet_spec ids : NoDup (newSet ids) /\ forall j, j ∈ newSet ids <-> j ∈ ids.
Proof.
  destruct (foldl_add_spec ids [] (NoDup_nil_2)) as [Hnd Hmem].
  split; [ exact Hnd | ]. intros j. unfold newSet. rewrite Hmem, elem_of_nil. tauto.
Qed.

Lemma at_last (l : list ident) x : at_ (l ++ [x]) (Z.of_nat (length (l ++ [x])) - 1) = x.
Proof.
  unfold at_. rewrite length_app. simpl.
  replace (Z.of_nat (length l + 1) - 1)%Z with (Z.of_nat (length l)) by lia.
  destruct (Z.ltb_spec (Z.of_nat (length l)) 0); [ lia | ].
  rewrite Nat2Z.id, list_lookup_middle by reflexivity. reflexivity.
Qed.

(** [indexOf] finds the first index that holds the id, and is [-1]
    exactly when no index does. *)
Lemma indexOf_spec order x :
  (indexOf order x = (-1)%Z /\ x ∉ order) \/
  (0 <= indexOf order x < Z.of_nat (length order))%Z /\
  order !! Z.to_nat (indexOf order x) = Some x.
Proof.
  induction order as [ | y rest IH ]; simpl.
  - left. split; [ reflexivity | apply not_elem_of_nil ].
  - case_bool_decide as Heq.
    + right. subst y. split; [ lia | reflexivity ].
    + destruct IH as [[Hi Hnot] | [Hrange Hlook]].
      * left. rewrite Hi. simpl. split; [ reflexivity | ].
        rewrite not_elem_of_cons. split; [ congruence | assumption ].
      * right. destruct (Z.eqb_spec (indexOf rest x) (-1)); [ lia | ].
        split; [ lia | ].
        replace (Z.to_nat (indexOf rest x + 1)) with (S (Z.to_nat (indexOf rest x))) by lia.
        exact Hlook.
Qed.

Lemma at_in_range (order : list ident) i :
  (0 <= i < Z.of_nat (length order))%Z ->
  exists x, order !! Z.to_nat i = Some x /\ at_ order i = x.
Proof.
  intros Hi. unfold at_. destruct (Z.ltb_spec i 0); [ lia | ].
  destruct (lookup_lt_is_Some_2 order (Z.to_nat i)) as [x Hx]; [ lia | ].
  exists x. rewrite Hx. split; reflexivity.
Qed.

Lemma newSet_singleton (i : ident) : newSet [i] = [i].
Proof. reflexivity. Qed.

Lemma truthy_false (i : ident) : truthy i = false <-> i = None \/ i = Some "".
Proof.
  destruct i as [ s | ]; simpl.
  - rewrite negb_false_iff, String.eqb_eq. split.
    + intros ->. right. reflexivity.
    + intros [ H | H ]; [ discriminate | injection H as -> ]; reflexivity.
  - split; [ left | ]; reflexivity.
Qed.

(** C9 (amended): [setSelection(ids, focusLast)] makes the selection
    exactly the set of the provided ids. With [focusLast], focus becomes
    the last provided id ([undefined] when there is none). Without it,
    focus is unchanged when the focused id is still a member, and also
    when nothing was focused or the focused id is the empty string (the
    source tests [this.focused] for truthiness); in the one case left, a
    focused non-empty id that is no longer a member, focus becomes the
    first provided id ([undefined] when there is none). *)
Theorem setSelection_selection_and_focus ids focusLast m :
  let m' := setSelection ids focusLast m in
  NoDup (selection m') /\
  (forall i, i ∈ selection m' <-> i ∈ ids) /\
  (focusLast = true -> focused m' = default None (last ids)) /\
  (focusLast = false ->
   focused m ∈ ids \/ focused m = None \/ focused m = Some "" ->
   focused m' = focused m) /\
  (focusLast = false ->
   focused m ∉ ids -> focused m <> None -> focused m <> Some "" ->
   focused m' = default None (head ids)).
Proof.
  destruct (newSet_spec ids) as [Hnd Hmem].
  assert (Hsel : selection (setSelection ids focusLast m) = newSet ids).
  { unfold setSelection. destruct focusLast; [ reflexivity | ].
    destruct (truthy (focused m) && negb (has (newSet ids) (focused m))); reflexivity. }
  cbv zeta. rewrite Hsel. split; [ exact Hnd | ]. split; [ exact Hmem | ].
  split; [ | split ].
  - intros ->. unfold setSelection. simpl.
    destruct ids as [ | i ids' ] using rev_ind; [ reflexivity | ].
    rewrite at_last, last_snoc. reflexivity.
  - intros -> Hkeep. unfold setSelection.
    destruct (truthy (focused m) && negb (has (newSet ids) (focused m))) eqn:Hmove;
      [ | reflexivity ].
    apply andb_true_iff in Hmove as [Htruthy Hgone].
    destruct Hkeep as [Hin | Hfalsy].
    + apply Hmem, has_spec in Hin. rewrite Hin in Hgone. discriminate.
    + apply truthy_false in Hfalsy. rewrite Hfalsy in Htruthy. discriminate.
  - intros -> Hnot Hsome Hempty. unfold setSelection.
    assert (Htruthy : truthy (focused m) = true).
    { destruct (truthy (focused m)) eqn:Ht; [ reflexivity | ].
      apply truthy_false in Ht as [ Ht | Ht ]; contradiction. }
    rewrite Htruthy.
    destruct (has (newSet ids) (focused m)) eqn:Hhas.
    + apply has_spec, Hmem in Hhas. contradiction.
    + simpl. destruct ids; reflexivity.
Qed.

Lemma setSelection_selection_and_focus_witness :
  focused (setSelection [Some "a"; Some "b"] true (Manager [Some "c"] (Some "c"))) = Some "b" /\
  focused (setSelection [Some "a"; Some "c"] false (Manager [Some "c"] (Some "c"))) = Some "c" /\
  focused (setSelection [Some "a"; Some "b"] false (Manager [Some ""] (Some ""))) = Some "" /\
  focused (setSelection [Some "a"; Some "b"] false (Manager [Some "c"] (Some "c"))) = Some "a".
Proof.
  split; [ | split; [ | split ] ].
  - apply (setSelection_selection_and_focus
             [Some "a"; Some "b"] true (Manager [Some "c"] (Some "c"))).
    reflexivity.
  - apply (setSelection_selection_and_focus
             [Some "a"; Some "c"] false (Manager [Some "c"] (Some "c")));
      [ reflexivity | ].
    left. simpl. apply list_elem_of_further, list_elem_of_here.
  - apply (setSelection_selection_and_focus
             [Some "a"; Some "b"] false (Manager [Some ""] (Some "")));
      [ reflexivity | ].
    right. right. reflexivity.
  - apply (setSelection_selection_and_focus
             [Some "a"; Some "b"] false (Manager [Some "c"] (Some "c")));
      [ reflexivity | | discriminate | discriminate ].
    simpl. intros Hin. rewrite !elem_of_cons, elem_of_nil in Hin.
    destruct Hin as [ Hin | [ Hin | [] ] ]; discriminate.
Defined.

(** C9 as stated fails when nothing is focused, and when the empty
    string is: the focus is not a member of the new selection, and it is
    not reassigned to the first provided id. The second state is that of
    [new SelectionManager([''])]. *)
Lemma setSelection_unfocused_counterexample :
  let ids := [Some "a"] in
  (let m := Manager [] None in
   ~ focused m ∈ ids /\
   focused (setSelection ids false m) <> default None (head ids)) /\
  (let m := newManager [Some ""] in
   ~ focused m ∈ ids /\
   focused (setSelection ids false m) <> default None (head ids)).
Proof.
  cbv zeta. split; (split; [ | discriminate ]);
    simpl; intros Hin; apply list_elem_of_singleton in Hin; discriminate.
Qed.

(** C8 (amended): on an empty order [focusNext] clears selection and
    focus. On a non-empty order of length [len], [currentIndex] is
    [order.indexOf(focused)] when a non-empty id is focused and [-1]
    when nothing is focused or the focused id is the empty string (the
    source tests [this.focused] for truthiness); it is [-1] exactly when
    nothing is focused, the empty string is, or the focused id is not in
    the order. With [currentIndex = -1] the target is index 0, whatever
    the direction; otherwise, for a direction with
    [currentIndex + direction + len >= 0] (every direction from [-len]
    up), the target is index [(currentIndex + direction + len) mod len].
    The id at the target becomes the only member of the selection and
    the focus. *)
Theorem focusNext_target order direction m :
  let len := Z.of_nat (length order) in
  let currentIndex := if truthy (focused m) then indexOf order (focused m) else (-1)%Z in
  let target :=
    if (currentIndex =? -1)%Z then 0%Z else ((currentIndex + direction + len) mod len)%Z in
  (order = [] -> focusNext order direction m = Manager [] None) /\
  (currentIndex = (-1)%Z <->
   focused m = None \/ focused m = Some "" \/ focused m ∉ order) /\
  (order <> [] ->
   (currentIndex = -1 \/ 0 <= currentIndex + direction + len)%Z ->
   (0 <= target < len)%Z /\
   exists id, order !! Z.to_nat target = Some id /\
              focusNext order direction m = Manager [id] id).
Proof.
  cbv zeta. split; [ intros ->; reflexivity | ]. split.
  { destruct (truthy (focused m)) eqn:Htruthy.
    - assert (Hset : focused m <> None /\ focused m <> Some "").
      { split; intros Hbad; rewrite Hbad in Htruthy; discriminate. }
      destruct (indexOf_spec order (focused m)) as [[Hi Hnot] | [Hrange Hlook]].
      + split; [ intros _; right; right; exact Hnot | intros _; exact Hi ].
      + split; [ lia | ]. intros [ Hbad | [ Hbad | Hbad ] ].
        * destruct Hset as [Hset _]. contradiction.
        * destruct Hset as [_ Hset]. contradiction.
        * exfalso. apply Hbad. eapply list_elem_of_lookup_2. exact Hlook.
    - apply truthy_false in Htruthy. split; [ intros _ | reflexivity ].
      destruct Htruthy; [ left | right; left ]; assumption. }
  intros Hne Hdir.
  set (len := Z.of_nat (length order)) in *.
  set (cur := if truthy (focused m) then indexOf order (focused m) else (-1)%Z) in *.
  assert (Hlen : (0 < len)%Z).
  { subst len. destruct order; [ congruence | simpl; lia ]. }
  assert (Hstep : focusNext order direction m =
            let nextId := at_ order (if (cur =? -1)%Z then 0%Z
                                     else Z.rem (cur + direction + len) len) in
            Manager (newSet [nextId]) nextId).
  { destruct order; [ congruence | reflexivity ]. }
  assert (Hidx : (if (cur =? -1)%Z then 0%Z else Z.rem (cur + direction + len) len)
                 = (if (cur =? -1)%Z then 0%Z else ((cur + direction + len) mod len)%Z)).
  { destruct (Z.eqb_spec cur (-1)); [ reflexivity | ].
    apply Z.rem_mod_nonneg; lia. }
  rewrite Hidx in Hstep.
  assert (Hrange : (0 <= (if (cur =? -1)%Z then 0 else (cur + direction + len) mod len) < len)%Z).
  { destruct (Z.eqb_spec cur (-1)); [ lia | apply Z.mod_pos_bound; lia ]. }
  split; [ exact Hrange | ].
  destruct (at_in_range order _ Hrange) as [x [Hx Hat]].
  exists x. split; [ exact Hx | ].
  rewrite Hstep. cbv zeta. rewrite Hat. reflexivity.
Qed.

Lemma focusNext_target_witness :
  focusNext [Some "a"; Some "b"; Some "c"] (-1) (Manager [Some "a"] (Some "a"))
  = Manager [Some "c"] (Some "c") /\
  focusNext [Some "a"; Some ""; Some "c"] 1 (newManager [Some ""])
  = Manager [Some "a"] (Some "a").
Proof.
  split.
  - destruct (focusNext_target [Some "a"; Some "b"; Some "c"] (-1)
                (Manager [Some "a"] (Some "a"))) as [_ [_ Hstep]].
    destruct Hstep as [_ [id [Hid Heq]]].
    + discriminate.
    + right. vm_compute. discriminate.
    + vm_compute in Hid. injection Hid as <-. exact Heq.
  - destruct (focusNext_target [Some "a"; Some ""; Some "c"] 1
                (newManager [Some ""])) as [_ [_ Hstep]].
    destruct Hstep as [_ [id [Hid Heq]]].
    + discriminate.
    + left. reflexivity.
    + vm_compute in Hid. injection Hid as <-. exact Heq.
Defined.

(** C8 as stated fails when nothing is focused and the direction is
    [-1]: the formula gives index 1, the code goes to index 0. It fails
    too when the empty string is focused, the state of
    [new SelectionManager([''])]: in the order [['a', '', 'c']] the
    formula with [order.indexOf(focused) = 1] and direction 1 gives
    index 2, the code goes to index 0. *)
Lemma focusNext_unfocused_backwards_counterexample :
  (let order := [Some "a"; Some "b"; Some "c"] in
   let m := Manager [] None in
   let len := Z.of_nat (length order) in
   let currentIndex := (-1)%Z in
   truthy (focused m) = false /\
   focused (focusNext order (-1) m) <> at_ order ((currentIndex + -1 + len) mod len)) /\
  (let order := [Some "a"; Some ""; Some "c"] in
   let m := newManager [Some ""] in
   let len := Z.of_nat (length order) in
   let currentIndex := indexOf order (focused m) in
   focused m = Some "" /\ currentIndex = 1%Z /\
   focused (focusNext order 1 m) <> at_ order ((currentIndex + 1 + len) mod len)).
Proof.
  cbv zeta. split.
  - split; [ reflexivity | discriminate ].
  - split; [ reflexivity | ]. split; [ reflexivity | discriminate ].
Qed.

Lemma elem_of_delete selection i j : j ∈ delete selection i <-> j ∈ selection /\ j <> i.
Proof. unfold delete. rewrite list_elem_of_filter. tauto. Qed.

Lemma NoDup_delete selection i : NoDup selection -> NoDup (delete selection i).
Proof. apply NoDup_filter. Qed.

Lemma first_elem selection : selection <> [] -> first selection ∈ selection.
Proof.
  destruct selection as [ | x rest ]; [ congruence | ]. intros _.
  unfold first, at_. simpl. apply list_elem_of_here.
Qed.

Lemma first_nil : first [] = None.
Proof. reflexivity. Qed.

Lemma first_cons x rest : first (x :: rest) = x.
Proof. reflexivity. Qed.

(** X4: [select(id, { additive, focus })]. A plain select makes the
    id the whole selection. An additive select toggles the id: it
    leaves the selection when it was a member and joins it otherwise,
    and no other member moves in or out. With [focus] the id is focused
    in every case, also when the call has just removed it from the
    selection. *)
Theorem select_toggles_membership i additive focus m :
  let m' := select i additive focus m in
  (additive = false -> selection m' = [i]) /\
  (additive = true ->
   (i ∈ selection m' <-> i ∉ selection m) /\
   (forall j, j <> i -> j ∈ selection m' <-> j ∈ selection m) /\
   (NoDup (selection m) -> NoDup (selection m'))) /\
  (focus = true -> focused m' = i).
Proof.
  cbv zeta.
  set (base := if additive then selection m else []).
  set (next := if additive && has base i then delete base i else add base i).
  assert (Hsel : selection (select i additive focus m) = next).
  { unfold select. fold base. fold next. destruct focus; [ reflexivity | ].
    destruct (truthy (focused m) && negb (has next (focused m))); reflexivity. }
  rewrite Hsel. split; [ | split ].
  - intros ->. reflexivity.
  - intros ->. subst next base. cbn [andb].
    destruct (has (selection m) i) eqn:Hhas.
    + apply has_spec in Hhas. split; [ | split ].
      * rewrite elem_of_delete. tauto.
      * intros j Hj. rewrite elem_of_delete. tauto.
      * apply NoDup_delete.
    + assert (Hnot : i ∉ selection m).
      { intros Hin. apply has_spec in Hin. congruence. }
      split; [ | split ].
      * rewrite elem_of_add. tauto.
      * intros j Hj. rewrite elem_of_add. tauto.
      * apply NoDup_add.
  - intros ->. reflexivity.
Qed.

Lemma select_toggles_membership_witness :
  let m := Manager [Some "a"; Some "b"] (Some "b") in
  (Some "a" ∉ selection (select (Some "a") true true m)) /\
  focused (select (Some "a") true true m) = Some "a".
Proof.
  cbv zeta.
  destruct (select_toggles_membership (Some "a") true true
              (Manager [Some "a"; Some "b"] (Some "b"))) as (_ & Hadd & Hfocus).
  destruct (Hadd eq_refl) as (Hi & _ & _).
  split; [ | exact (Hfocus eq_refl) ].
  intros Hin. apply Hi in Hin. apply Hin. apply list_elem_of_here.
Defined.

(** X5: [focus(id)] with an id (a truthy one) focuses it and leaves
    it selected: a selection that holds it is kept as it is, any other
    is replaced by the id alone. Without an id, the selection is kept
    and its first member is focused ([undefined] when it is empty). *)
Theorem focus_keeps_focused_selected i m :
  let m' := focus i m in
  (truthy i = true ->
   focused m' = i /\ i ∈ selection m' /\
   (i ∈ selection m -> selection m' = selection m) /\
   (i ∉ selection m -> selection m' = [i])) /\
  (truthy i = false ->
   selection m' = selection m /\ focused m' = default None (head (selection m))).
Proof.
  cbv zeta. unfold focus. split.
  - intros ->. cbn [andb]. destruct (has (selection m) i) eqn:Hhas.
    + apply has_spec in Hhas. cbn [selection focused].
      repeat split; [ assumption | contradiction ].
    + assert (Hnot : i ∉ selection m).
      { intros Hin. apply has_spec in Hin. congruence. }
      cbn [selection focused]. rewrite newSet_singleton.
      repeat split; [ apply list_elem_of_here | contradiction ].
  - intros ->. cbn [andb selection focused]. split; [ reflexivity | ].
    destruct (selection m) as [ | [ x | ] rest ]; reflexivity.
Qed.

Lemma focus_keeps_focused_selected_witness :
  focus (Some "c") (Manager [Some "a"; Some "b"] (Some "a")) = Manager [Some "c"] (Some "c").
Proof.
  destruct (focus_keeps_focused_selected (Some "c") (Manager [Some "a"; Some "b"] (Some "a")))
    as [Hid _].
  destruct (Hid eq_refl) as (Hfocused & _ & _ & Hnew).
  destruct (focus (Some "c") (Manager [Some "a"; Some "b"] (Some "a"))) as [s f].
  cbn [selection focused] in *. rewrite Hfocused, Hnew; [ reflexivity | ].
  apply (bool_decide_unpack _). vm_compute. exact I.
Defined.

(** X6: [ensureFocused] never touches the selection and leaves the
    focus on one of its members (on [undefined] when there is none);
    a focused member stays focused, and a second call changes nothing. *)
Theorem ensureFocused_focus_is_member m :
  let m' := ensureFocused m in
  selection m' = selection m /\
  (selection m = [] -> focused m' = None) /\
  (selection m <> [] -> focused m' ∈ selection m) /\
  (truthy (focused m) = true -> focused m ∈ selection m -> m' = m) /\
  ensureFocused m' = m'.
Proof.
  cbv zeta. unfold ensureFocused.
  destruct (truthy (focused m) && has (selection m) (focused m)) eqn:Hkeep.
  - rewrite Hkeep. apply andb_true_iff in Hkeep as [Htruthy Hhas].
    apply has_spec in Hhas.
    repeat split; try reflexivity.
    + intros Hnil. rewrite Hnil in Hhas. apply elem_of_nil in Hhas. contradiction.
    + intros _. exact Hhas.
  - cbn [selection focused]. split; [ reflexivity | ]. split; [ | split; [ | split ] ].
    + intros ->. reflexivity.
    + apply first_elem.
    + intros Htruthy Hin. apply has_spec in Hin. rewrite Htruthy, Hin in Hkeep. discriminate.
    + destruct (truthy (first (selection m)) && has (selection m) (first (selection m)));
        reflexivity.
Qed.

Lemma ensureFocused_focus_is_member_witness :
  focused (ensureFocused (Manager [Some "b"; Some "c"] (Some "a"))) ∈ [Some "b"; Some "c"].
Proof.
  apply (ensureFocused_focus_is_member (Manager [Some "b"; Some "c"] (Some "a"))).
  discriminate.
Defined.

Lemma indexOf_lookup_NoDup order : forall k x,
  NoDup order -> order !! k = Some x -> indexOf order x = Z.of_nat k.
Proof.
  intros k x Hnd Hk.
  destruct (indexOf_spec order x) as [[_ Hnot] | [Hrange Hlook]].
  - exfalso. apply Hnot. apply list_elem_of_lookup. exists k. exact Hk.
  - pose proof (NoDup_lookup order _ _ x Hnd Hlook Hk) as Heq. lia.
Qed.

(** One step from a focused member of the order. *)
Lemma focusNext_from_member order direction m c :
  truthy (focused m) = true ->
  indexOf order (focused m) = c ->
  (0 <= c < Z.of_nat (length order))%Z ->
  (0 <= c + direction + Z.of_nat (length order))%Z ->
  exists x,
    order !! Z.to_nat ((c + direction + Z.of_nat (length order)) mod Z.of_nat (length order))
      = Some x /\
    focusNext order direction m = Manager [x] x.
Proof.
  intros Htruthy Hidx Hc Hdir.
  set (len := Z.of_nat (length order)) in *.
  assert (Hrange : (0 <= (c + direction + len) mod len < len)%Z).
  { apply Z.mod_pos_bound. lia. }
  destruct (at_in_range order _ Hrange) as [x [Hx Hat]].
  exists x. split; [ exact Hx | ].
  destruct order as [ | y rest ]; [ unfold len in Hc; simpl in Hc; lia | ].
  unfold focusNext. rewrite Htruthy, Hidx. fold len.
  destruct (Z.eqb_spec c (-1)); [ lia | ].
  rewrite Z.rem_mod_nonneg by lia. rewrite Hat. reflexivity.
Qed.

(** X7: on an order without repeats, whose ids are all truthy, a
    step of [focusNext] from a focused member is undone by the step in
    the opposite direction (for a direction of at most the length of
    the order either way): focus is back on the id it started from,
    which is then the whole selection. *)
Theorem focusNext_back_and_forth order direction m :
  NoDup order ->
  Forall (fun i => truthy i = true) order ->
  focused m ∈ order ->
  (- Z.of_nat (length order) <= direction <= Z.of_nat (length order))%Z ->
  focusNext order (- direction) (focusNext order direction m)
  = Manager [focused m] (focused m).
Proof.
  intros Hnd Hall Hin Hdir.
  set (len := Z.of_nat (length order)) in *.
  assert (Htruthy : truthy (focused m) = true).
  { rewrite Forall_forall in Hall. apply Hall. exact Hin. }
  destruct (indexOf_spec order (focused m)) as [[_ Hnot] | [Hc Hlook]]; [ contradiction | ].
  set (c := indexOf order (focused m)) in *.
  destruct (focusNext_from_member order direction m c Htruthy eq_refl Hc)
    as [x [Hx Hstep]]; [ fold len; lia | ].
  fold len in Hx. rewrite Hstep.
  set (next := ((c + direction + len) mod len)%Z) in *.
  assert (Hnext : (0 <= next < len)%Z) by (apply Z.mod_pos_bound; lia).
  assert (Hxin : x ∈ order) by (apply list_elem_of_lookup; eexists; exact Hx).
  assert (Hxtruthy : truthy x = true).
  { rewrite Forall_forall in Hall. apply Hall. exact Hxin. }
  assert (Hxidx : indexOf order x = next).
  { rewrite (indexOf_lookup_NoDup order _ x Hnd Hx). lia. }
  destruct (focusNext_from_member order (- direction) (Manager [x] x) next
              Hxtruthy Hxidx Hnext) as [y [Hy Hback]]; [ fold len; lia | ].
  fold len in Hy. rewrite Hback.
  assert (Hreturn : ((next + - direction + len) mod len = c)%Z).
  { subst next.
    rewrite <- Z.add_assoc, Z.add_mod_idemp_l by lia.
    replace (c + direction + len + (- direction + len))%Z with (c + 2 * len)%Z by lia.
    rewrite Z.mod_add by lia. apply Z.mod_small. lia. }
  rewrite Hreturn, Hlook in Hy. injection Hy as <-. reflexivity.
Qed.

Lemma focusNext_back_and_forth_witness :
  let order := [Some "a"; Some "b"; Some "c"] in
  focusNext order (-1) (focusNext order 1 (Manager [] (Some "c")))
  = Manager [Some "c"] (Some "c").
Proof.
  cbv zeta.
  apply (focusNext_back_and_forth [Some "a"; Some "b"; Some "c"] 1 (Manager [] (Some "c"))).
  - apply (bool_decide_unpack _). vm_compute. exact I.
  - repeat constructor.
  - apply (bool_decide_unpack _). vm_compute. exact I.
  - simpl. lia.
Defined.

Lemma foldl_add_prefix ids : forall acc, exists more, foldl add acc ids = acc ++ more.
Proof.
  induction ids as [ | i ids IH ]; intros acc; simpl.
  - exists []. rewrite app_nil_r. reflexivity.
  - destruct (IH (add acc i)) as [more Hmore]. rewrite Hmore. unfold add.
    destruct (has acc i); [ exists more; reflexivity | ].
    exists ([i] ++ more). rewrite app_assoc. reflexivity.
Qed.

Lemma foldl_add_snoc ids i : forall acc,
  foldl add acc (ids ++ [i]) = add (foldl add acc ids) i.
Proof. intros acc. rewrite foldl_app. reflexivity. Qed.

(** [new Set(ids)] lists the ids in the order of their first
    occurrence. *)
Lemma newSet_first_occurrences ids : newSet ids = reverse (remove_dups (reverse ids)).
Proof.
  induction ids as [ | i ids IH ] using rev_ind; [ reflexivity | ].
  unfold newSet in *. rewrite foldl_add_snoc, IH, reverse_snoc. cbn [remove_dups].
  unfold add, has.
  destruct (decide_rel elem_of i (reverse ids)) as [ Hin | Hnot ].
  - rewrite bool_decide_eq_true_2; [ reflexivity | ].
    apply elem_of_reverse, elem_of_remove_dups. exact Hin.
  - rewrite bool_decide_eq_false_2; [ rewrite reverse_cons; reflexivity | ].
    intros Hin. apply Hnot. apply elem_of_remove_dups, elem_of_reverse. exact Hin.
Qed.

Lemma first_newSet ids : first (newSet ids) = default None (head ids).
Proof.
  destruct ids as [ | i ids ]; [ reflexivity | ].
  unfold newSet. simpl.
  destruct (foldl_add_prefix ids (add [] i)) as [more Hmore]. rewrite Hmore.
  reflexivity.
Qed.

(** X8: a new [SelectionManager] selects the initial ids, each once,
    in the order of their first occurrence, and focuses the first of
    them ([undefined] when there is none). *)
Theorem newManager_selects_in_order ids :
  getSelection (newManager ids) = reverse (remove_dups (reverse ids)) /\
  NoDup (getSelection (newManager ids)) /\
  getFocused (newManager ids) = default None (head ids).
Proof.
  unfold getSelection, getFocused, newManager. cbn [selection focused].
  split; [ apply newSet_first_occurrences | ]. split; [ apply newSet_spec | ].
  apply first_newSet.
Qed.

(** A step that stays inside the order focuses one of its ids. *)
Lemma focusNext_lands_in_order order direction m :
  order <> [] ->
  (- 1 <= direction)%Z ->
  exists x, x ∈ order /\ focusNext order direction m = Manager [x] x.
Proof.
  intros Hne Hdir.
  set (len := Z.of_nat (length order)).
  set (cur := if truthy (focused m) then indexOf order (focused m) else (-1)%Z).
  assert (Hlen : (0 < len)%Z).
  { subst len. destruct order; [ congruence | simpl; lia ]. }
  assert (Hcur : (-1 <= cur)%Z).
  { subst cur. destruct (truthy (focused m)); [ | lia ].
    destruct (indexOf_spec order (focused m)) as [[-> _] | [H _]]; lia. }
  assert (Hstep : focusNext order direction m =
            let nextId := at_ order (if (cur =? -1)%Z then 0%Z
                                     else Z.rem (cur + direction + len) len) in
            Manager (newSet [nextId]) nextId).
  { destruct order; [ congruence | reflexivity ]. }
  assert (Hrange : (0 <= (if (cur =? -1)%Z then 0 else Z.rem (cur + direction + len) len)
                    < len)%Z).
  { destruct (Z.eqb_spec cur (-1)); [ lia | ].
    rewrite Z.rem_mod_nonneg by lia. apply Z.mod_pos_bound. lia. }
  destruct (at_in_range order _ Hrange) as [x [Hx Hat]].
  exists x. split; [ apply list_elem_of_lookup; eexists; exact Hx | ].
  rewrite Hstep. cbv zeta. rewrite Hat. reflexivity.
Qed.

Lemma focus_focused x : focus x (Manager [x] x) = Manager [x] x.
Proof.
  unfold focus. cbn [selection]. destruct (truthy x); [ | destruct x; reflexivity ].
  cbn [andb]. unfold has. rewrite bool_decide_eq_true_2 by apply list_elem_of_here.
  reflexivity.
Qed.

End SelectionFacts.

(** ** The Mode State Machine *)

Module ModeFacts.
Import Mode ModeTerms.

(** C7: in a mode other than the target (['edit'], for ['play']), with
    unsaved changes reported, no autosave policy and a confirm policy
    that resolves false, [switchMode] returns false and leaves mode,
    dirty flag, subscribers untouched; all it called is the context
    factory (when the target context did not exist yet) and the confirm
    policy: no hook, no subscriber. *)
Theorem switchMode_blocked_by_confirm target m confirm :
  target <> mode m ->
  isDirty m = true ->
  autoSave (opts m) = false ->
  confirmSwitch (opts m) = Some confirm ->
  confirm (mode m) target = false ->
  let (result, m') := switchMode target m in
  result = false /\
  mode m' = mode m /\
  dirty m' = dirty m /\
  listeners m' = listeners m /\
  exists called,
    log m' = log m ++ called /\
    called = (match getContext m target with Some _ => [] | None => [Created target] end)
             ++ [Asked (mode m) target] /\
    Forall (fun e => firesHookOrListener e = false) called.
Proof.
  intros Hne Hdirty Hauto Hconfirm Hno.
  unfold switchMode.
  destruct (String.eqb_spec target (mode m)) as [ Heq | _ ]; [ contradiction | ].
  unfold createOrGetContext.
  destruct (getContext m target) as [ existing | ] eqn:Hctx.
  - unfold handleUnsavedChanges. rewrite Hdirty, Hauto, Hconfirm, Hno. simpl.
    repeat split; try reflexivity.
    eexists. repeat split; try reflexivity.
    repeat constructor.
  - unfold handleUnsavedChanges, isDirty in *. simpl.
    rewrite Hdirty, Hauto, Hconfirm, Hno. simpl.
    repeat split; try reflexivity.
    exists [Created target; Asked (mode m) target].
    repeat split; try reflexivity.
    + rewrite <- app_assoc. reflexivity.
    + repeat constructor.
Qed.

Lemma switchMode_blocked_by_confirm_witness :
  let m := Manager confirmNever "edit" [("edit", plainContext "edit")] [7] true [] in
  fst (switchMode "play" m) = false /\
  mode (snd (switchMode "play" m)) = "edit" /\
  log (snd (switchMode "play" m)) = [Created "play"; Asked "edit" "play"].
Proof.
  cbv zeta.
  pose proof (switchMode_blocked_by_confirm "play"
    (Manager confirmNever "edit" [("edit", plainContext "edit")] [7] true [])
    (fun _ _ => false)) as H.
  destruct (switchMode "play"
              (Manager confirmNever "edit" [("edit", plainContext "edit")] [7] true []))
    as [result m'].
  destruct H as (Hresult & Hmode & _ & _ & called & Hlog & Hcalled & _);
    try reflexivity; [ discriminate | ].
  cbn [fst snd]. split; [ exact Hresult | ]. split; [ exact Hmode | ].
  rewrite Hlog, Hcalled. reflexivity.
Defined.

Lemma log_emit events m : log (emit events m) = log m ++ events.
Proof. reflexivity. Qed.

Lemma mapGet_None entries key : mapGet entries key = None <-> key ∉ map fst entries.
Proof.
  induction entries as [ | [k c] rest IH ]; simpl.
  - split; [ intros _; apply not_elem_of_nil | reflexivity ].
  - rewrite not_elem_of_cons. destruct (String.eqb_spec k key) as [ -> | Hne ].
    + split; [ discriminate | intros [H _]; congruence ].
    + rewrite IH. split; [ intros H; split; [ congruence | exact H ] | intros [_ H]; exact H ].
Qed.

Lemma mapGet_app_l entries more key c :
  mapGet entries key = Some c -> mapGet (entries ++ more) key = Some c.
Proof.
  induction entries as [ | [k c'] rest IH ]; simpl; [ discriminate | ].
  destruct (String.eqb k key); [ trivial | exact IH ].
Qed.

Lemma mapGet_snoc entries key c :
  mapGet entries key = None -> mapGet (entries ++ [(key, c)]) key = Some c.
Proof.
  induction entries as [ | [k c'] rest IH ]; simpl.
  - rewrite String.eqb_refl. reflexivity.
  - destruct (String.eqb k key); [ discriminate | exact IH ].
Qed.

(** What [handleUnsavedChanges] may change: the dirty flag and the log. *)
Lemma handleUnsavedChanges_frame target m :
  let (ok, m') := handleUnsavedChanges target m in
  opts m' = opts m /\ mode m' = mode m /\ contexts m' = contexts m /\
  listeners m' = listeners m /\
  exists policy,
    log m' = log m ++ policy /\
    (policy = [] \/ policy = [AutoSaved] \/ policy = [Asked (mode m) target]).
Proof.
  unfold handleUnsavedChanges.
  destruct (isDirty m); cbn [negb].
  2: { repeat split. exists []. rewrite app_nil_r. split; [ reflexivity | tauto ]. }
  destruct (autoSave (opts m)).
  { repeat split. exists [AutoSaved]. split; [ reflexivity | tauto ]. }
  destruct (confirmSwitch (opts m)) as [ confirm | ].
  2: { repeat split. exists []. rewrite app_nil_r. split; [ reflexivity | tauto ]. }
  destruct (confirm (mode m) target); repeat split;
    exists [Asked (mode m) target]; (split; [ reflexivity | tauto ]).
Qed.

(** X9: [switchMode] returns true exactly when the machine is in the
    target mode afterwards. It returns false, leaving the mode as it
    was, only when there are unsaved changes, no autosave policy is
    configured, and the confirm policy resolved false. *)
Theorem switchMode_returns_whether_switched target m :
  let (result, m') := switchMode target m in
  (result = true <-> mode m' = target) /\
  (result = false ->
   mode m' = mode m /\ isDirty m = true /\ autoSave (opts m) = false /\
   exists confirm,
     confirmSwitch (opts m) = Some confirm /\ confirm (mode m) target = false).
Proof.
  unfold switchMode.
  destruct (String.eqb_spec target (mode m)) as [ Heq | Hne ].
  { split; [ split; [ intros _; symmetry; exact Heq | reflexivity ] | discriminate ]. }
  destruct (createOrGetContext target m) as [next m1] eqn:Hcreate.
  assert (Hm1 : mode m1 = mode m /\ opts m1 = opts m /\ dirty m1 = dirty m).
  { unfold createOrGetContext in Hcreate.
    destruct (getContext m target); injection Hcreate as <- <-; repeat split. }
  destruct Hm1 as (Hmode1 & Hopts1 & Hdirty1).
  assert (HisDirty : isDirty m1 = isDirty m).
  { unfold isDirty. rewrite Hopts1, Hdirty1. reflexivity. }
  unfold handleUnsavedChanges. rewrite HisDirty, Hopts1, Hmode1.
  destruct (isDirty m); cbn [negb].
  2: { split; [ split; reflexivity | discriminate ]. }
  destruct (autoSave (opts m)).
  { split; [ split; reflexivity | discriminate ]. }
  destruct (confirmSwitch (opts m)) as [ confirm | ].
  2: { split; [ split; reflexivity | discriminate ]. }
  destruct (confirm (mode m) target) eqn:Hok; cbn [negb].
  { split; [ split; reflexivity | discriminate ]. }
  cbn [mode emit]. rewrite Hmode1.
  split; [ split; [ discriminate | intros Heq; symmetry in Heq; contradiction ] | ].
  intros _. repeat split. exists confirm. split; [ reflexivity | exact Hok ].
Qed.

Lemma switchMode_returns_whether_switched_witness :
  let m := Manager confirmNever "edit" [("edit", plainContext "edit")] [7] true [] in
  mode (snd (switchMode "play" m)) = "edit".
Proof.
  cbv zeta.
  pose proof (switchMode_returns_whether_switched "play"
    (Manager confirmNever "edit" [("edit", plainContext "edit")] [7] true [])) as H.
  destruct (switchMode "play"
              (Manager confirmNever "edit" [("edit", plainContext "edit")] [7] true []))
    as [result m'] eqn:Hrun.
  destruct H as [_ Hrefused].
  assert (Hresult : result = false).
  { vm_compute in Hrun. injection Hrun as <- _. reflexivity. }
  destruct (Hrefused Hresult) as [Hmode _]. exact Hmode.
Defined.

Lemma createdModes_app l1 l2 : createdModes (l1 ++ l2) = createdModes l1 ++ createdModes l2.
Proof. apply omap_app. Qed.

Lemma createOrGetContext_createdOnce key m :
  createdOnce m -> createdOnce (snd (createOrGetContext key m)).
Proof.
  intros [Hlog Hnd]. unfold createOrGetContext.
  destruct (getContext m key) eqn:Hget; [ split; assumption | ].
  unfold createdOnce. cbn [snd emit log contexts].
  rewrite createdModes_app, map_app, Hlog. split; [ reflexivity | ].
  apply NoDup_app. split; [ exact Hnd | ]. split; [ | apply NoDup_singleton ].
  intros k Hk Hk'. apply list_elem_of_singleton in Hk'. subst k.
  apply mapGet_None in Hget. contradiction.
Qed.

Lemma createdOnce_emit events m :
  createdModes events = [] -> createdOnce m -> createdOnce (emit events m).
Proof.
  intros Hnone [Hlog Hnd]. unfold createdOnce. cbn [emit log contexts].
  rewrite createdModes_app, Hnone, app_nil_r. split; assumption.
Qed.

Lemma createdOnce_same m m' :
  log m' = log m -> contexts m' = contexts m -> createdOnce m -> createdOnce m'.
Proof. unfold createdOnce. intros -> ->. trivial. Qed.

Lemma createdModes_callIf has e :
  match e with Created _ => False | _ => True end -> createdModes (callIf has e) = [].
Proof. destruct has; [ | reflexivity ]. destruct e; simpl; tauto. Qed.

Lemma createdModes_notified (listeners : list nat) target :
  createdModes (map (fun listener => Notified listener target) listeners) = [].
Proof. induction listeners as [ | l rest IH ]; [ reflexivity | exact IH ]. Qed.

Lemma handleUnsavedChanges_createdOnce target m :
  createdOnce m -> createdOnce (snd (handleUnsavedChanges target m)).
Proof.
  intros Hinv. pose proof (handleUnsavedChanges_frame target m) as Hframe.
  destruct (handleUnsavedChanges target m) as [ok m'].
  destruct Hframe as (_ & _ & Hcontexts & _ & policy & Hlog & Hpolicy).
  destruct Hinv as [Hcreated Hnd]. unfold createdOnce. cbn [snd].
  rewrite Hlog, Hcontexts, createdModes_app, Hcreated.
  split; [ | exact Hnd ].
  destruct Hpolicy as [ -> | [ -> | -> ] ]; simpl; apply app_nil_r.
Qed.

Lemma switchMode_createdOnce target m :
  createdOnce m -> createdOnce (snd (switchMode target m)).
Proof.
  intros Hinv. unfold switchMode.
  destruct (String.eqb target (mode m)); [ exact Hinv | ].
  pose proof (createOrGetContext_createdOnce target m Hinv) as H1.
  destruct (createOrGetContext target m) as [next m1]. cbn [snd] in H1.
  pose proof (handleUnsavedChanges_createdOnce target m1 H1) as H2.
  destruct (handleUnsavedChanges target m1) as [ok m2]. cbn [snd] in H2.
  destruct ok; cbn [negb snd]; [ | exact H2 ].
  apply createdOnce_emit; [ apply createdModes_notified | ].
  eapply createdOnce_same; [ reflexivity | reflexivity | ].
  apply createdOnce_emit; [ apply createdModes_callIf; exact I | ].
  apply createdOnce_emit; [ | exact H2 ].
  destruct (getContext m (mode m)); [ apply createdModes_callIf; exact I | reflexivity ].
Qed.

Lemma newManager_createdOnce options initialMode :
  createdOnce (newManager options initialMode).
Proof.
  unfold newManager.
  pose proof (createOrGetContext_createdOnce initialMode
                (Manager options initialMode [] [] false [])) as H.
  destruct (createOrGetContext initialMode (Manager options initialMode [] [] false []))
    as [context m1]. cbn [snd] in H.
  apply createdOnce_emit; [ apply createdModes_callIf; exact I | ].
  apply H. split; [ reflexivity | apply NoDup_nil_2 ].
Qed.

(** X10: contexts are created lazily and kept: from a new
    [ModeManager] on, whatever modes are switched to and however often,
    granted or refused, the context factory has been called exactly once
    for each mode that has a context, and never twice for a mode. *)
Theorem contexts_created_once options initialMode targets :
  let m := switches targets (newManager options initialMode) in
  createdModes (log m) = map fst (contexts m) /\
  NoDup (createdModes (log m)) /\
  initialMode ∈ createdModes (log m).
Proof.
  cbv zeta.
  assert (Hinv : forall m,
            createdOnce m /\ initialMode ∈ map fst (contexts m) ->
            createdOnce (switches targets m) /\
            initialMode ∈ map fst (contexts (switches targets m))).
  { unfold switches. induction targets as [ | target rest IH ]; intros m Hm; [ exact Hm | ].
    simpl. apply IH. destruct Hm as [Hm Hin]. split; [ apply switchMode_createdOnce; exact Hm | ].
    pose proof (switchMode_createdOnce target m Hm) as [Hlog' _].
    rewrite <- Hlog'. destruct Hm as [Hlog _]. rewrite <- Hlog in Hin.
    unfold switchMode.
    destruct (String.eqb target (mode m)); [ exact Hin | ].
    unfold createOrGetContext.
    assert (Hgrow : forall m1 m2, (exists more, log m2 = log m1 ++ more) ->
              initialMode ∈ createdModes (log m1) -> initialMode ∈ createdModes (log m2)).
    { intros m1 m2 [more ->] H. rewrite createdModes_app. apply elem_of_app. left. exact H. }
    destruct (getContext m target).
    - pose proof (handleUnsavedChanges_frame target m) as Hframe.
      destruct (handleUnsavedChanges target m) as [ok m2].
      destruct Hframe as (_ & _ & _ & _ & policy & Hlog2 & _).
      destruct ok; cbn [negb snd].
      + cbn [emit log]. rewrite !createdModes_app, Hlog2, createdModes_app.
        repeat (apply elem_of_app; left). exact Hin.
      + rewrite Hlog2, createdModes_app. apply elem_of_app. left. exact Hin.
    - set (m1 := emit [Created target] _).
      pose proof (handleUnsavedChanges_frame target m1) as Hframe.
      destruct (handleUnsavedChanges target m1) as [ok m2].
      destruct Hframe as (_ & _ & _ & _ & policy & Hlog2 & _).
      assert (Hin1 : initialMode ∈ createdModes (log m1)).
      { subst m1. cbn [emit log]. rewrite createdModes_app. apply elem_of_app. left. exact Hin. }
      destruct ok; cbn [negb snd].
      + cbn [emit log]. rewrite !createdModes_app, Hlog2, createdModes_app.
        repeat (apply elem_of_app; left). exact Hin1.
      + rewrite Hlog2, createdModes_app. apply elem_of_app. left. exact Hin1. }
  destruct (Hinv (newManager options initialMode)) as [[Hlog Hnd] Hin].
  { split; [ apply newManager_createdOnce | ].
    unfold newManager, createOrGetContext. cbn. apply list_elem_of_here. }
  split; [ exact Hlog | ]. rewrite Hlog. split; assumption.
Qed.

(** X11: with unsaved changes and an autosave policy, a switch to
    another mode is always granted, and the confirm policy is not
    consulted even when one is configured. All that is called, in
    order: the context factory (when the target has no context yet),
    the autosave, the [deactivate] hook of the context left, the
    [activate] hook of the context entered, then every listener with
    the target. The manager's own dirty flag is cleared. *)
Theorem switchMode_autosaves_first target m :
  target <> mode m ->
  isDirty m = true ->
  autoSave (opts m) = true ->
  let (result, m') := switchMode target m in
  let next := default (createContext (opts m) target) (getContext m target) in
  result = true /\ mode m' = target /\ dirty m' = false /\
  getContext m' target = Some next /\
  log m' = log m
           ++ match getContext m target with Some _ => [] | None => [Created target] end
           ++ [AutoSaved]
           ++ match getContext m (mode m) with
              | Some previous => callIf (hasDeactivate previous) (Deactivated previous)
              | None => []
              end
           ++ callIf (hasActivate next) (Activated next)
           ++ map (fun listener => Notified listener target) (listeners m).
Proof.
  intros Hne Hdirty Hauto. unfold switchMode.
  destruct (String.eqb_spec target (mode m)) as [ Heq | _ ]; [ contradiction | ].
  unfold createOrGetContext.
  destruct (getContext m target) as [ existing | ] eqn:Hget.
  - unfold handleUnsavedChanges. rewrite Hdirty, Hauto. cbn.
    split; [ reflexivity | ]. split; [ reflexivity | ]. split; [ reflexivity | ].
    split; [ exact Hget | ].
    rewrite <- !app_assoc. reflexivity.
  - unfold handleUnsavedChanges, isDirty in *. cbn. rewrite Hdirty, Hauto. cbn.
    split; [ reflexivity | ]. split; [ reflexivity | ]. split; [ reflexivity | ].
    split; [ apply mapGet_snoc; exact Hget | ].
    rewrite <- !app_assoc. reflexivity.
Qed.

Lemma switchMode_autosaves_first_witness :
  let m := Manager autoSaving "edit" [("edit", taggedContext "edit")] [7] true [] in
  fst (switchMode "play" m) = true /\
  log (snd (switchMode "play" m))
  = [Created "play"; AutoSaved; Deactivated (taggedContext "edit");
     Activated (taggedContext "play"); Notified 7 "play"].
Proof.
  cbv zeta.
  pose proof (switchMode_autosaves_first "play"
    (Manager autoSaving "edit" [("edit", taggedContext "edit")] [7] true [])) as H.
  destruct (switchMode "play"
              (Manager autoSaving "edit" [("edit", taggedContext "edit")] [7] true []))
    as [result m'].
  destruct H as (Hresult & _ & _ & _ & Hlog); try reflexivity; [ discriminate | ].
  cbn [fst snd]. split; [ exact Hresult | ]. rewrite Hlog. reflexivity.
Defined.

Lemma heardBy_app listener l1 l2 :
  heardBy listener (l1 ++ l2) = heardBy listener l1 ++ heardBy listener l2.
Proof. apply omap_app. Qed.

Lemma heardBy_callIf listener has e :
  match e with Notified _ _ => False | _ => True end -> heardBy listener (callIf has e) = [].
Proof. destruct has; [ | reflexivity ]. destruct e; simpl; tauto. Qed.

(** What a set of listeners that holds the listener once tells it. *)
Lemma heardBy_notified listener target (listeners : list nat) :
  NoDup listeners ->
  heardBy listener (map (fun l => Notified l target) listeners)
  = if bool_decide (listener ∈ listeners) then [target] else [].
Proof.
  induction 1 as [ | l rest Hnot Hnd IH ]; [ reflexivity | ].
  change (map (fun l => Notified l target) (l :: rest))
    with ([Notified l target] ++ map (fun l => Notified l target) rest).
  rewrite heardBy_app, IH. unfold heardBy at 1. cbn [omap list_omap].
  destruct (Nat.eqb_spec l listener) as [ -> | Hne ].
  - rewrite (bool_decide_eq_true_2 (listener ∈ listener :: rest))
      by apply list_elem_of_here.
    rewrite (bool_decide_eq_false_2 (listener ∈ rest)) by exact Hnot. reflexivity.
  - cbn [app]. case_bool_decide as Hin; case_bool_decide as Hin'; try reflexivity.
    + exfalso. apply Hin'. apply list_elem_of_further. exact Hin.
    + exfalso. apply elem_of_cons in Hin' as [ -> | Hin' ]; [ congruence | contradiction ].
Qed.

(** What one [switchMode] tells a listener. *)
Lemma switchMode_heardBy listener target m :
  NoDup (listeners m) ->
  heardBy listener (log (snd (switchMode target m)))
  = heardBy listener (log m)
    ++ if fst (switchMode target m) && negb (String.eqb target (mode m))
          && bool_decide (listener ∈ listeners m)
       then [target] else [].
Proof.
  intros Hnd. unfold switchMode.
  destruct (String.eqb target (mode m)) eqn:Hsame.
  { cbn [fst snd negb andb]. rewrite app_nil_r. reflexivity. }
  assert (Hcreate : listeners (snd (createOrGetContext target m)) = listeners m /\
                    heardBy listener (log (snd (createOrGetContext target m)))
                    = heardBy listener (log m)).
  { unfold createOrGetContext. destruct (getContext m target); cbn [snd];
      [ split; reflexivity | ].
    cbn [emit listeners log]. split; [ reflexivity | ].
    rewrite heardBy_app. apply app_nil_r. }
  destruct (createOrGetContext target m) as [next m1]. cbn [snd] in Hcreate.
  destruct Hcreate as [Hl1 Hh1].
  pose proof (handleUnsavedChanges_frame target m1) as Hframe.
  destruct (handleUnsavedChanges target m1) as [ok m2].
  destruct Hframe as (_ & _ & _ & Hl2 & policy & Hlog2 & Hpolicy).
  assert (Hh2 : heardBy listener (log m2) = heardBy listener (log m)).
  { rewrite Hlog2, heardBy_app, Hh1.
    destruct Hpolicy as [ -> | [ -> | -> ] ]; apply app_nil_r. }
  destruct ok; cbn [negb fst snd andb].
  - cbn [emit log listeners]. rewrite !heardBy_app, Hh2, Hl2, Hl1.
    rewrite heardBy_notified by exact Hnd.
    rewrite heardBy_callIf by exact I.
    replace (heardBy listener
               match getContext m (mode m) with
               | Some c => callIf (hasDeactivate c) (Deactivated c)
               | None => []
               end) with (@nil string).
    2: { destruct (getContext m (mode m)); [ rewrite heardBy_callIf by exact I | ];
         reflexivity. }
    rewrite !app_nil_r. reflexivity.
  - rewrite Hh2, app_nil_r. reflexivity.
Qed.

(** X12: a listener that subscribes is called at once with the
    current mode, and from then on once with the target of each switch
    to another mode that is granted, also when it had subscribed
    before; a refused switch does not call it; after its unsubscribe
    function has run, no switch calls it. *)
Theorem subscribers_hear_granted_switches listener target m :
  NoDup (listeners m) ->
  let subscribed := subscribe listener m in
  let unsubscribed := snd (unsubscribe listener subscribed) in
  heardBy listener (log subscribed) = heardBy listener (log m) ++ [mode m] /\
  heardBy listener (log (snd (switchMode target subscribed)))
  = heardBy listener (log subscribed)
    ++ (if fst (switchMode target subscribed) && negb (String.eqb target (mode m))
        then [target] else []) /\
  heardBy listener (log (snd (switchMode target unsubscribed)))
  = heardBy listener (log unsubscribed).
Proof.
  intros Hnd. cbv zeta.
  assert (Hsub : NoDup (listeners (subscribe listener m)) /\
                 listener ∈ listeners (subscribe listener m)).
  { unfold subscribe. cbn [emit listeners]. case_bool_decide as Hin; [ split; assumption | ].
    split; [ | apply elem_of_app; right; apply list_elem_of_here ].
    apply NoDup_app. split; [ exact Hnd | ]. split; [ | apply NoDup_singleton ].
    intros l Hl Hl'. apply list_elem_of_singleton in Hl'. subst l. contradiction. }
  destruct Hsub as [Hnd1 Hin1].
  split; [ | split ].
  - unfold subscribe. cbn [emit log]. rewrite heardBy_app. cbn.
    rewrite Nat.eqb_refl. reflexivity.
  - rewrite (switchMode_heardBy listener target _ Hnd1).
    rewrite (bool_decide_eq_true_2 _ Hin1), andb_true_r. reflexivity.
  - set (m1 := subscribe listener m) in *.
    assert (Hnd2 : NoDup (listeners (snd (unsubscribe listener m1)))).
    { cbn. apply NoDup_filter. exact Hnd1. }
    rewrite (switchMode_heardBy listener target _ Hnd2).
    rewrite bool_decide_eq_false_2, andb_false_r; [ apply app_nil_r | ].
    cbn. rewrite list_elem_of_filter. tauto.
Qed.

Lemma subscribers_hear_granted_switches_witness :
  let m := Manager autoSaving "edit" [("edit", taggedContext "edit")] [7] true [] in
  heardBy 7 (log (snd (switchMode "play" (subscribe 7 m)))) = ["edit"; "play"].
Proof.
  cbv zeta.
  destruct (subscribers_hear_granted_switches 7 "play"
              (Manager autoSaving "edit" [("edit", taggedContext "edit")] [7] true []))
    as (Hnow & Hlater & _).
  - apply (bool_decide_unpack _). vm_compute. exact I.
  - rewrite Hlater, Hnow. reflexivity.
Defined.

(** X13: [destroy] leaves the manager without contexts and without
    listeners, in the mode it was in. It first makes sure the ['edit']
    and ['play'] contexts exist, calling the factory for each that does
    not; then every context that has a [dispose] hook, those two
    included, has it called, in the order the contexts were created.
    Nothing else is called. *)
Theorem destroy_disposes_every_context m :
  let m' := destroy m in
  let edit := match getContext m "edit" with
              | Some _ => []
              | None => [("edit", createContext (opts m) "edit")]
              end in
  let play := match mapGet (contexts m ++ edit) "play" with
              | Some _ => []
              | None => [("play", createContext (opts m) "play")]
              end in
  contexts m' = [] /\ listeners m' = [] /\ mode m' = mode m /\
  is_Some (mapGet (contexts m ++ edit ++ play) "edit") /\
  is_Some (mapGet (contexts m ++ edit ++ play) "play") /\
  log m' = log m
           ++ map (fun entry => Created (fst entry)) (edit ++ play)
           ++ map Disposed (filter (fun c => hasDispose c = true)
                              (map snd (contexts m ++ edit ++ play))).
Proof.
  cbv zeta. unfold destroy.
  assert (Hdispose : forall entries : list (string * context),
            flat_map (fun entry => callIf (hasDispose (snd entry)) (Disposed (snd entry))) entries
            = map Disposed (filter (fun c => hasDispose c = true) (map snd entries))).
  { induction entries as [ | [k c] rest IH ]; [ reflexivity | ].
    cbn [flat_map map snd]. rewrite filter_cons, IH.
    destruct (hasDispose c) eqn:Hc; cbn [callIf].
    - rewrite decide_True by reflexivity. reflexivity.
    - rewrite decide_False by discriminate. reflexivity. }
  unfold createOrGetContext, getContext.
  destruct (mapGet (contexts m) "edit") as [ edit | ] eqn:Hedit.
  - rewrite app_nil_r.
    destruct (mapGet (contexts m) "play") as [ play | ] eqn:Hplay.
    + cbn [emit log contexts listeners mode opts app map]. rewrite Hdispose, ?app_nil_r.
      repeat split; eauto.
    + cbn [emit log contexts listeners mode opts app map fst]. rewrite Hdispose.
      repeat split; [ | | rewrite <- app_assoc; reflexivity ].
      * exists edit. apply mapGet_app_l. exact Hedit.
      * eexists. apply mapGet_snoc. exact Hplay.
  - cbn [emit log contexts listeners mode opts].
    destruct (mapGet (contexts m ++ [("edit", createContext (opts m) "edit")]) "play")
      as [ play | ] eqn:Hplay.
    + cbn [emit log contexts listeners mode opts app map fst]. rewrite Hdispose, ?app_nil_r.
      repeat split; [ | | rewrite <- app_assoc; reflexivity ].
      * eexists. apply mapGet_snoc. exact Hedit.
      * eauto.
    + cbn [emit log contexts listeners mode opts app map fst]. rewrite Hdispose.
      change [("edit", createContext (opts m) "edit"); ("play", createContext (opts m) "play")]
        with ([("edit", createContext (opts m) "edit")]
              ++ [("play", createContext (opts m) "play")]).
      rewrite app_assoc. repeat split.
      * eexists. apply mapGet_app_l, mapGet_snoc. exact Hedit.
      * eexists. apply mapGet_snoc. exact Hplay.
      * rewrite <- !app_assoc. reflexivity.
Qed.

End ModeFacts.

(** ** The export hash *)

Module HashFacts.
Import Hash StringTerms StringFacts HashTerms.

Local Open Scope Z_scope.

Lemma toInt32_range z : - 2 ^ 31 <= toInt32 z < 2 ^ 31.
Proof.
  unfold toInt32. pose proof (Z.mod_pos_bound (z + 2 ^ 31) (2 ^ 32) ltac:(lia)). lia.
Qed.

Lemma toInt32_mod z : toInt32 z mod 2 ^ 32 = z mod 2 ^ 32.
Proof.
  unfold toInt32. rewrite Zminus_mod_idemp_l. f_equal. lia.
Qed.

Lemma toInt32_congruent a b : a mod 2 ^ 32 = b mod 2 ^ 32 -> toInt32 a = toInt32 b.
Proof.
  intros H. unfold toInt32. f_equal.
  rewrite <- (Zplus_mod_idemp_l a), <- (Zplus_mod_idemp_l b), H. reflexivity.
Qed.

Lemma toInt32_small z : - 2 ^ 31 <= z < 2 ^ 31 -> toInt32 z = z.
Proof. intros H. unfold toInt32. rewrite Z.mod_small by lia. lia. Qed.

Lemma toInt32_offset z : exists k, toInt32 z = z + k * 2 ^ 32.
Proof.
  exists (- ((z + 2 ^ 31) / 2 ^ 32)). unfold toInt32.
  pose proof (Z.div_mod (z + 2 ^ 31) (2 ^ 32) ltac:(lia)). lia.
Qed.

(** One round multiplies by 31 and adds the code, modulo 2^32. *)
Lemma round_polynomial z c : round (toInt32 z) c = toInt32 (31 * z + charCode c).
Proof.
  unfold round, shiftLeft. apply toInt32_congruent.
  rewrite Z.shiftl_mul_pow2 by lia.
  destruct (toInt32_offset z) as [k ->].
  destruct (toInt32_offset ((z + k * 2 ^ 32) * 2 ^ 5)) as [k' ->].
  replace ((z + k * 2 ^ 32) * 2 ^ 5 + k' * 2 ^ 32 - (z + k * 2 ^ 32) + charCode c)
    with (31 * z + charCode c + (31 * k + k') * 2 ^ 32) by lia.
  apply Z.mod_add. lia.
Qed.

Lemma rounds_polynomial input : forall z,
  rounds (toInt32 z) input = toInt32 (polynomial z input).
Proof.
  induction input as [ | c rest IH ]; intros z; [ reflexivity | ].
  cbn [rounds polynomial]. rewrite round_polynomial. apply IH.
Qed.

(** X18: [hashString] hashes like Java's [String.hashCode]: the hash
    before [Math.abs] is the value of the polynomial with multiplier 31
    over the character codes, wrapped to a signed 32-bit integer; so it
    lies in the 32-bit range, two strings whose polynomials agree
    modulo 2^32 hash alike, and the empty string hashes to 0. *)
Theorem hashString_is_polynomial_hash input :
  rounds 0 input = toInt32 (polynomial 0 input) /\
  - 2 ^ 31 <= rounds 0 input < 2 ^ 31 /\
  (forall other,
     polynomial 0 input mod 2 ^ 32 = polynomial 0 other mod 2 ^ 32 ->
     hashString input = hashString other) /\
  rounds 0 "" = 0.
Proof.
  assert (Hpoly : forall s, rounds 0 s = toInt32 (polynomial 0 s)).
  { intros s. exact (rounds_polynomial s 0). }
  split; [ apply Hpoly | ]. split; [ rewrite Hpoly; apply toInt32_range | ].
  split; [ | reflexivity ].
  intros other Hsame. unfold hashString. rewrite !Hpoly.
  rewrite (toInt32_congruent _ _ Hsame). reflexivity.
Qed.

Lemma hashString_is_polynomial_hash_witness : hashString "Aa" = hashString "BB".
Proof.
  apply (hashString_is_polynomial_hash "Aa"). reflexivity.
Defined.

Lemma hexValue_app (d1 d2 : string) : forall acc,
  hexValue acc (d1 +:+ d2) = hexValue (hexValue acc d1) d2.
Proof.
  induction d1 as [ | c d1 IH ]; intros acc; [ reflexivity | ].
  rewrite append_cons. cbn [hexValue]. apply IH.
Qed.

Lemma allHex_app (d1 d2 : string) : allHex (d1 +:+ d2) = allHex d1 && allHex d2.
Proof.
  induction d1 as [ | c d1 IH ]; [ reflexivity | ].
  rewrite append_cons. cbn [allHex]. rewrite IH, andb_assoc. reflexivity.
Qed.

Lemma length_app_one (d : string) c :
  String.length (d +:+ String c "") = S (String.length d).
Proof.
  induction d as [ | a d IH ]; [ reflexivity | ].
  rewrite append_cons. cbn [String.length]. rewrite IH. reflexivity.
Qed.

Lemma hexDigit_spec d :
  0 <= d < 16 -> isHexDigit (hexDigit d) = true /\ digitValue (hexDigit d) = d.
Proof.
  intros Hd.
  assert (Hcases : d = 0 \/ d = 1 \/ d = 2 \/ d = 3 \/ d = 4 \/ d = 5 \/ d = 6 \/ d = 7 \/
                   d = 8 \/ d = 9 \/ d = 10 \/ d = 11 \/ d = 12 \/ d = 13 \/ d = 14 \/ d = 15)
    by lia.
  repeat (destruct Hcases as [ -> | Hcases ]; [ split; reflexivity | ]).
  subst d. split; reflexivity.
Qed.

(** With a digit of fuel for each digit of the number, [hexDigits]
    writes the number: every digit, none too many. *)
Lemma hexDigits_spec fuel : forall n acc,
  0 <= n < 16 ^ Z.of_nat (S fuel) ->
  exists d,
    hexDigits (S fuel) n acc = d +:+ acc /\
    allHex d = true /\
    (forall v, hexValue v d = v * 16 ^ Z.of_nat (String.length d) + n) /\
    (1 <= String.length d)%nat /\
    16 ^ (Z.of_nat (String.length d) - 1) <= Z.max n 1.
Proof.
  assert (Hone : forall n acc, 0 <= n < 16 ->
            exists d,
              String (hexDigit (n mod 16)) acc = d +:+ acc /\
              allHex d = true /\
              (forall v, hexValue v d = v * 16 ^ Z.of_nat (String.length d) + n) /\
              (1 <= String.length d)%nat /\
              16 ^ (Z.of_nat (String.length d) - 1) <= Z.max n 1).
  { intros n acc Hsmall.
    assert (Hdigit : 0 <= n mod 16 < 16) by (apply Z.mod_pos_bound; lia).
    destruct (hexDigit_spec (n mod 16) Hdigit) as [Hhex Hvalue].
    exists (String (hexDigit (n mod 16)) "").
    split; [ reflexivity | ]. split; [ cbn [allHex]; rewrite Hhex; reflexivity | ].
    split; [ | split; [ simpl; lia | simpl; lia ] ].
    intros v. cbn [hexValue String.length]. rewrite Hvalue, Z.mod_small by lia.
    change (16 ^ Z.of_nat 1) with 16. lia. }
  induction fuel as [ | fuel IH ]; intros n acc Hn.
  - cbn [hexDigits]. change (16 ^ Z.of_nat 1) with 16 in Hn.
    destruct (Z.ltb_spec n 16) as [ _ | Hbig ]; [ | lia ]. apply Hone. exact Hn.
  - change (hexDigits (S (S fuel)) n acc)
      with (if n <? 16 then String (hexDigit (n mod 16)) acc
            else hexDigits (S fuel) (n / 16) (String (hexDigit (n mod 16)) acc)).
    destruct (Z.ltb_spec n 16) as [ Hsmall | Hbig ]; [ apply Hone; lia | ].
    assert (Hdigit : 0 <= n mod 16 < 16) by (apply Z.mod_pos_bound; lia).
    destruct (hexDigit_spec (n mod 16) Hdigit) as [Hhex Hvalue].
    assert (Hdiv : 0 <= n / 16 < 16 ^ Z.of_nat (S fuel)).
    { split; [ apply Z.div_pos; lia | ].
      apply Z.div_lt_upper_bound; [ lia | ].
      rewrite (Nat2Z.inj_succ (S fuel)), Z.pow_succ_r in Hn by lia. lia. }
    destruct (IH (n / 16) (String (hexDigit (n mod 16)) acc) Hdiv)
      as (d & Heq & Hall & Hval & Hlen & Htight).
    exists (d +:+ String (hexDigit (n mod 16)) "").
    split; [ rewrite Heq, append_snoc; reflexivity | ].
    split; [ rewrite allHex_app, Hall; cbn [allHex]; rewrite Hhex; reflexivity | ].
    rewrite length_app_one.
    split; [ | split; [ lia | ] ].
    + intros v. rewrite hexValue_app, Hval. cbn [hexValue]. rewrite Hvalue.
      rewrite Nat2Z.inj_succ, Z.pow_succ_r by lia.
      pose proof (Z.div_mod n 16 ltac:(lia)). lia.
    + replace (Z.of_nat (S (String.length d)) - 1)
        with (Z.succ (Z.of_nat (String.length d) - 1)) by lia.
      rewrite Z.pow_succ_r by lia.
      assert (1 <= n / 16) by (apply Z.div_le_lower_bound; lia).
      pose proof (Z.div_mod n 16 ltac:(lia)). lia.
Qed.

Lemma toString16_spec n :
  0 <= n ->
  allHex (toString16 n) = true /\
  hexValue 0 (toString16 n) = n /\
  (1 <= String.length (toString16 n))%nat /\
  16 ^ (Z.of_nat (String.length (toString16 n)) - 1) <= Z.max n 1.
Proof.
  intros Hn. unfold toString16.
  destruct (hexDigits_spec (Z.to_nat (Z.log2 n)) n "") as (d & Heq & Hall & Hval & Hlen & Ht).
  { split; [ exact Hn | ].
    destruct (Z.eq_dec n 0) as [ -> | Hpos ]; [ reflexivity | ].
    pose proof (Z.log2_spec n ltac:(lia)) as [_ Hlt].
    pose proof (Z.log2_nonneg n).
    rewrite Nat2Z.inj_succ, Z2Nat.id by lia.
    eapply Z.lt_le_trans; [ exact Hlt | ].
    apply Z.pow_le_mono_l. lia. }
  rewrite Heq, append_nil_r. repeat split; try assumption. rewrite Hval. lia.
Qed.

(** X19: the hash [hashString] returns is written in lower-case
    hexadecimal digits, at least one and at most eight of them, and
    spells the absolute value of the 32-bit hash, a number from 0 to
    2^31. *)
Theorem hashString_is_hex input :
  allHex (hashString input) = true /\
  (1 <= String.length (hashString input) <= 8)%nat /\
  hexValue 0 (hashString input) = Z.abs (rounds 0 input) /\
  0 <= Z.abs (rounds 0 input) <= 2 ^ 31.
Proof.
  pose proof (toInt32_range (polynomial 0 input)) as Hrange.
  rewrite <- (rounds_polynomial input 0) in Hrange.
  change (toInt32 0) with 0 in Hrange.
  destruct (toString16_spec (Z.abs (rounds 0 input)) (Z.abs_nonneg _))
    as (Hall & Hval & Hlen & Htight).
  fold (hashString input) in *.
  split; [ exact Hall | ]. split; [ | split; [ exact Hval | lia ] ].
  split; [ exact Hlen | ].
  destruct (le_lt_dec (String.length (hashString input)) 8) as [ Hok | Hlong ];
    [ exact Hok | exfalso ].
  assert (H8 : 16 ^ 8 <= 16 ^ (Z.of_nat (String.length (hashString input)) - 1)).
  { apply Z.pow_le_mono_r; lia. }
  change (16 ^ 8) with 4294967296 in H8. change (2 ^ 31) with 2147483648 in Hrange. lia.
Qed.

End HashFacts.

(** ** The editor panels *)

Module EditorFacts.
Import Js Validator Serializer Editor JsFacts StringTerms StringFacts.
Import ValidatorTerms ValidatorFacts SerializerTerms EditorTerms.
Import TreeIndexTerms SelectionFacts TreeIndexFacts.

Lemma split_unfold separator text :
  split separator text = fst (pieces separator text) :: snd (pieces separator text).
Proof. unfold split. destruct (pieces separator text). reflexivity. Qed.

Lemma split_cons separator c rest :
  split separator (String c rest) =
  if Ascii.eqb c separator then "" :: split separator rest
  else String c (fst (pieces separator rest)) :: snd (pieces separator rest).
Proof.
  rewrite !split_unfold. cbn [pieces]. destruct (pieces separator rest) as [piece more].
  destruct (Ascii.eqb c separator); reflexivity.
Qed.

(** No piece holds the separator. *)
Lemma split_pieces separator text :
  Forall (fun piece => contains separator piece = false) (split separator text).
Proof.
  induction text as [ | c rest IH ]; [ repeat constructor | ].
  rewrite split_cons. rewrite split_unfold in IH. inversion IH as [ | ? ? Hpiece Hmore ]; subst.
  destruct (Ascii.eqb c separator) eqn:Hc.
  - constructor; [ reflexivity | ]. rewrite split_unfold. exact IH.
  - constructor; [ | exact Hmore ]. cbn [contains]. rewrite Hc, Hpiece. reflexivity.
Qed.

(** A text without the separator is one piece; a separator ends the
    piece before it. *)
Lemma split_whole separator text :
  contains separator text = false -> split separator text = [text].
Proof.
  induction text as [ | c rest IH ]; [ reflexivity | ].
  cbn [contains]. intros H. apply orb_false_iff in H as [Hc Hrest].
  rewrite split_cons, Hc. specialize (IH Hrest). rewrite split_unfold in IH.
  injection IH as -> ->. reflexivity.
Qed.

Lemma split_append separator piece rest :
  contains separator piece = false ->
  split separator (piece +:+ String separator rest) = piece :: split separator rest.
Proof.
  induction piece as [ | c piece IH ]; intros Hnone.
  - rewrite append_nil_l, split_cons, Ascii.eqb_refl. reflexivity.
  - cbn [contains] in Hnone. apply orb_false_iff in Hnone as [Hc Hpiece].
    rewrite append_cons, split_cons, Hc. specialize (IH Hpiece).
    rewrite split_unfold in IH. injection IH as -> ->. reflexivity.
Qed.

Lemma tagsOfText_nil : tagsOfText "" = [].
Proof. reflexivity. Qed.

Lemma cleanTag_trim_space tag : cleanTag tag -> trim (String " " tag) = tag.
Proof.
  intros (_ & Htrim & _). unfold trim in *. cbn [trimStart].
  change (isWhiteSpace " ") with true. cbn iota. exact Htrim.
Qed.

(** The pieces of a shown list of tags, after the first: each tag
    after the space that follows its comma. *)
Lemma split_join_spaced tags : forall tag,
  Forall cleanTag (tag :: tags) ->
  map trim (split "," (String " " (join ", " (tag :: tags)))) = tag :: tags.
Proof.
  induction tags as [ | next tags IH ]; intros tag Hall.
  - inversion Hall as [ | ? ? Htag _ ]; subst. cbn [join].
    rewrite split_whole.
    + cbn [map]. rewrite (cleanTag_trim_space tag Htag). reflexivity.
    + cbn [contains]. destruct Htag as (_ & _ & ->). reflexivity.
  - inversion Hall as [ | ? ? Htag Hrest ]; subst.
    change (join ", " (tag :: next :: tags))
      with (tag +:+ ", " +:+ join ", " (next :: tags)).
    change (String " " (tag +:+ ", " +:+ join ", " (next :: tags)))
      with (String " " tag +:+ String "," (String " " (join ", " (next :: tags)))).
    rewrite split_append.
    + cbn [map]. rewrite (cleanTag_trim_space tag Htag), (IH next Hrest). reflexivity.
    + cbn [contains]. destruct Htag as (_ & _ & ->). reflexivity.
Qed.

Lemma filter_nonempty_clean tags :
  Forall cleanTag tags -> filter (fun tag => tag <> "") tags = tags.
Proof.
  induction 1 as [ | tag tags [Hne _] _ IH ]; [ reflexivity | ].
  rewrite filter_cons, decide_True by exact Hne. rewrite IH. reflexivity.
Qed.

Lemma tagsOfText_join tags : Forall cleanTag tags -> tagsOfText (join ", " tags) = tags.
Proof.
  intros Hall. destruct tags as [ | tag tags ]; [ reflexivity | ].
  unfold tagsOfText.
  assert (Hpieces : map trim (split "," (join ", " (tag :: tags))) = tag :: tags).
  { inversion Hall as [ | ? ? Htag Hrest ]; subst.
    destruct tags as [ | next tags ].
    - cbn [join]. rewrite split_whole by apply Htag. cbn [map].
      destruct Htag as (_ & -> & _). reflexivity.
    - change (join ", " (tag :: next :: tags))
        with (tag +:+ String "," (String " " (join ", " (next :: tags)))).
      rewrite split_append by apply Htag. cbn [map].
      rewrite (split_join_spaced tags next Hrest).
      destruct Htag as (_ & -> & _). reflexivity. }
  rewrite Hpieces. apply filter_nonempty_clean. exact Hall.
Qed.

Lemma tagsOfText_cleanTags text : Forall cleanTag (tagsOfText text).
Proof.
  unfold tagsOfText. apply Forall_forall. intros tag Hin.
  apply list_elem_of_filter in Hin as [Hne Hin].
  apply list_elem_of_fmap in Hin as (piece & -> & Hpiece).
  split; [ exact Hne | ]. split; [ apply trim_idempotent | ].
  pose proof (split_pieces "," text) as Hall. rewrite Forall_forall in Hall.
  specialize (Hall piece Hpiece).
  destruct (contains "," (trim piece)) eqn:Hc; [ | reflexivity ].
  apply contains_trim in Hc. congruence.
Qed.

(** X20: whatever is typed into the tags field, the tags stored are
    clean: none is empty, none begins or ends with white space, none
    holds a comma. Showing the stored tags and reading the shown text
    back stores the same tags again. *)
Theorem tagsOfText_stores_clean_tags text :
  Forall (fun tag => tag <> "" /\ trim tag = tag /\ contains "," tag = false)
         (tagsOfText text) /\
  tagsOfText (tagsText (Some (tagsOfText text))) = tagsOfText text.
Proof.
  split; [ apply tagsOfText_cleanTags | ].
  apply tagsOfText_join, tagsOfText_cleanTags.
Qed.

(** X21: the tags field shows a list of tags as a text that reads
    back as the same list, provided no tag is empty, begins or ends
    with white space, or holds a comma; a node without tags shows the
    empty text, which reads back as no tags. *)
Theorem tagsOfText_tagsText tags :
  Forall (fun tag => tag <> "" /\ trim tag = tag /\ contains "," tag = false) tags ->
  tagsOfText (tagsText (Some tags)) = tags /\
  tagsOfText (tagsText None) = [].
Proof.
  intros Hall. split; [ | reflexivity ]. apply tagsOfText_join. exact Hall.
Qed.

Lemma tagsOfText_tagsText_witness :
  tagsOfText (tagsText (Some ["scene"; "old growth"])) = ["scene"; "old growth"].
Proof.
  apply (tagsOfText_tagsText ["scene"; "old growth"]).
  repeat constructor; discriminate.
Defined.

(** X27: keyboard navigation in the hierarchy. Whatever was
    selected or focused, in a forest that has a node a step to the next
    or to the previous id leaves exactly one id selected and focused,
    and it is the id of a node of the forest: the node [findNodeById]
    finds for it. *)
Theorem handleKeyboardFocus_lands_on_node nodes direction selection :
  TreeIndex.flattenNodeIds nodes <> [] ->
  (direction = 1 \/ direction = -1)%Z ->
  exists n,
    handleKeyboardFocus nodes direction selection
    = Selection.Manager [Some (TreeIndex.id n)] (Some (TreeIndex.id n)) /\
    TreeIndex.findNodeById (snd nodes) (TreeIndex.id n) = Some n.
Proof.
  intros Hne Hdir. unfold handleKeyboardFocus.
  destruct (focusNext_lands_in_order (map Some (TreeIndex.flattenNodeIds nodes))
              direction selection) as (x & Hx & Hstep).
  { destruct (TreeIndex.flattenNodeIds nodes); [ congruence | discriminate ]. }
  { lia. }
  apply list_elem_of_fmap in Hx as (i & -> & Hi).
  cbv zeta. rewrite Hstep. unfold Selection.getFocused. cbn [Selection.focused].
  rewrite focus_focused.
  destruct (TreeIndex.findNodeById (snd nodes) i) as [ n | ] eqn:Hfind.
  - pose proof Hfind as Hid. rewrite findNodeById_allNodes in Hid.
    assert (Hn : TreeIndex.id n = i).
    { clear -Hid. induction (allNodes (snd nodes)) as [ | y rest IH ]; [ discriminate | ].
      cbn [List.filter] in Hid. destruct (hasId i y) eqn:Hy; [ | exact (IH Hid) ].
      injection Hid as <-. apply String.eqb_eq. exact Hy. }
    exists n. rewrite Hn. split; [ | exact Hfind ].
    destruct (Selection.truthy (Some i)); reflexivity.
  - exfalso. rewrite findNodeById_allNodes in Hfind.
    rewrite flattenNodeIds_allNodes in Hi.
    apply list_elem_of_fmap in Hi as (n & -> & Hn).
    clear -Hfind Hn. induction Hn as [ n rest | n y rest _ IH ].
    + cbn [List.filter] in Hfind. unfold hasId at 1 in Hfind.
      rewrite String.eqb_refl in Hfind. discriminate.
    + cbn [List.filter] in Hfind. destruct (hasId (TreeIndex.id n) y); [ discriminate | ].
      exact (IH Hfind).
Qed.

Lemma handleKeyboardFocus_lands_on_node_witness :
  exists n,
    handleKeyboardFocus demoForest (-1) (Selection.Manager [Some "root"] (Some "root"))
    = Selection.Manager [Some (TreeIndex.id n)] (Some (TreeIndex.id n)) /\
    TreeIndex.id n = "tree-2".
Proof.
  destruct (handleKeyboardFocus_lands_on_node demoForest (-1)
              (Selection.Manager [Some "root"] (Some "root")))
    as (n & Hstep & _); [ discriminate | right; reflexivity | ].
  exists n. split; [ exact Hstep | ].
  vm_compute in Hstep. injection Hstep as Hid _. symmetry. exact Hid.
Defined.

Lemma axisValue_finite n :
  PrimFloat.is_infinity n = false -> PrimFloat.is_finite (axisValue n) = true.
Proof.
  intros Hinf. unfold axisValue, truthy, PrimFloat.is_finite. 
  destruct (PrimFloat.is_zero n); cbn [orb negb]; [ reflexivity | ].
  destruct (PrimFloat.is_nan n) eqn:Hnan; cbn [orb negb]; [ reflexivity | ].
  rewrite Hnan, Hinf. reflexivity.
Qed.

Lemma validateAxes_spreadWith axes axis (n : float) o p p' :
  PrimFloat.is_finite n = true ->
  validateAxes axes o p = [] ->
  validateAxes axes (spreadWith axis (VNumber n) o) p' = [].
Proof.
  intros Hfin. unfold validateAxes.
  induction axes as [ | key axes IH ]; [ reflexivity | ].
  cbn [flat_map]. intros H. apply app_eq_nil in H as [Hkey Hrest].
  rewrite (IH Hrest), app_nil_r.
  destruct (String.eqb_spec key axis) as [ -> | Hne ].
  - unfold get. rewrite own_spreadWith_same. cbn [default from_option id isFiniteNumber].
    rewrite Hfin. reflexivity.
  - rewrite get_spreadWith_other by exact Hne.
    destruct (isFiniteNumber (get key o)); [ reflexivity | discriminate ].
Qed.

(** The vector an edit writes validates: its other axes are those of
    the vector edited, when the transform has one that validates, and
    those of the default otherwise. *)
Lemma edited_vector_validates field fallback axes axis n transform p p' :
  vectorField field fallback axes ->
  PrimFloat.is_finite n = true ->
  whenPresent field transform (fun v => validateField field v p) = [] ->
  validateField field
    (VObject (spreadWith axis (VNumber n)
                (spread (orElse (optionalMember (VObject transform) field) fallback)))) p'
  = [].
Proof.
  intros Hfield Hfin Hold. unfold whenPresent in Hold. cbn [optionalMember]. unfold get.
  destruct (own field transform) as [ v | ] eqn:Hown.
  - cbn [default from_option id].
    destruct Hfield as [ (-> & -> & ->) | [ (-> & -> & ->) | (-> & -> & ->) ] ].
    all: unfold validateField in *; cbn [String.eqb Ascii.eqb Bool.eqb] in *.
    all: destruct v as [ | | b | m | s | items | o ]; try discriminate.
    all: cbn [orElse spread validateVector3 validateQuaternion] in *.
    all: apply (validateAxes_spreadWith _ _ _ _ p); assumption.
  - cbn [default from_option id orElse].
    destruct Hfield as [ (-> & -> & ->) | [ (-> & -> & ->) | (-> & -> & ->) ] ].
    all: unfold validateField; cbn [String.eqb Ascii.eqb Bool.eqb].
    all: cbn [vector3 quaternion spread validateVector3 validateQuaternion].
    all: apply (validateAxes_spreadWith _ _ _ _ p); [ assumption | reflexivity ].
Qed.

(** Whether a vector validates does not depend on where it stands. *)
Lemma validateAxes_nil axes o q :
  validateAxes axes o q = [] <-> forallb (fun key => isFiniteNumber (get key o)) axes = true.
Proof.
  unfold validateAxes. induction axes as [ | key axes IH ]; [ split; reflexivity | ].
  cbn [flat_map forallb]. destruct (isFiniteNumber (get key o)); cbn [app andb].
  - exact IH.
  - split; discriminate.
Qed.

Lemma validateField_path field v q q' :
  validateField field v q = [] -> validateField field v q' = [].
Proof.
  unfold validateField.
  destruct (String.eqb field "rotation");
    (destruct v as [ | | b | m | s | items | o ]; try discriminate);
    cbn [validateVector3 validateQuaternion]; rewrite !validateAxes_nil; trivial.
Qed.

(** The transform an edit writes validates when the transform edited
    did. *)
Lemma edited_transform_validates field fallback axes axis n t p p' :
  vectorField field fallback axes ->
  PrimFloat.is_finite n = true ->
  validateTransform (VObject t) p = [] ->
  validateTransform
    (VObject (spreadWith field
                (VObject (spreadWith axis (VNumber n)
                            (spread (orElse (optionalMember (VObject t) field) fallback))))
                t)) p'
  = [].
Proof.
  intros Hfield Hfin Hold. cbn [validateTransform] in *.
  apply app_eq_nil in Hold as [Hposition Hold]. apply app_eq_nil in Hold as [Hrotation Hscale].
  change (fun v => validateVector3 v (p /> Field "position"))
    with (fun v => validateField "position" v (p /> Field "position")) in Hposition.
  change (fun v => validateQuaternion v (p /> Field "rotation"))
    with (fun v => validateField "rotation" v (p /> Field "rotation")) in Hrotation.
  change (fun v => validateVector3 v (p /> Field "scale"))
    with (fun v => validateField "scale" v (p /> Field "scale")) in Hscale.
  change (fun v => validateVector3 v (p' /> Field "position"))
    with (fun v => validateField "position" v (p' /> Field "position")).
  change (fun v => validateQuaternion v (p' /> Field "rotation"))
    with (fun v => validateField "rotation" v (p' /> Field "rotation")).
  change (fun v => validateVector3 v (p' /> Field "scale"))
    with (fun v => validateField "scale" v (p' /> Field "scale")).
  assert (Hpart : forall key,
            whenPresent key t (fun v => validateField key v (p /> Field key)) = [] ->
            (key = field -> whenPresent field t (fun v => validateField field v (p /> Field field)) = []) ->
            whenPresent key
              (spreadWith field
                 (VObject (spreadWith axis (VNumber n)
                             (spread (orElse (optionalMember (VObject t) field) fallback)))) t)
              (fun v => validateField key v (p' /> Field key)) = []).
  { intros key Hkey Hsame. unfold whenPresent.
    destruct (String.eqb_spec key field) as [ -> | Hne ].
    - rewrite own_spreadWith_same.
      apply (edited_vector_validates field fallback axes axis n t (p /> Field field));
        [ assumption | assumption | apply Hsame; reflexivity ].
    - rewrite own_spreadWith_other by exact Hne. unfold whenPresent in Hkey.
      destruct (own key t); [ | reflexivity ].
      exact (validateField_path key _ _ _ Hkey). }
  rewrite (Hpart "position" Hposition), (Hpart "rotation" Hrotation), (Hpart "scale" Hscale);
    [ reflexivity | | | ]; intros <-; assumption.
Qed.

(** The updater of a vector field changes [transform] and nothing
    else. *)
Lemma setAxis_frame field fallback axis value current key :
  key <> "transform" ->
  own key (setAxis field fallback axis value current) = own key current.
Proof. intros Hkey. apply own_spreadWith_other. exact Hkey. Qed.

(** The axis then holds the number. *)
Lemma setAxis_axis field fallback axis value current :
  optionalMember
    (optionalMember (get "transform" (setAxis field fallback axis value current)) field) axis
  = VNumber value.
Proof.
  unfold setAxis, get. rewrite own_spreadWith_same. cbn [default from_option id optionalMember].
  unfold get. rewrite own_spreadWith_same. cbn [default from_option id optionalMember].
  unfold get. rewrite own_spreadWith_same. reflexivity.
Qed.

(** When the transform of the node validates (or the node has none)
    and the number is finite, the transform the updater builds
    validates. *)
Lemma setAxis_transform_validates field fallback axes axis value current p :
  vectorField field fallback axes ->
  PrimFloat.is_finite value = true ->
  whenPresent "transform" current (fun v => validateTransform v (p /> Field "transform")) = [] ->
  whenPresent "transform" (setAxis field fallback axis value current)
    (fun v => validateTransform v (p /> Field "transform")) = [].
Proof.
  intros Hfield Hfin Hold. unfold whenPresent, setAxis, get in *.
  rewrite own_spreadWith_same.
  destruct (own "transform" current) as [ v | ]; cbn [default from_option id].
  - destruct v as [ | | b | m | s | items | t ]; try discriminate.
    apply (edited_transform_validates field fallback axes axis value t
             (p /> Field "transform")); assumption.
  - apply (edited_transform_validates field fallback axes axis value []
             (p /> Field "transform")); [ assumption | assumption | reflexivity ].
Qed.

(** *** What the editor stores after an edit *)

Lemma scan_app_nil assets l1 l2 seen seen2 :
  scan assets (l1 ++ l2) seen = Returns ([], seen2) ->
  exists seen1,
    scan assets l1 seen = Returns ([], seen1) /\ scan assets l2 seen1 = Returns ([], seen2).
Proof.
  rewrite scan_app.
  destruct (scan assets l1 seen) as [ [e1 s1] | e ]; cbn [obind]; [ | discriminate ].
  destruct (scan assets l2 s1) as [ [e2 s2] | e ] eqn:Hrest; cbn [obind]; [ | discriminate ].
  intros [= Happ ->]. apply app_eq_nil in Happ as [-> ->]. exists s1.
  split; [ reflexivity | exact Hrest ].
Qed.

Lemma leafErrors_app id l1 l2 : leafErrors id (l1 ++ l2) = leafErrors id l1 ++ leafErrors id l2.
Proof. unfold leafErrors. apply flat_map_app. Qed.

(** A node without errors of its own has a transform that validates,
    if it has one, and children that are an array, if it has any. *)
Lemma ownErrors_nil_parts assets p o seen seen1 :
  ownErrors assets p (VObject o) seen = Returns ([], seen1) ->
  whenPresent "transform" o (fun v => validateTransform v (p /> Field "transform")) = [] /\
  (own "children" o = None \/ exists items, own "children" o = Some (VArray items)).
Proof.
  cbn [ownErrors]. destruct (checkId o p seen) as [idErrors seen0].
  destruct (match own "asset" o with Some _ => _ | None => _ end) as [ assetErrors | e ];
    cbn [obind]; [ | discriminate ].
  intros [= Herrors _].
  apply app_eq_nil in Herrors as [_ Herrors].
  apply app_eq_nil in Herrors as [_ Herrors].
  apply app_eq_nil in Herrors as [_ Herrors].
  apply app_eq_nil in Herrors as [Htransform Herrors].
  apply app_eq_nil in Herrors as [_ Herrors].
  apply app_eq_nil in Herrors as [_ Hchildren].
  split; [ exact Htransform | ].
  destruct (own "children" o) as [ [ | | b | n | s | items | o' ] | ];
    try discriminate; [ right; exists items; reflexivity | left; reflexivity ].
Qed.

(** The checks of a node look at its id, name, tags, transform,
    components, asset and children, and at nothing else. *)
Lemma ownErrors_stored assets p o o' seen seen1 :
  ownErrors assets p (VObject o) seen = Returns ([], seen1) ->
  (forall key, key <> "transform" -> key <> "children" -> own key o' = own key o) ->
  whenPresent "transform" o' (fun v => validateTransform v (p /> Field "transform")) = [] ->
  ownErrors assets p (VObject o') seen =
  Returns (match own "children" o' with
           | Some (VArray _) | None => []
           | Some _ => [Error (p /> Field "children") NotArrayWhenPresent]
           end, seen1).
Proof.
  intros Hold Hsame Htransform. cbn [ownErrors] in *.
  unfold checkId, get, whenPresent in *.
  rewrite (Hsame "id"), (Hsame "name"), (Hsame "tags"), (Hsame "components"),
    (Hsame "asset"), Htransform by discriminate.
  destruct (nonEmptyString (default VUndefined (own "id" o))) as [ i | ];
    [ destruct (decide (i ∈ seen)) as [ Hseen | Hfresh ] | ].
  all: destruct (match own "asset" o with Some _ => _ | None => _ end) as [ assetErrors | err ];
    cbn [obind] in *; try discriminate.
  injection Hold as Herrors ->. cbn [app] in Herrors.
  apply app_eq_nil in Herrors as [-> Herrors].
  apply app_eq_nil in Herrors as [-> Herrors].
  apply app_eq_nil in Herrors as [_ Herrors].
  apply app_eq_nil in Herrors as [-> Herrors].
  apply app_eq_nil in Herrors as [-> _].
  reflexivity.
Qed.

Lemma leafErrors_cons id p v l :
  leafErrors id ((p, v) :: l) =
  (if bareTarget id v then [Error (p /> Field "children") NotArrayWhenPresent] else [])
  ++ leafErrors id l.
Proof. reflexivity. Qed.

Lemma flatMapIndexed_cons {A} (f : value -> nat -> list A) item rest index :
  flatMapIndexed f (item :: rest) index = f item index ++ flatMapIndexed f rest (S index).
Proof. reflexivity. Qed.

Lemma mapItems_cons callback item rest :
  mapItems callback (item :: rest) =
  obind (callback item) (fun '(item', c1) =>
    obind (mapItems callback rest) (fun '(rest', c2) =>
      Returns (item' :: rest', c1 || c2))).
Proof. reflexivity. Qed.

Section Stored.

Variable id : string.

Variable updater : props -> props.

Variable assets : option (list value).

Hypothesis updater_frame :
  forall o key, key <> "transform" -> own key (updater o) = own key o.

Hypothesis updater_valid : forall o p,
  whenPresent "transform" o (fun v => validateTransform v (p /> Field "transform")) = [] ->
  whenPresent "transform" (updater o)
    (fun v => validateTransform v (p /> Field "transform")) = [].

Lemma mapItems_stored (pathOf : nat -> path) items :
  Forall (storesWell id updater assets) items ->
  forall index seen seen1,
    scan assets (flatMapIndexed (fun item index => reached item (pathOf index)) items index)
      seen = Returns ([], seen1) ->
    exists items' changed,
      mapItems (visit id updater) items = Returns (items', changed) /\
      (changed = false -> items' = items) /\
      scan assets (flatMapIndexed (fun item index => reached item (pathOf index)) items' index)
        seen
      = Returns (leafErrors id
                   (flatMapIndexed (fun item index => reached item (pathOf index)) items index),
                 seen1) /\
      Forall2 (storedAs id updater)
        (flatMapIndexed (fun item index => reached item (pathOf index)) items index)
        (flatMapIndexed (fun item index => reached item (pathOf index)) items' index).
Proof.
  induction 1 as [ | item rest Hitem _ IH ]; intros index seen seen1 Hscan.
  - exists [], false. cbn in Hscan. injection Hscan as <-.
    split; [ reflexivity | ]. split; [ reflexivity | ]. split; [ reflexivity | constructor ].
  - rewrite flatMapIndexed_cons in Hscan.
    apply scan_app_nil in Hscan as (seen0 & Hhead & Htail).
    destruct (Hitem _ _ _ Hhead) as (item' & c1 & Hvisit & Hkeep1 & Hscan1 & Hrel1).
    destruct (IH _ _ _ Htail) as (rest' & c2 & Hmap & Hkeep2 & Hscan2 & Hrel2).
    exists (item' :: rest'), (c1 || c2).
    split; [ rewrite mapItems_cons, Hvisit; cbn [obind]; rewrite Hmap; reflexivity | ].
    split.
    { intros Hc. apply orb_false_iff in Hc as [-> ->].
      rewrite (Hkeep1 eq_refl), (Hkeep2 eq_refl). reflexivity. }
    rewrite !flatMapIndexed_cons. split; [ | apply Forall2_app; assumption ].
    rewrite scan_app, Hscan1. cbn [obind]. rewrite Hscan2. cbn [obind].
    rewrite leafErrors_app. reflexivity.
Qed.

Lemma visit_stored node : storesWell id updater assets node.
Proof.
  enough (H : storesWell id updater assets node /\
              match node with
              | VArray items => Forall (storesWell id updater assets) items
              | _ => True
              end) by apply H.
  induction node as [ | | b | n | s | items IH | o IH ] using value_induction;
    try (split; [ intros p seen seen1 Hscan; discriminate | exact I ]).
  - split; [ intros p seen seen1 Hscan; discriminate | ].
    apply Forall_impl with (1 := IH). intros item H. apply H.
  - split; [ | exact I ]. intros p seen seen1 Hscan.
    cbn [reached] in Hscan. rewrite withOwn_own in Hscan. cbn [scan] in Hscan.
    destruct (ownErrors assets p (VObject o) seen) as [ [errors seen0] | e ] eqn:Hown;
      [ | discriminate ].
    cbn [obind] in Hscan.
    destruct (scan assets _ seen0) as [ [more seen2] | e ] eqn:Hkids; [ | discriminate ].
    cbn [obind] in Hscan. injection Hscan as Happ ->.
    apply app_eq_nil in Happ as [-> ->].
    destruct (ownErrors_nil_parts _ _ _ _ _ Hown) as [Htransform Hchildren].
    cbn [visit]. rewrite withOwn_own. unfold rebuilt.
    set (hit := strictEqualsString (get "id" o) id).
    assert (Hframe : forall key, key <> "transform" -> key <> "children" ->
              forall children,
                own key (spreadWith "children" children (if hit then updater o else o))
                = own key o).
    { intros key Ht Hc children. rewrite own_spreadWith_other by exact Hc.
      destruct hit; [ apply updater_frame; exact Ht | reflexivity ]. }
    assert (Hnew : forall children,
              whenPresent "transform"
                (spreadWith "children" children (if hit then updater o else o))
                (fun v => validateTransform v (p /> Field "transform")) = []).
    { intros children. unfold whenPresent. rewrite own_spreadWith_other by discriminate.
      destruct hit; [ apply updater_valid | ]; exact Htransform. }
    assert (Hentry : forall children,
              (own "children" o = None -> children = VUndefined /\ hit = true) ->
              storedAs id updater (p, VObject o)
                (p, VObject (spreadWith "children" children
                               (if hit then updater o else o)))).
    { intros children Hbare. split; [ reflexivity | ].
      eexists _, _. split; [ reflexivity | ]. split; [ reflexivity | ].
      cbv zeta. fold hit. split.
      - intros key Hc. apply own_spreadWith_other. exact Hc.
      - intros Hnone. destruct (Hbare Hnone) as [-> ->]. apply own_spreadWith_same. }
    assert (Hkept : hit = false -> storedAs id updater (p, VObject o) (p, VObject o)).
    { intros Hhit. split; [ reflexivity | ].
      eexists _, _. split; [ reflexivity | ]. split; [ reflexivity | ].
      cbv zeta. fold hit. rewrite Hhit. split; [ reflexivity | trivial ]. }
    destruct Hchildren as [ Hnone | [items Hitems] ].
    + rewrite Hnone in Hkids |- *. cbn [scan] in Hkids. injection Hkids as <-.
      cbn [orb]. destruct hit eqn:Hhit.
      * eexists _, true. split; [ reflexivity | ]. split; [ discriminate | ].
        cbn [reached]. rewrite !withOwn_own, own_spreadWith_same, Hnone.
        split; [ | constructor; [ apply Hentry; auto | constructor ] ].
        cbn [scan].
        rewrite (ownErrors_stored assets p o _ seen seen0 Hown
                   (fun key Ht Hc => Hframe key Ht Hc VUndefined) (Hnew VUndefined)).
        rewrite own_spreadWith_same. cbn [obind].
        rewrite leafErrors_cons. cbn [bareTarget]. fold hit. rewrite Hhit, Hnone.
        reflexivity.
      * eexists _, false. split; [ reflexivity | ]. split; [ reflexivity | ].
        cbn [reached]. rewrite !withOwn_own, Hnone.
        split; [ | constructor; [ apply Hkept; reflexivity | constructor ] ].
        cbn [scan]. rewrite Hown. cbn [obind].
        rewrite leafErrors_cons. cbn [bareTarget]. fold hit. rewrite Hhit.
        reflexivity.
    + rewrite Hitems in Hkids |- *.
      assert (Hall : Forall (storesWell id updater assets) items).
      { rewrite Forall_forall in IH.
        destruct (IH ("children", VArray items)) as [_ Hall]; [ | exact Hall ].
        apply list_elem_of_In, own_In. exact Hitems. }
      destruct (mapItems_stored (fun index => p /> Field "children" /> Index index)
                  items Hall 0 seen0 seen1 Hkids)
        as (items' & cc & Hmap & Hkeep & Hscan' & Hrel).
      rewrite Hmap. cbn [obind].
      assert (Hsame : (if cc then VArray items' else VArray items) = VArray items').
      { destruct cc; [ reflexivity | rewrite (Hkeep eq_refl); reflexivity ]. }
      rewrite Hsame.
      assert (Hbare : bareTarget id (VObject o) = false).
      { cbn [bareTarget]. rewrite Hitems. apply andb_false_r. }
      destruct (cc || hit) eqn:Hmoved.
      * eexists _, _. split; [ reflexivity | ]. split.
        { intros Hc. rewrite orb_comm, Hmoved in Hc. discriminate. }
        cbn [reached]. rewrite !withOwn_own, own_spreadWith_same, Hitems.
        split; [ | constructor; [ apply Hentry; intros Hnone; congruence | exact Hrel ] ].
        cbn [scan].
        rewrite (ownErrors_stored assets p o _ seen seen0 Hown
                   (fun key Ht Hc => Hframe key Ht Hc (VArray items')) (Hnew (VArray items'))).
        rewrite own_spreadWith_same. cbn [obind]. rewrite Hscan'. cbn [obind].
        rewrite leafErrors_cons, Hbare. reflexivity.
      * apply orb_false_iff in Hmoved as [-> Hhit]. rewrite (Hkeep eq_refl) in *.
        eexists _, _. split; [ reflexivity | ]. split; [ reflexivity | ].
        cbn [reached]. rewrite !withOwn_own, Hitems.
        split; [ | constructor; [ apply Hkept; exact Hhit | exact Hrel ] ].
        cbn [scan]. rewrite Hown. cbn [obind]. rewrite Hscan'. cbn [obind].
        rewrite leafErrors_cons, Hbare. reflexivity.
Qed.

End Stored.

Lemma strictEqualsString_true v s : strictEqualsString v s = true -> v = VString s.
Proof.
  destruct v as [ | | b | n | t | items | o ]; try discriminate.
  cbn [strictEqualsString]. intros H. apply String.eqb_eq in H. subst t. reflexivity.
Qed.

Lemma leafErrors_absent id l :
  is_Some (nonEmptyString (VString id)) -> id ∉ idsOf l -> leafErrors id l = [].
Proof.
  intros [i Hid] Hnot. induction l as [ | [q v] rest IH ]; [ reflexivity | ].
  rewrite leafErrors_cons, IH.
  - destruct (bareTarget id v) eqn:Hbare; [ exfalso | reflexivity ].
    destruct v as [ | | b | n | s | items | o ]; try discriminate.
    cbn [bareTarget] in Hbare. apply andb_true_iff in Hbare as [Hhit _].
    apply strictEqualsString_true in Hhit. apply Hnot. apply idsOf_cons. left.
    cbn [idOf]. rewrite Hhit, Hid.
    cbn [nonEmptyString] in Hid. destruct (String.eqb (trim id) ""); congruence.
  - intros Hin. apply Hnot. apply idsOf_cons. right. exact Hin.
Qed.

(** In a traversal with distinct ids, the one node that has the id is
    the only bare target there can be. *)
Lemma leafErrors_unique id l p current :
  NoDup (idsOf l) ->
  (p, VObject current) ∈ l ->
  get "id" current = VString id ->
  is_Some (idOf (VObject current)) ->
  leafErrors id l =
  match own "children" current with
  | Some _ => []
  | None => [Error (p /> Field "children") NotArrayWhenPresent]
  end.
Proof.
  intros Hnd Hin Hid Hsome. cbn [idOf] in Hsome. rewrite Hid in Hsome.
  apply list_elem_of_split in Hin as (l1 & l2 & ->).
  assert (Hids : idsOf ((p, VObject current) :: l2) = id :: idsOf l2).
  { unfold idsOf. cbn [omap list_omap snd idOf]. rewrite Hid.
    destruct Hsome as [i Hi]. rewrite Hi.
    cbn [nonEmptyString] in Hi. destruct (String.eqb (trim id) ""); congruence. }
  rewrite idsOf_app, Hids in Hnd. apply NoDup_app in Hnd as (_ & Hdisjoint & Hnd).
  apply NoDup_cons in Hnd as [Hafter _].
  rewrite leafErrors_app, leafErrors_cons.
  rewrite (leafErrors_absent id l1 Hsome), (leafErrors_absent id l2 Hsome Hafter), app_nil_r.
  - cbn [bareTarget app]. rewrite Hid. cbn [strictEqualsString]. rewrite String.eqb_refl.
    destruct (own "children" current); reflexivity.
  - intros Hbefore. apply (Hdisjoint id Hbefore). apply list_elem_of_here.
Qed.

(** X29: an edit of a vector field of the inspector, as the editor
    stores it. In a document that validates, let a node at path [p]
    have the id [id]; the inspector's edit of one axis of its position,
    rotation or scale, with a number that is no infinity, goes through
    [updateNode(id, updater)]. The call returns a document that differs
    from the old one in [nodes] only. The node stored at [p] holds the
    number at the axis (0 when the text typed is no number) and, apart
    from [transform] and [children], the properties of the node edited.
    When the node edited has a [children] property, the new document
    validates. When it has none, the stored node carries
    [children: undefined], [validateWorldDocument] reports exactly one
    error, [<p>.children must be an array when present], and
    [serializeWorld] on the new document throws the validation error. *)
Theorem axis_edit_valid_iff_children
    field fallback axes axis n w validation roots id p current :
  vectorField field fallback axes ->
  PrimFloat.is_infinity n = false ->
  validateWorldDocument (VObject w) = Returns validation ->
  valid validation = true ->
  get "nodes" w = VArray roots ->
  (p, VObject current) ∈ reachedForest roots ->
  get "id" current = VString id ->
  let updater := setAxis field fallback axis (axisValue n) in
  let errors :=
    match own "children" current with
    | Some _ => []
    | None => [Error (p /> Field "children") NotArrayWhenPresent]
    end in
  exists w' roots' stored,
    updateNode id updater w = Returns w' /\
    (forall key, key <> "nodes" -> own key w' = own key w) /\
    get "nodes" w' = VArray roots' /\
    (p, VObject stored) ∈ reachedForest roots' /\
    optionalMember (optionalMember (get "transform" stored) field) axis
    = VNumber (axisValue n) /\
    (forall key, key <> "transform" -> key <> "children" ->
       own key stored = own key current) /\
    (own "children" current = None -> own "children" stored = Some VUndefined) /\
    validateWorldDocument (VObject w') = Returns (Validation (isEmpty errors) errors) /\
    (own "children" current = None ->
     serializeWorld (VObject w') = Throws (InvalidWorld errors)).
Proof.
  intros Hfield Hinf Hrun Hvalid Hnodes Hin Hid. cbv zeta.
  pose proof (axisValue_finite n Hinf) as Hfin.
  set (updater := setAxis field fallback axis (axisValue n)).
  destruct (valid_parts _ _ Hrun Hvalid) as (w0 & roots0 & seen1 & Hw & Hnodes0 & Hassets & Hscan).
  injection Hw as <-. rewrite Hnodes in Hnodes0. injection Hnodes0 as <-.
  destruct (scan_empty _ _ _ _ Hscan) as (Hall & Hnd & _).
  assert (Hsome : is_Some (idOf (VObject current))).
  { rewrite Forall_forall in Hall. destruct (Hall _ Hin) as [H _]. exact H. }
  assert (Hstores : Forall (storesWell id updater (worldAssets w)) roots).
  { apply Forall_forall. intros root _. apply visit_stored.
    - intros o key Hkey. apply setAxis_frame. exact Hkey.
    - intros o q Hold. apply (setAxis_transform_validates field fallback axes); assumption. }
  destruct (mapItems_stored id updater (worldAssets w)
              (fun index => [Name "nodes"; Index index]) roots Hstores 0 ∅ seen1 Hscan)
    as (roots' & changed & Hmap & Hkeep & Hscan' & Hrel).
  fold (reachedForest roots) in Hscan', Hrel. fold (reachedForest roots') in Hscan', Hrel.
  set (w' := if changed then spreadWith "nodes" (VArray roots') w else w).
  assert (Hframe : forall key, key <> "nodes" -> own key w' = own key w).
  { intros key Hkey. unfold w'. destruct changed; [ | reflexivity ].
    apply own_spreadWith_other. exact Hkey. }
  assert (Hnodes' : get "nodes" w' = VArray roots').
  { unfold w'. destruct changed.
    - unfold get. rewrite own_spreadWith_same. reflexivity.
    - rewrite (Hkeep eq_refl). exact Hnodes. }
  apply list_elem_of_lookup in Hin as [i Hi].
  destruct (Forall2_lookup_l _ _ _ _ _ Hrel Hi) as (entry & Hentry & Hp & o & stored & Ho & Hs & Hown & Hbare).
  injection Ho as <-. destruct entry as [q v]. cbn [fst snd] in Hp, Hs. subst q v.
  cbv zeta in Hown, Hbare. rewrite Hid in Hown, Hbare.
  cbn [strictEqualsString] in Hown, Hbare. rewrite String.eqb_refl in Hown, Hbare.
  assert (Hverdict : validateWorldDocument (VObject w')
            = Returns (Validation
                (isEmpty match own "children" current with
                         | Some _ => []
                         | None => [Error (p /> Field "children") NotArrayWhenPresent]
                         end)
                match own "children" current with
                | Some _ => []
                | None => [Error (p /> Field "children") NotArrayWhenPresent]
                end)).
  { rewrite (validateWorldDocument_scan w' roots' Hnodes').
    assert (Hsame : get "assets" w' = get "assets" w).
    { unfold get. rewrite Hframe by discriminate. reflexivity. }
    unfold worldAssets. rewrite Hsame. fold (worldAssets w).
    rewrite Hscan'. cbn [obind]. rewrite Hassets. cbn [app].
    rewrite (leafErrors_unique id _ p current Hnd (list_elem_of_lookup_2 _ _ _ Hi) Hid Hsome).
    reflexivity. }
  exists w', roots', stored.
  split.
  { unfold updateNode, updateNodeById. rewrite Hnodes, Hmap. cbn [obind].
    unfold w'. destruct changed; reflexivity. }
  split; [ exact Hframe | ]. split; [ exact Hnodes' | ].
  split; [ exact (list_elem_of_lookup_2 _ _ _ Hentry) | ].
  split.
  { unfold get. rewrite (Hown "transform") by discriminate. apply setAxis_axis. }
  split.
  { intros key Ht Hc. rewrite (Hown key Hc). apply setAxis_frame. exact Ht. }
  split; [ exact Hbare | ]. split; [ exact Hverdict | ].
  intros Hnone. unfold serializeWorld, requireValid. rewrite Hverdict, Hnone. reflexivity.
Qed.

Lemma axis_edit_valid_iff_children_witness :
  (exists w',
     updateNode "tree-1" (setPosition "y" (axisValue 1%float)) defaultWorld = Returns w' /\
     validateWorldDocument (VObject w')
     = Returns (Validation false
         [Error [Name "nodes"; Index 0; Field "children"; Index 1;
                 Field "children"; Index 0; Field "children"] NotArrayWhenPresent]) /\
     serializeWorld (VObject w')
     = Throws (InvalidWorld
         [Error [Name "nodes"; Index 0; Field "children"; Index 1;
                 Field "children"; Index 0; Field "children"] NotArrayWhenPresent])) /\
  (exists w',
     updateNode "camp" (setPosition "y" (axisValue 1%float)) defaultWorld = Returns w' /\
     validateWorldDocument (VObject w') = Returns (Validation true [])).
Proof.
  split.
  - edestruct (axis_edit_valid_iff_children "position" (vector3 0 0 0) ["x"; "y"; "z"] "y"
                 1%float defaultWorld (Validation true [])
                 (match get "nodes" defaultWorld with VArray roots => roots | _ => [] end)
                 "tree-1"
                 [Name "nodes"; Index 0; Field "children"; Index 1; Field "children"; Index 0])
      as (w' & roots' & stored & Hupdate & _ & _ & _ & _ & _ & _ & Hverdict & Hexport).
    + left. repeat split.
    + reflexivity.
    + reflexivity.
    + reflexivity.
    + reflexivity.
    + apply list_elem_of_lookup_2 with (i := 4). reflexivity.
    + reflexivity.
    + exists w'. split; [ exact Hupdate | ]. split; [ exact Hverdict | ].
      apply Hexport. reflexivity.
  - edestruct (axis_edit_valid_iff_children "position" (vector3 0 0 0) ["x"; "y"; "z"] "y"
                 1%float defaultWorld (Validation true [])
                 (match get "nodes" defaultWorld with VArray roots => roots | _ => [] end)
                 "camp"
                 [Name "nodes"; Index 0; Field "children"; Index 0])
      as (w' & roots' & stored & Hupdate & _ & _ & _ & _ & _ & _ & Hverdict & _).
    + left. repeat split.
    + reflexivity.
    + reflexivity.
    + reflexivity.
    + reflexivity.
    + apply list_elem_of_lookup_2 with (i := 1). reflexivity.
    + reflexivity.
    + exists w'. split; [ exact Hupdate | exact Hverdict ].
Defined.

End EditorFacts.
